(** * LLM Lab Console: the response-quality scoring engine

    A shallow embedding of [src/app/lib/metrics.ts] and of its duplicate
    (the second copy of the module, whose [calculateMetrics] returns the
    requirement list unjoined), with the properties of the engine proved
    over it.

    Data model.

    - A JavaScript string is the list of its UTF-16 code units ([jsstring]).
    - A JavaScript number is a binary64 float, Rocq's primitive [float]:
      [+], [-], [*], [/] and the comparisons are the IEEE 754 operations the
      engine runs.  Quantities that are integer-valued by construction
      (lengths, counts, and the arithmetic on them up to the first
      non-integer operation) are kept in [Z]: binary64 holds every integer
      below 2^53 exactly and its [+], [-], [*], [min], [max] and comparisons
      are exact on them.  [num] converts such an integer to a float where the
      source mixes it with fractions.
    - [Math.exp], [Math.log10] and [Math.pow] are implementation-approximated
      in ECMAScript; they are the operations of a [MathRuntime]. *)

From Stdlib Require Import ZArith NArith List Bool Lia String Ascii.
From Stdlib Require Import Floats.
From Stdlib Require Uint63.
From Stdlib Require DecimalString.
Import ListNotations.

Set Warnings "-inexact-float".

Local Open Scope Z_scope.

(** ** Strings *)

Definition jsstring := list N.

(** An ASCII literal as a JavaScript string. *)
Definition lit (s : string) : jsstring :=
  map N_of_ascii (list_ascii_of_string s).

Definition str_eqb (a b : jsstring) : bool :=
  if list_eq_dec N.eq_dec a b then true else false.

Definition has (set : list jsstring) (x : jsstring) : bool :=
  existsb (str_eqb x) set.

(** [new Set(xs)]: the distinct elements, in order of first insertion. *)
Fixpoint newSet_go (seen xs : list jsstring) : list jsstring :=
  match xs with
  | [] => rev seen
  | x :: xs' => if has seen x then newSet_go seen xs' else newSet_go (x :: seen) xs'
  end.

Definition newSet (xs : list jsstring) : list jsstring := newSet_go [] xs.

Definition size {A} (l : list A) : Z := Z.of_nat (List.length l).

(** [x || 1] on a length. *)
Definition or1 (n : Z) : Z := if n =? 0 then 1 else n.

Local Open Scope N_scope.

Definition in_range (lo hi c : N) : bool := (lo <=? c) && (c <=? hi).

(** The regular-expression class [\s]: WhiteSpace and LineTerminator. *)
Definition isSpace (c : N) : bool :=
  in_range 9 13 c || (c =? 32) || (c =? 160) || (c =? 0x1680)
  || in_range 0x2000 0x200a c || (c =? 0x2028) || (c =? 0x2029)
  || (c =? 0x202f) || (c =? 0x205f) || (c =? 0x3000) || (c =? 0xfeff).

Definition isDigit (c : N) : bool := in_range 48 57 c.          (* \d     *)
Definition isLower (c : N) : bool := in_range 97 122 c.         (* [a-z]  *)
Definition isUpper (c : N) : bool := in_range 65 90 c.          (* [A-Z]  *)
Definition isWordChar (c : N) : bool :=                         (* \w     *)
  isLower c || isUpper c || isDigit c || (c =? 95).
Definition isNewline (c : N) : bool := c =? 10.                 (* \n     *)

Definition chr_newline : N := 10.
Definition chr_cr : N := 13.
Definition chr_space : N := 32.
Definition chr_hash : N := 35.
Definition chr_star : N := 42.
Definition chr_hyphen : N := 45.
Definition chr_dot : N := 46.
Definition chr_e : N := 101.
Definition chr_bullet : N := 0x2022.

(** [String.prototype.toLowerCase], one code unit at a time.  The Latin
    capitals map to their small letters; U+0130 and U+212A are the only
    code points outside ASCII whose lower case contains an ASCII letter.
    Every other code unit outside ASCII has a lower case outside ASCII: it
    is left as it is here, and every reader of a lowered string in this
    module replaces or deletes the code units outside ASCII (white space
    has no case). *)
Definition lowerChar (c : N) : list N :=
  if isUpper c then [c + 32]
  else if c =? 0x130 then [105; 0x307]
  else if c =? 0x212a then [107]
  else [c].

Definition toLowerCase (s : jsstring) : jsstring := flat_map lowerChar s.

(** Case-insensitive comparison of a pattern letter with a subject code
    unit under the [i] flag without the [u] flag: both are canonicalized by
    upper-casing, and a code unit outside ASCII never canonicalizes into
    ASCII, so an ASCII letter matches exactly its two cases. *)
Definition upperAscii (c : N) : N := if isLower c then c - 32 else c.
Definition ieq (p c : N) : bool := upperAscii p =? upperAscii c.

Local Close Scope N_scope.

Fixpoint takeWhile {A} (f : A -> bool) (l : list A) : list A :=
  match l with
  | [] => []
  | x :: l' => if f x then x :: takeWhile f l' else []
  end.

Fixpoint dropWhile {A} (f : A -> bool) (l : list A) : list A :=
  match l with
  | [] => []
  | x :: l' => if f x then dropWhile f l' else l
  end.

Definition nonEmpty {A} (l : list A) : bool :=
  match l with [] => false | _ => true end.

(** [String.prototype.trim]. *)
Definition trim (s : jsstring) : jsstring :=
  rev (dropWhile isSpace (rev (dropWhile isSpace s))).

(** [String.prototype.split] with a regular expression that has no capture
    group and never matches the empty string.  [sep prev rest] is the match
    of the expression anchored at the current position: [prev] is the code
    unit before it (for a look-behind), [rest] the subject from it on, and
    the result the length of the match.  [skip] counts the code units of
    the separator still to be passed, [cur] is the piece being read,
    reversed. *)
Fixpoint split_go (sep : option N -> jsstring -> option nat)
    (prev : option N) (skip : nat) (cur : jsstring) (s : jsstring)
    : list jsstring :=
  match s with
  | [] => [rev cur]
  | c :: s' =>
      match skip with
      | S k => split_go sep (Some c) k cur s'
      | O =>
          match sep prev s with
          | Some (S k) => rev cur :: split_go sep (Some c) k [] s'
          | _ => split_go sep (Some c) O (c :: cur) s'
          end
      end
  end.

Definition split (sep : option N -> jsstring -> option nat) (s : jsstring)
    : list jsstring :=
  split_go sep None O [] s.

Definition some_pos (n : nat) : option nat :=
  match n with O => None | _ => Some n end.

(** [/\s+/] *)
Definition sep_spaces (_ : option N) (s : jsstring) : option nat :=
  some_pos (List.length (takeWhile isSpace s)).

(** [/(?<=[.!?])\s+|\n+/] *)
Definition isTerminator (c : N) : bool :=
  N.eqb c 46 || N.eqb c 33 || N.eqb c 63.

Definition sep_sentence (prev : option N) (s : jsstring) : option nat :=
  let spaces := List.length (takeWhile isSpace s) in
  let after_terminator :=
    match prev with Some c => isTerminator c | None => false end in
  if after_terminator && negb (Nat.eqb spaces 0) then Some spaces
  else some_pos (List.length (takeWhile isNewline s)).

(** [/\r?\n/] *)
Definition sep_line (_ : option N) (s : jsstring) : option nat :=
  match s with
  | 13%N :: 10%N :: _ => Some 2%nat
  | 10%N :: _ => Some 1%nat
  | _ => None
  end.

(** The index after the last newline of [s], if [s] has one. *)
Fixpoint lastNewline (s : jsstring) : option nat :=
  match s with
  | [] => None
  | c :: s' =>
      match lastNewline s' with
      | Some k => Some (S k)
      | None => if isNewline c then Some 1%nat else None
      end
  end.

(** [/\n\s*\n/]: a newline, then the white-space run after it, given back
    down to its last newline. *)
Definition sep_paragraph (_ : option N) (s : jsstring) : option nat :=
  match s with
  | 10%N :: s' =>
      match lastNewline (takeWhile isSpace s') with
      | Some k => Some (S k)
      | None => None
      end
  | _ => None
  end.

(** [xs.filter(Boolean)] on strings. *)
Definition filterBoolean (xs : list jsstring) : list jsstring :=
  filter nonEmpty xs.

(** ** Tokenizer and segmentation *)

Definition normalizeText (text : jsstring) : jsstring := toLowerCase text.

(** [.replace(/[^a-z0-9\s-]/g, " ")] *)
Definition keepTokenChar (c : N) : N :=
  if isLower c || isDigit c || isSpace c || N.eqb c chr_hyphen then c
  else chr_space.

Definition tokenizeWords (text : jsstring) : list jsstring :=
  filterBoolean (split sep_spaces (map keepTokenChar (normalizeText text))).

Definition sentences (text : jsstring) : list jsstring :=
  let s := filterBoolean (map trim (split sep_sentence text)) in
  if nonEmpty s then s else filterBoolean [trim text].

(** [text.split(/\n\s*\n/).filter(Boolean)] *)
Definition paragraphsOf (text : jsstring) : list jsstring :=
  filterBoolean (split sep_paragraph text).

(** ** Numbers *)

Local Open Scope float_scope.

(** The largest length a string or an array can have is below 2^53; [num]
    is the exact conversion there and saturates outside. *)
Definition max_safe : Z := 9007199254740991.

Definition Z2float (z : Z) : float :=
  if (z <? 0)%Z then - of_uint63 (Uint63.of_Z (- z))
  else of_uint63 (Uint63.of_Z z).

Definition num (z : Z) : float :=
  Z2float (Z.max (- max_safe) (Z.min max_safe z)).

(** [Math.max] and [Math.min]: NaN if an argument is NaN; [+0] is larger
    than [-0]. *)
Definition Math_max (a b : float) : float :=
  if is_nan a || is_nan b then nan
  else if a <? b then b
  else if b <? a then a
  else if get_sign a then b else a.

Definition Math_min (a b : float) : float :=
  if is_nan a || is_nan b then nan
  else if a <? b then a
  else if b <? a then b
  else if get_sign a then a else b.

(** The integer [floor (v / 2^k)], [ceil (v / 2^k)] and
    [floor (v / 2^k + 1/2)]. *)
Definition floor_shift (v k : Z) : Z := (v / 2 ^ k)%Z.
Definition ceil_shift (v k : Z) : Z := (- ((- v) / 2 ^ k))%Z.
Definition round_shift (v k : Z) : Z := ((2 * v + 2 ^ k) / 2 ^ (k + 1))%Z.

(** An integer result of a rounding function, with the sign of zero. *)
Definition integral (negative_zero : bool) (n : Z) : float :=
  if (n =? 0)%Z then (if negative_zero then neg_zero else zero) else Z2float n.

(** [Math.floor], [Math.ceil] and [Math.round] (ties go up).  A finite
    float [m * 2^e] with [0 <= e] is integral already. *)
Definition Math_floor (x : float) : float :=
  match Prim2SF x with
  | S754_finite s m e =>
      if (0 <=? e)%Z then x
      else integral false (floor_shift (cond_Zopp s (Zpos m)) (- e))
  | _ => x
  end.

Definition Math_ceil (x : float) : float :=
  match Prim2SF x with
  | S754_finite s m e =>
      if (0 <=? e)%Z then x
      else integral s (ceil_shift (cond_Zopp s (Zpos m)) (- e))
  | _ => x
  end.

Definition Math_round (x : float) : float :=
  match Prim2SF x with
  | S754_finite s m e =>
      if (0 <=? e)%Z then x
      else integral s (round_shift (cond_Zopp s (Zpos m)) (- e))
  | _ => x
  end.

(** The transcendental functions of the host. *)
Class MathRuntime := {
  Math_exp : float -> float;
  Math_log10 : float -> float;
  Math_pow : float -> float -> float
}.

Definition clamp01 (x : float) : float := Math_max 0 (Math_min 1 x).
Definition clamp0to100 (x : float) : float := Math_max 0 (Math_min 100 x).

(** [a.reduce((x, y) => x + y, 0)] *)
Definition sum (a : list float) : float := fold_left PrimFloat.add a 0.

Definition avg (a : list float) : float :=
  if nonEmpty a then sum a / num (size a) else 0.

(** ** Objects used as counters

    [freq] and [bigrams] are plain objects ([{}]), so a read of a key they
    do not own falls through to [Object.prototype].  A value is a number or
    something else (the inherited function, or the string that adding 1 to
    it gives). *)

Inductive jsval := VNum (n : Z) | VOther.

Definition object := list (jsstring * jsval).

(** The property names of [Object.prototype].  Keys here are word tokens
    (over [a-z0-9-]) or two of them around a space. *)
Definition objectPrototypeKeys : list jsstring :=
  map lit ["constructor"; "hasOwnProperty"; "isPrototypeOf";
           "propertyIsEnumerable"; "toLocaleString"; "toString"; "valueOf";
           "__defineGetter__"; "__defineSetter__"; "__lookupGetter__";
           "__lookupSetter__"; "__proto__"]%string.

Fixpoint getOwn (o : object) (k : jsstring) : option jsval :=
  match o with
  | [] => None
  | (k', v) :: o' => if str_eqb k k' then Some v else getOwn o' k
  end.

Definition get (o : object) (k : jsstring) : option jsval :=
  match getOwn o k with
  | Some v => Some v
  | None => if has objectPrototypeKeys k then Some VOther else None
  end.

Fixpoint set (o : object) (k : jsstring) (v : jsval) : object :=
  match o with
  | [] => [(k, v)]
  | (k', v') :: o' => if str_eqb k k' then (k', v) :: o' else (k', v') :: set o' k v
  end.

(** [o[k] = (o[k] ?? 0) + 1] *)
Definition bump (o : object) (k : jsstring) : object :=
  set o k (match get o k with
           | Some (VNum n) => VNum (n + 1)
           | Some VOther => VOther
           | None => VNum 1
           end).

(** [Object.values(o)]; the engine only counts and adds these integers, so
    their order is immaterial. *)
Definition values (o : object) : list jsval := map snd o.

Definition isOne (v : jsval) : bool :=           (* c === 1 *)
  match v with VNum n => (n =? 1)%Z | VOther => false end.

Definition isMany (v : jsval) : bool :=          (* c > 1 *)
  match v with VNum n => (1 <? n)%Z | VOther => false end.

Definition addExtra (a : Z) (b : jsval) : Z :=   (* a + (b - 1) *)
  match b with VNum n => a + (n - 1) | VOther => a end.

(** ** Regular-expression matching at a position and along a subject *)

(** [re.test(s)] for an expression whose match at a position is
    [m atStart rest]. *)
Fixpoint test_go (m : bool -> jsstring -> option nat) (atStart : bool)
    (s : jsstring) : bool :=
  match m atStart s with
  | Some _ => true
  | None => match s with [] => false | _ :: s' => test_go m false s' end
  end.

Definition test (m : bool -> jsstring -> option nat) (s : jsstring) : bool :=
  test_go m true s.

(** [(s.match(re) || []).length] for a global expression whose matches are
    never empty: the matches are taken left to right without overlap. *)
Fixpoint matchCount_go (m : bool -> jsstring -> option nat) (atStart : bool)
    (skip : nat) (s : jsstring) : Z :=
  match s with
  | [] => 0
  | _ :: s' =>
      match skip with
      | S k => matchCount_go m false k s'
      | O =>
          match m atStart s with
          | Some (S k) => 1 + matchCount_go m false k s'
          | _ => matchCount_go m false O s'
          end
      end
  end.

Definition matchCount (m : bool -> jsstring -> option nat) (s : jsstring) : Z :=
  matchCount_go m true O s.

(** [\s+\S] *)
Definition spacesThenNonSpace (s : jsstring) : option nat :=
  let n := List.length (takeWhile isSpace s) in
  match n, dropWhile isSpace s with
  | S _, _ :: _ => Some (S n)
  | _, _ => None
  end.

(** [\s+] *)
Definition spaces1 (s : jsstring) : option nat :=
  some_pos (List.length (takeWhile isSpace s)).

Definition isBulletChar (c : N) : bool :=        (* [-*•] *)
  N.eqb c chr_hyphen || N.eqb c chr_star || N.eqb c chr_bullet.

(** [\d+\.] *)
Definition numberMarker (s : jsstring) : option nat :=
  let d := List.length (takeWhile isDigit s) in
  match d, dropWhile isDigit s with
  | S _, c :: _ => if N.eqb c chr_dot then Some (S d) else None
  | _, _ => None
  end.

(** [[-*•]] *)
Definition bulletMarker (s : jsstring) : option nat :=
  match s with
  | c :: _ => if isBulletChar c then Some 1%nat else None
  | [] => None
  end.

(** [#{1,6}] followed by something that is not [#] *)
Definition headingMarker (s : jsstring) : option nat :=
  let k := List.length (takeWhile (N.eqb chr_hash) s) in
  if (Nat.leb 1 k && Nat.leb k 6)%bool then Some k else None.

(** [a b]: one after the other. *)
Definition andThen (a b : jsstring -> option nat) (s : jsstring) : option nat :=
  match a s with
  | Some i => match b (skipn i s) with Some j => Some (i + j)%nat | None => None end
  | None => None
  end.

(** [a|b] *)
Definition orElse (a b : jsstring -> option nat) (s : jsstring) : option nat :=
  match a s with Some i => Some i | None => b s end.

(** [(^|\n) body] *)
Definition atLineStart (body : jsstring -> option nat) (atStart : bool)
    (s : jsstring) : option nat :=
  let after_newline :=
    match s with
    | c :: s' => if isNewline c then option_map S (body s') else None
    | [] => None
    end in
  if atStart then orElse body (fun _ => after_newline) s else after_newline.

(** [/^([-*•]|\d+\.)\s+/], and with it the two tests
    [/^[-*•]\s+/] and [/^\d+\.\s+/] *)
Definition re_itemPrefix : jsstring -> option nat :=
  andThen (orElse bulletMarker numberMarker) spaces1.

(** [/(^|\n)#{1,6}\s+\S|(^|\n)\d+\.\s+\S|(^|\n)[-•*]\s+\S/] *)
Definition re_heading (atStart : bool) (s : jsstring) : option nat :=
  match atLineStart (andThen headingMarker spacesThenNonSpace) atStart s with
  | Some k => Some k
  | None =>
      match atLineStart (andThen numberMarker spacesThenNonSpace) atStart s with
      | Some k => Some k
      | None => atLineStart (andThen bulletMarker spacesThenNonSpace) atStart s
      end
  end.

(** [/(^|\n)([-•*]|\d+\.)\s+\S/g] *)
Definition re_listLine : bool -> jsstring -> option nat :=
  atLineStart (andThen (orElse bulletMarker numberMarker) spacesThenNonSpace).

(** A pattern word at the head of [s], letters compared without case: the
    rest of [s]. *)
Fixpoint stripPrefix_ci (p s : jsstring) : option jsstring :=
  match p, s with
  | [], _ => Some s
  | a :: p', c :: s' => if ieq a c then stripPrefix_ci p' s' else None
  | _ :: _, [] => None
  end.

Definition imperativeVerbs : list jsstring :=
  map lit ["write"; "create"; "explain"; "compare"; "list"; "design";
           "implement"; "show"; "build"; "summarize"; "analyze"; "evaluate";
           "provide"; "outline"; "generate"]%string.

(** [\b] after a word character *)
Definition boundaryAfterWord (rest : jsstring) : bool :=
  match rest with [] => true | c :: _ => negb (isWordChar c) end.

(** [/^(write|create|...|generate)\b/i] *)
Definition re_imperative (line : jsstring) : bool :=
  existsb (fun v => match stripPrefix_ci v line with
                    | Some rest => boundaryAfterWord rest
                    | None => false
                    end) imperativeVerbs.

(** ** The module: constants and result types *)

Module Weights.
Record t := {
  coherence : float;
  length : float;
  vocab : float;
  repetition : float;
  readability : float
}.
End Weights.

(** [Partial<Weights>]: each key is present with a number, or absent. *)
Module PartialWeights.
Record t := {
  coherence : option float;
  length : option float;
  vocab : option float;
  repetition : option float;
  readability : option float
}.

Definition empty : t := Build_t None None None None None.
End PartialWeights.

(** The two module-level bindings.  They are [const], but the objects they
    name are mutable: a call that wrote to one would be seen by the next. *)
Record ModuleState := {
  DEFAULT_WEIGHTS : Weights.t;
  STOPWORDS : list jsstring
}.

Definition initialState : ModuleState := {|
  DEFAULT_WEIGHTS := {|
    Weights.coherence := 0.3;
    Weights.length := 0.2;
    Weights.vocab := 0.25;
    Weights.repetition := 0.1;
    Weights.readability := 0.15 |};
  STOPWORDS := map lit
    ["the"; "a"; "an"; "and"; "or"; "of"; "to"; "in"; "for"; "on"; "with";
     "is"; "are"; "be"; "as"; "by"; "that"; "this"; "it"; "you"; "your";
     "we"; "our"; "at"; "from"; "how"; "what"; "why"; "when"; "where";
     "which"; "but"; "if"; "then"; "so"; "than"; "can"; "could"; "should";
     "would"; "about"; "into"; "over"; "under"; "more"; "most"; "some";
     "any"; "such"; "no"; "not"; "only"; "own"; "same"; "too"; "very"]%string
|}.

(** The value of [details.requirements]: a string in [metrics.ts], an array
    of strings in the duplicate. *)
Inductive Requirements :=
  | ReqString (s : jsstring)
  | ReqArray (a : list jsstring).

Module Details.
Record t := {
  sentenceCount : Z;
  wordCount : Z;
  requirements : Requirements;
  fkGrade : float
}.
End Details.

Module ResponseMetrics.
Record t := {
  coherenceScore : float;
  lengthScore : float;
  vocabularyRichnessScore : float;
  repetitionPenalty : float;
  readabilityScore : float;
  overallScore : float;
  details : Details.t
}.
End ResponseMetrics.

(** [{ ...defaults, ...overrides }] *)
Definition spread (defaults : Weights.t) (overrides : PartialWeights.t)
    : Weights.t := {|
  Weights.coherence :=
    match PartialWeights.coherence overrides with
    | Some v => v | None => Weights.coherence defaults end;
  Weights.length :=
    match PartialWeights.length overrides with
    | Some v => v | None => Weights.length defaults end;
  Weights.vocab :=
    match PartialWeights.vocab overrides with
    | Some v => v | None => Weights.vocab defaults end;
  Weights.repetition :=
    match PartialWeights.repetition overrides with
    | Some v => v | None => Weights.repetition defaults end;
  Weights.readability :=
    match PartialWeights.readability overrides with
    | Some v => v | None => Weights.readability defaults end
|}.

(** [a.join(sep)] *)
Fixpoint join (sep : jsstring) (a : list jsstring) : jsstring :=
  match a with
  | [] => []
  | [x] => x
  | x :: a' => x ++ sep ++ join sep a'
  end.

(** ** The helpers of the engine *)

Definition jaccard (a b : list jsstring) : float :=
  let inter := size (newSet (filter (has b) a)) in
  let uni := or1 (size (newSet (a ++ b))) in
  num inter / num uni.

Definition contentWords (g : ModuleState) (words : list jsstring)
    : list jsstring :=
  filter (fun w => negb (has (STOPWORDS g) w) && (2 <? size w)%Z) words.

Definition extractRequirements (prompt : jsstring) : list jsstring :=
  let lines := filterBoolean (map trim (split sep_line prompt)) in
  let reqs :=
    flat_map (fun line =>
      match re_itemPrefix line with
      | Some k => [skipn k line]
      | None => if re_imperative line then [line] else []
      end) lines in
  if nonEmpty reqs then reqs else [prompt].

Definition isVowel (c : N) : bool :=             (* [aeiouy] *)
  existsb (N.eqb c) [97; 101; 105; 111; 117; 121]%N.

(** [.replace(/e\b/g, "")] on a string of word characters *)
Fixpoint dropBoundaryE (w : jsstring) : jsstring :=
  match w with
  | [] => []
  | c :: w' =>
      if N.eqb c chr_e && boundaryAfterWord w' then dropBoundaryE w'
      else c :: dropBoundaryE w'
  end.

(** The number of matches of [/[aeiouy]+/g] *)
Fixpoint vowelGroups (inGroup : bool) (w : jsstring) : Z :=
  match w with
  | [] => 0
  | c :: w' =>
      if isVowel c then (if inGroup then 0 else 1) + vowelGroups true w'
      else vowelGroups false w'
  end.

Definition syllableCount (word : jsstring) : Z :=
  let w := filter isLower (toLowerCase word) in
  if nonEmpty w then Z.max 1 (vowelGroups false (dropBoundaryE w)) else 0.

Definition syllablesOf (wordsArr : list jsstring) : Z :=
  fold_left (fun acc w => acc + syllableCount w)%Z wordsArr 0%Z.

Definition fkGrade (text : jsstring) : float :=
  let sentsArr := sentences text in
  let wordsArr := tokenizeWords text in
  let words := or1 (size wordsArr) in
  let sents := or1 (size sentsArr) in
  let syllables := syllablesOf wordsArr in
  0.39 * (num words / num sents) + 11.8 * (num syllables / num words) - 15.59.

Definition readabilityScore (text : jsstring) : float * float :=
  let grade := fkGrade text in
  let target := 10 in
  let span := 6 in
  let raw := 1 - Math_min 1 (abs (grade - target) / span) in
  (clamp01 raw, grade).

(** ** The five scorers *)

(** *** Coherence *)

Definition contentSet (g : ModuleState) (sentence : jsstring) : list jsstring :=
  newSet (contentWords g (tokenizeWords sentence)).

(** The loop over adjacent sentences: [sims]. *)
Fixpoint adjacentSims (g : ModuleState) (sents : list jsstring) : list float :=
  match sents with
  | a :: (b :: _) as rest =>
      jaccard (contentSet g a) (contentSet g b) :: adjacentSims g rest
  | _ => []
  end.

Definition varianceOf (sims : list float) (mean : float) : float :=
  fold_left (fun acc v => acc + (v - mean) * (v - mean)) sims 0
  / num (size sims).

Definition transLex : list jsstring :=
  map lit ["however"; "therefore"; "thus"; "consequently"; "furthermore";
           "moreover"; "meanwhile"; "nevertheless"; "alternatively";
           "additionally"; "similarly"; "conversely"; "instead";
           "accordingly"; "finally"; "first"; "second"; "third"; "overall";
           "in"; "conclusion"; "next"]%string.

(** [w.some((t) => transLex.has(t))] for the tokens [w] of a sentence *)
Definition hasTransition (s : jsstring) : bool :=
  existsb (has transLex) (tokenizeWords s).

Definition transCountOf (sents : list jsstring) : Z :=
  fold_left (fun acc s => acc + (if hasTransition s then 1 else 0))%Z sents 0%Z.

Definition transScoreOf (sents : list jsstring) : float :=
  Math_min 1 (num (transCountOf sents) / num (Z.max 1 (size sents - 1))).

Definition hasHeadingsOf (text : jsstring) : bool := test re_heading text.

Definition listLinesOf (text : jsstring) : Z := matchCount re_listLine text.

Definition paraPenaltyOf (paragraphs : list jsstring) : float :=
  if existsb (fun p => (600 <? size p)%Z && negb (existsb isNewline p))
       paragraphs
  then 0.1 else 0.

Definition structureBonusOf (text : jsstring) (sents : list jsstring) : float :=
  let paragraphs := paragraphsOf text in
  let avgSentPerPara := num (size sents) / num (Z.max 1 (size paragraphs)) in
  (if hasHeadingsOf text then 0.12 else 0)
  + Math_min 0.12 (num (listLinesOf text) * 0.02)
  + clamp01 (1 - abs (avgSentPerPara - 4) / 6) * 0.1.

Definition calculateCoherenceScore (g : ModuleState) (text : jsstring) : float :=
  let sents := sentences text in
  if (size sents <=? 1)%Z then
    let tokens := size (tokenizeWords text) in
    clamp01 (if (40 <? tokens)%Z then 0.6 else 0.5)
  else
    let sims := adjacentSims g sents in
    let mean := avg sims in
    let variance := varianceOf sims mean in
    let stability := 1 - Math_min 1 (variance * 3) in
    let paraPenalty := paraPenaltyOf (paragraphsOf text) in
    let transScore := transScoreOf sents in
    let structureBonus := structureBonusOf text sents in
    let cohesion :=
      clamp01 (0.6 * mean + 0.2 * stability + 0.1 * transScore + structureBonus) in
    clamp01 (cohesion - paraPenalty).

(** *** Length fit *)

Definition reqCountOf (prompt : jsstring) : Z :=
  Z.min 10 (or1 (size (extractRequirements prompt))).

Definition lengthTarget (prompt : jsstring) : Z :=
  let base := 100%Z in
  let perReq := 60%Z in
  Z.max 60 (Z.min 1200 (base + perReq * reqCountOf prompt)).

(** The body of [calculateLengthScore] below the computation of [target]. *)
Definition lengthFit `{MathRuntime} (text : jsstring) (responseWords target : Z)
    : float :=
  let ratio := num responseWords / num target in
  let sigma := Math_min 0.9 (0.28 + 0.0004 * num target) in
  let score := Math_exp (- Math_pow (ratio - 1) 2 / (2 * sigma * sigma)) in
  let score :=
    if (responseWords <? 40)%Z then score * (num responseWords / 40) else score in
  let hardMin := Math_floor (num target * 0.5) in
  let hardMax := Math_ceil (num target * 1.8) in
  let penalty := 0 in
  let penalty :=
    if num responseWords <? hardMin
    then (hardMin - num responseWords) / hardMin else penalty in
  let penalty :=
    if hardMax <? num responseWords
    then (num responseWords - hardMax) / hardMax else penalty in
  let sentCount := size (sentences text) in
  let paraCount := or1 (size (paragraphsOf text)) in
  let structureBonus := clamp01 (num sentCount / num paraCount / 6) in
  clamp01 (score * (1 - 0.6 * penalty) * (0.9 + 0.1 * structureBonus)).

Definition calculateLengthScore `{MathRuntime} (text prompt : jsstring) : float :=
  let responseWords := size (tokenizeWords text) in
  if (responseWords =? 0)%Z then 0
  else lengthFit text responseWords (lengthTarget prompt).

(** *** Vocabulary richness *)

Definition calculateVocabularyRichness `{MathRuntime} (g : ModuleState)
    (text : jsstring) : float :=
  let tokens := tokenizeWords text in
  let words := contentWords g tokens in
  let N := size words in
  if (N =? 0)%Z then 0
  else
    let unique := size (newSet words) in
    let ttr := num unique / num N in
    let freq := fold_left bump words [] in
    let hapax :=
      num (size (filter isOne (values freq))) / num (Z.max 1 unique) in
    let lengthDamp := Math_min 1 (Math_log10 (num (N + 10)) / 2) in
    let base := clamp01 (0.7 * ttr + 0.3 * hapax) in
    let score := base * lengthDamp + 0.2 * (1 - lengthDamp) in
    clamp01 score.

(** *** Repetition penalty *)

(** The keys [w[i] + " " + w[i + 1]], for [i] from 0 to [w.length - 2]. *)
Fixpoint bigramsOf (w : list jsstring) : list jsstring :=
  match w with
  | a :: (b :: _) as rest => (a ++ [chr_space] ++ b) :: bigramsOf rest
  | _ => []
  end.

Definition repeatsOf (w : list jsstring) : Z :=
  let bigrams := fold_left bump (bigramsOf w) [] in
  fold_left addExtra (filter isMany (values bigrams)) 0%Z.

Definition repetitionPenaltyScore (text : jsstring) : float :=
  let w := tokenizeWords text in
  if (size w <? 6)%Z then 1
  else
    let repeats := repeatsOf w in
    let penalty := Math_min 1 (num repeats / Math_max 1 (num (size w) / 12)) in
    1 - penalty.

(** ** The aggregator *)

(** A call of an exported function: it receives the state of the module
    and returns its result with the state it leaves. *)
Definition Call (A : Type) : Type := ModuleState -> A * ModuleState.

Definition weightedSum (w : Weights.t)
    (coherence length vocab repetition readability : float) : float :=
  coherence * Weights.coherence w
  + length * Weights.length w
  + vocab * Weights.vocab w
  + repetition * Weights.repetition w
  + readability * Weights.readability w.

(** [calculateMetrics] of [src/app/lib/metrics.ts] *)
Definition calculateMetrics `{MathRuntime} (response prompt : jsstring)
    (weights : PartialWeights.t) : Call ResponseMetrics.t := fun g =>
  let w := spread (DEFAULT_WEIGHTS g) weights in
  let coherence := calculateCoherenceScore g response in
  let length := calculateLengthScore response prompt in
  let vocab := calculateVocabularyRichness g response in
  let repetition := repetitionPenaltyScore response in
  let reqs := extractRequirements prompt in
  let readability := readabilityScore response in
  let weighted :=
    weightedSum w coherence length vocab repetition (fst readability) in
  let overall := clamp0to100 (Math_round (weighted * 100)) in
  ({| ResponseMetrics.coherenceScore := clamp01 coherence;
      ResponseMetrics.lengthScore := clamp01 length;
      ResponseMetrics.vocabularyRichnessScore := clamp01 vocab;
      ResponseMetrics.repetitionPenalty := clamp01 repetition;
      ResponseMetrics.readabilityScore := clamp01 (fst readability);
      ResponseMetrics.overallScore := overall;
      ResponseMetrics.details := {|
        Details.sentenceCount := size (sentences response);
        Details.wordCount := size (tokenizeWords response);
        Details.requirements := ReqString (join (lit ", ") reqs);
        Details.fkGrade := snd readability |} |}, g).

(** The engine as its callers see it: [calculateMetrics] in the module as
    loaded. *)
Definition score `{MathRuntime} (response prompt : jsstring)
    (weights : PartialWeights.t) : ResponseMetrics.t :=
  fst (calculateMetrics response prompt weights initialState).

(** The duplicate of the module.  Its helpers, from [normalizeText] to
    [repetitionPenaltyScore], are the text of [metrics.ts] line for line and
    are the definitions above; its [calculateMetrics] is its own. *)
Module Duplicate.

Definition calculateMetrics `{MathRuntime} (response prompt : jsstring)
    (weights : PartialWeights.t) : Call ResponseMetrics.t := fun g =>
  let w := spread (DEFAULT_WEIGHTS g) weights in
  let coherence := calculateCoherenceScore g response in
  let length := calculateLengthScore response prompt in
  let vocab := calculateVocabularyRichness g response in
  let repetition := repetitionPenaltyScore response in
  let reqs := extractRequirements prompt in
  let readability := readabilityScore response in
  let weighted :=
    weightedSum w coherence length vocab repetition (fst readability) in
  let overall := clamp0to100 (Math_round (weighted * 100)) in
  ({| ResponseMetrics.coherenceScore := clamp01 coherence;
      ResponseMetrics.lengthScore := clamp01 length;
      ResponseMetrics.vocabularyRichnessScore := clamp01 vocab;
      ResponseMetrics.repetitionPenalty := clamp01 repetition;
      ResponseMetrics.readabilityScore := clamp01 (fst readability);
      ResponseMetrics.overallScore := overall;
      ResponseMetrics.details := {|
        Details.sentenceCount := size (sentences response);
        Details.wordCount := size (tokenizeWords response);
        Details.requirements := ReqArray reqs;
        Details.fkGrade := snd readability |} |}, g).

Definition score `{MathRuntime} (response prompt : jsstring)
    (weights : PartialWeights.t) : ResponseMetrics.t :=
  fst (calculateMetrics response prompt weights initialState).

End Duplicate.

(** ** The objects of a run

    The definitions above take the objects of the engine by value.  Here
    the objects that outlive a call or are written to after they are made
    live in a heap, and the functions that make, read or write them are
    given again over it, statement by statement: the two objects the
    module binds, the [weights] of the caller, the sets, the counters
    [freq] and [bigrams], the arrays [sims] and [reqs], and the objects
    returned.  Strings and numbers are values; so are the arrays that
    [split], [map], [filter] and [Object.values] return, which nothing
    writes to. *)
Module Heap.

Definition ref : Type := nat.

Inductive Obj :=
  | OWeights (w : Weights.t)                 (* [Weights] *)
  | OPartial (w : PartialWeights.t)          (* [Partial<Weights>] *)
  | OSet (elems : list jsstring)             (* [Set<string>] *)
  | OCounter (o : object)                    (* [Record<string, number>] *)
  | ONumbers (a : list float)                (* [number[]] *)
  | OStrings (a : list jsstring)             (* [string[]] *)
  | OReadability (score grade : float)       (* [{ score, grade }] *)
  | ODetails (d : Details.t)
  | OMetrics (coherenceScore lengthScore vocabularyRichnessScore
              repetitionPenalty readabilityScore overallScore : float)
             (details : ref).

Definition heap : Type := list Obj.

(** A computation on the heap.  It is [None] when it reads a reference
    that names no object or an object that is not of the type the source
    declares for it. *)
Definition M (A : Type) : Type := heap -> option (A * heap).

Definition ret {A} (a : A) : M A := fun h => Some (a, h).

Definition bind {A B} (m : M A) (f : A -> M B) : M B := fun h =>
  match m h with
  | Some (a, h') => f a h'
  | None => None
  end.

Definition throw {A} : M A := fun _ => None.

Local Notation "x <- m ;; k" := (bind m (fun x => k))
  (at level 61, m at next level, right associativity).
Local Notation "m ;; k" := (bind m (fun _ => k))
  (at level 61, right associativity).

(** A new object: its reference is the next free one. *)
Definition alloc (o : Obj) : M ref := fun h =>
  Some (List.length h, h ++ [o]).

Definition read (r : ref) : M Obj := fun h =>
  match nth_error h r with
  | Some o => Some (o, h)
  | None => None
  end.

Fixpoint update (r : ref) (o : Obj) (h : heap) : heap :=
  match h, r with
  | [], _ => []
  | _ :: h', O => o :: h'
  | x :: h', S r' => x :: update r' o h'
  end.

Definition write (r : ref) (o : Obj) : M unit := fun h =>
  match nth_error h r with
  | Some _ => Some (tt, update r o h)
  | None => None
  end.

(** *** Sets, arrays and counters *)

(** [new Set(xs)] *)
Definition newSetOf (xs : list jsstring) : M ref := alloc (OSet (newSet xs)).

(** [s.has(x)] *)
Definition setHas (s : ref) (x : jsstring) : M bool :=
  o <- read s ;;
  match o with OSet elems => ret (has elems x) | _ => throw end.

(** [[...s]] *)
Definition setElements (s : ref) : M (list jsstring) :=
  o <- read s ;;
  match o with OSet elems => ret elems | _ => throw end.

(** [s.size] *)
Definition setSize (s : ref) : M Z :=
  o <- read s ;;
  match o with OSet elems => ret (size elems) | _ => throw end.

(** The elements of a [number[]], as [reduce] and [length] see them. *)
Definition numbersOf (a : ref) : M (list float) :=
  o <- read a ;;
  match o with ONumbers l => ret l | _ => throw end.

(** [a.push(v)] *)
Definition pushNumber (a : ref) (v : float) : M unit :=
  o <- read a ;;
  match o with ONumbers l => write a (ONumbers (l ++ [v])) | _ => throw end.

Definition stringsOf (a : ref) : M (list jsstring) :=
  o <- read a ;;
  match o with OStrings l => ret l | _ => throw end.

Definition pushString (a : ref) (v : jsstring) : M unit :=
  o <- read a ;;
  match o with OStrings l => write a (OStrings (l ++ [v])) | _ => throw end.

(** [c[k] = (c[k] ?? 0) + 1] *)
Definition bumpAt (c : ref) (k : jsstring) : M unit :=
  o <- read c ;;
  match o with OCounter e => write c (OCounter (bump e k)) | _ => throw end.

(** [Object.values(c)] *)
Definition valuesOf (c : ref) : M (list jsval) :=
  o <- read c ;;
  match o with OCounter e => ret (values e) | _ => throw end.

Definition readWeights (w : ref) : M Weights.t :=
  o <- read w ;;
  match o with OWeights v => ret v | _ => throw end.

Definition readPartial (w : ref) : M PartialWeights.t :=
  o <- read w ;;
  match o with OPartial v => ret v | _ => throw end.

Definition readReadability (r : ref) : M (float * float) :=
  o <- read r ;;
  match o with OReadability score grade => ret (score, grade) | _ => throw end.

(** *** Callbacks that read the heap *)

(** [l.filter(p)] *)
Fixpoint filterM {A} (p : A -> M bool) (l : list A) : M (list A) :=
  match l with
  | [] => ret []
  | x :: l' =>
      keep <- p x ;;
      rest <- filterM p l' ;;
      ret (if keep then x :: rest else rest)
  end.

(** [l.some(p)] *)
Fixpoint someM {A} (p : A -> M bool) (l : list A) : M bool :=
  match l with
  | [] => ret false
  | x :: l' =>
      found <- p x ;;
      if found then ret true else someM p l'
  end.

(** [l.reduce(f, acc)] *)
Fixpoint reduceM {A B} (f : B -> A -> M B) (l : list A) (acc : B) : M B :=
  match l with
  | [] => ret acc
  | x :: l' => acc' <- f acc x ;; reduceM f l' acc'
  end.

(** [for (const x of l) f(x)] *)
Fixpoint forOf {A} (f : A -> M unit) (l : list A) : M unit :=
  match l with
  | [] => ret tt
  | x :: l' => f x ;; forOf f l'
  end.

(** *** The module *)

(** The objects the module makes when it is loaded, and its two bindings
    to them. *)
Definition defaultWeights : Weights.t := DEFAULT_WEIGHTS initialState.
Definition stopwordList : list jsstring := STOPWORDS initialState.

(** The values of the two objects in a state of the module. *)
Definition weightsValue (g : ModuleState) : Weights.t := DEFAULT_WEIGHTS g.
Definition stopwordsValue (g : ModuleState) : list jsstring := STOPWORDS g.

Record Bindings := {
  DEFAULT_WEIGHTS : ref;
  STOPWORDS : ref
}.

Definition load : M Bindings :=
  d <- alloc (OWeights defaultWeights) ;;
  s <- newSetOf stopwordList ;;
  ret {| DEFAULT_WEIGHTS := d; STOPWORDS := s |}.

Section Calls.

Context `{MathRuntime} (bindings : Bindings).

Definition jaccard (a b : ref) : M float :=
  xs <- setElements a ;;
  common <- filterM (fun x => setHas b x) xs ;;
  i <- newSetOf common ;;
  inter <- setSize i ;;
  xs <- setElements a ;;
  ys <- setElements b ;;
  u <- newSetOf (xs ++ ys) ;;
  n <- setSize u ;;
  let uni := or1 n in
  ret (num inter / num uni).

Definition contentWords (words : list jsstring) : M (list jsstring) :=
  filterM (fun w =>
    stop <- setHas (STOPWORDS bindings) w ;;
    ret (negb stop && (2 <? size w)%Z)) words.

Definition extractRequirements (prompt : jsstring) : M ref :=
  let lines := filterBoolean (map trim (split sep_line prompt)) in
  reqs <- alloc (OStrings []) ;;
  forOf (fun line =>
    match re_itemPrefix line with
    | Some k => pushString reqs (skipn k line)
    | None => if re_imperative line then pushString reqs line else ret tt
    end) lines ;;
  items <- stringsOf reqs ;;
  if nonEmpty items then ret reqs else alloc (OStrings [prompt]).

Definition readabilityScore (text : jsstring) : M ref :=
  let grade := fkGrade text in
  let target := 10 in
  let span := 6 in
  let raw := 1 - Math_min 1 (abs (grade - target) / span) in
  alloc (OReadability (clamp01 raw) grade).

(** The loop of [calculateCoherenceScore] over adjacent sentences. *)
Fixpoint adjacentSims (sims : ref) (sents : list jsstring) : M unit :=
  match sents with
  | s :: (t :: _) as rest =>
      wa <- contentWords (tokenizeWords s) ;;
      a <- newSetOf wa ;;
      wb <- contentWords (tokenizeWords t) ;;
      b <- newSetOf wb ;;
      j <- jaccard a b ;;
      pushNumber sims j ;;
      adjacentSims sims rest
  | _ => ret tt
  end.

Definition transCountOf (transLex : ref) (sents : list jsstring) : M Z :=
  reduceM (fun acc s =>
    let w := tokenizeWords s in
    found <- someM (fun t => setHas transLex t) w ;;
    ret (acc + (if found then 1 else 0))%Z) sents 0%Z.

Definition calculateCoherenceScore (text : jsstring) : M float :=
  let sents := sentences text in
  if (size sents <=? 1)%Z then
    let tokens := size (tokenizeWords text) in
    ret (clamp01 (if (40 <? tokens)%Z then 0.6 else 0.5))
  else
    sims <- alloc (ONumbers []) ;;
    adjacentSims sims sents ;;
    elems <- numbersOf sims ;;
    let mean := avg elems in
    let variance := varianceOf elems mean in
    let stability := 1 - Math_min 1 (variance * 3) in
    let paraPenalty := paraPenaltyOf (paragraphsOf text) in
    transLex <- newSetOf transLex ;;
    transCount <- transCountOf transLex sents ;;
    let transScore :=
      Math_min 1 (num transCount / num (Z.max 1 (size sents - 1))) in
    let structureBonus := structureBonusOf text sents in
    let cohesion :=
      clamp01 (0.6 * mean + 0.2 * stability + 0.1 * transScore + structureBonus) in
    ret (clamp01 (cohesion - paraPenalty)).

Definition calculateLengthScore (text prompt : jsstring) : M float :=
  let responseWords := size (tokenizeWords text) in
  if (responseWords =? 0)%Z then ret 0
  else
    reqs <- extractRequirements prompt ;;
    items <- stringsOf reqs ;;
    let reqCount := Z.min 10 (or1 (size items)) in
    let base := 100%Z in
    let perReq := 60%Z in
    let target := Z.max 60 (Z.min 1200 (base + perReq * reqCount)) in
    ret (lengthFit text responseWords target).

Definition calculateVocabularyRichness (text : jsstring) : M float :=
  let tokens := tokenizeWords text in
  words <- contentWords tokens ;;
  let N := size words in
  if (N =? 0)%Z then ret 0
  else
    u <- newSetOf words ;;
    unique <- setSize u ;;
    let ttr := num unique / num N in
    freq <- alloc (OCounter []) ;;
    forOf (fun w => bumpAt freq w) words ;;
    counts <- valuesOf freq ;;
    let hapax :=
      num (size (filter isOne counts)) / num (Z.max 1 unique) in
    let lengthDamp := Math_min 1 (Math_log10 (num (N + 10)) / 2) in
    let base := clamp01 (0.7 * ttr + 0.3 * hapax) in
    let score := base * lengthDamp + 0.2 * (1 - lengthDamp) in
    ret (clamp01 score).

Definition repetitionPenaltyScore (text : jsstring) : M float :=
  let w := tokenizeWords text in
  if (size w <? 6)%Z then ret 1
  else
    bigrams <- alloc (OCounter []) ;;
    forOf (fun bg => bumpAt bigrams bg) (bigramsOf w) ;;
    counts <- valuesOf bigrams ;;
    let repeats := fold_left addExtra (filter isMany counts) 0%Z in
    let penalty := Math_min 1 (num repeats / Math_max 1 (num (size w) / 12)) in
    ret (1 - penalty).

(** [calculateMetrics] of [src/app/lib/metrics.ts]; [weights] is the
    object passed, or [None] for a call without it. *)
Definition calculateMetrics (response prompt : jsstring)
    (weights : option ref) : M ref :=
  weights <- match weights with
             | Some r => ret r
             | None => alloc (OPartial PartialWeights.empty)
             end ;;
  defaults <- readWeights (DEFAULT_WEIGHTS bindings) ;;
  overrides <- readPartial weights ;;
  w <- alloc (OWeights (spread defaults overrides)) ;;
  coherence <- calculateCoherenceScore response ;;
  length <- calculateLengthScore response prompt ;;
  vocab <- calculateVocabularyRichness response ;;
  repetition <- repetitionPenaltyScore response ;;
  reqs <- extractRequirements prompt ;;
  readability <- readabilityScore response ;;
  w <- readWeights w ;;
  readability <- readReadability readability ;;
  let weighted :=
    weightedSum w coherence length vocab repetition (fst readability) in
  let overall := clamp0to100 (Math_round (weighted * 100)) in
  items <- stringsOf reqs ;;
  details <- alloc (ODetails {|
    Details.sentenceCount := size (sentences response);
    Details.wordCount := size (tokenizeWords response);
    Details.requirements := ReqString (join (lit ", ") items);
    Details.fkGrade := snd readability |}) ;;
  alloc (OMetrics (clamp01 coherence) (clamp01 length) (clamp01 vocab)
           (clamp01 repetition) (clamp01 (fst readability)) overall details).

End Calls.

(** The value of the object a call returned. *)
Definition metricsAt (h : heap) (r : ref) : option ResponseMetrics.t :=
  match nth_error h r with
  | Some (OMetrics coherence length vocab repetition readability overall
            details) =>
      match nth_error h details with
      | Some (ODetails d) =>
          Some {| ResponseMetrics.coherenceScore := coherence;
                  ResponseMetrics.lengthScore := length;
                  ResponseMetrics.vocabularyRichnessScore := vocab;
                  ResponseMetrics.repetitionPenalty := repetition;
                  ResponseMetrics.readabilityScore := readability;
                  ResponseMetrics.overallScore := overall;
                  ResponseMetrics.details := d |}
      | _ => None
      end
  | _ => None
  end.

(** The two bindings of the module name objects of these values. *)
Definition holds (b : Bindings) (h : heap) (g : ModuleState) : Prop :=
  nth_error h (DEFAULT_WEIGHTS b)
  = Some (OWeights (weightsValue g))
  /\ nth_error h (STOPWORDS b) = Some (OSet (stopwordsValue g)).

(** The [weights] of a call denote [overrides]: the object passed has this
    value, or none is passed and it is the empty one. *)
Definition argument (h : heap) (weights : option ref)
    (overrides : PartialWeights.t) : Prop :=
  match weights with
  | Some r => nth_error h r = Some (OPartial overrides)
  | None => overrides = PartialWeights.empty
  end.

(** What a program that has loaded the module does to the heap: it calls
    [calculateMetrics], makes an object of its own, or writes to an object
    other than the two of the module, which are not exported. *)
Inductive step `{MathRuntime} (b : Bindings) : heap -> heap -> Prop :=
  | step_call response prompt weights r h h' :
      calculateMetrics b response prompt weights h = Some (r, h') ->
      step b h h'
  | step_alloc o h :
      step b h (h ++ [o])
  | step_write r o h :
      r <> DEFAULT_WEIGHTS b -> r <> STOPWORDS b ->
      step b h (update r o h).

(** The heaps of such a program, from the loading of the module on. *)
Inductive reachable `{MathRuntime} (b : Bindings) : heap -> Prop :=
  | reachable_load h0 h :
      load h0 = Some (b, h) -> reachable b h
  | reachable_step h h' :
      reachable b h -> step b h h' -> reachable b h'.

End Heap.

(** ** A host to run the engine on

    Coarse stand-ins for the three transcendental functions.  They obey
    [MathRuntimeLaws] below and make the engine computable inside Rocq for
    the examples; the theorems are stated for every host. *)
Definition exp_stub (x : float) : float :=
  if x =? 0 then 1 else if x <? 0 then 0.5 else 2.

Definition log10_stub (x : float) : float :=
  if x <? 1 then -1 else if x <? 10 then 0.5 else if x <? 100 then 1.5 else 2.

Definition pow_stub (x y : float) : float :=
  if y =? 2 then x * x else nan.

Definition stubRuntime : MathRuntime := {|
  Math_exp := exp_stub;
  Math_log10 := log10_stub;
  Math_pow := pow_stub
|}.

(** ** Views of a float through its IEEE 754 specification

    [Prim2SF x] is the value of [x] as sign, mantissa and exponent; the
    predicates below read off it what the range proofs need. *)

Local Open Scope Z_scope.

(** The sign and the class of a rounded result. *)
Definition sf_signed (s : bool) (f : spec_float) : Prop :=
  match f with
  | S754_zero s' | S754_infinity s' | S754_finite s' _ _ => s' = s
  | S754_nan => False
  end.

(** The same, finite and below [2^B] in magnitude. *)
Definition sf_signed_small (s : bool) (B : Z) (f : spec_float) : Prop :=
  match f with
  | S754_zero s' => s' = s
  | S754_finite s' m e => s' = s /\ Zpos (digits2_pos m) + e <= B
  | _ => False
  end.

Definition sf_nonnan (f : spec_float) : Prop :=
  match f with S754_nan => False | _ => True end.

(** Finite and below [2^B] in magnitude. *)
Definition sf_small (B : Z) (f : spec_float) : Prop :=
  match f with
  | S754_zero _ => True
  | S754_finite _ m e => Zpos (digits2_pos m) + e <= B
  | _ => False
  end.

(** Finite, not zero and at least [2^(L-1)] in magnitude. *)
Definition sf_large (L : Z) (f : spec_float) : Prop :=
  match f with
  | S754_finite _ m e => L <= Zpos (digits2_pos m) + e
  | _ => False
  end.

(** Not NaN, and zero or positive. *)
Definition sf_nonneg (f : spec_float) : Prop :=
  match f with
  | S754_zero _ => True
  | S754_infinity s | S754_finite s _ _ => s = false
  | S754_nan => False
  end.

(** Not NaN, and zero or negative. *)
Definition sf_nonpos (f : spec_float) : Prop :=
  match f with
  | S754_zero _ => True
  | S754_infinity s | S754_finite s _ _ => s = true
  | S754_nan => False
  end.

(** Finite and positive. *)
Definition sf_positive (f : spec_float) : Prop :=
  match f with S754_finite false _ _ => True | _ => False end.

Definition sf_zero : spec_float := S754_zero false.
Definition sf_one : spec_float := S754_finite false 4503599627370496 (-52).
Definition sf_hundred : spec_float := S754_finite false 7036874417766400 (-46).

Definition fnonnan (x : float) : Prop := sf_nonnan (Prim2SF x).
Definition fsmall (B : Z) (x : float) : Prop := sf_small B (Prim2SF x).
Definition flarge (L : Z) (x : float) : Prop := sf_large L (Prim2SF x).
Definition fnonneg (x : float) : Prop := sf_nonneg (Prim2SF x).
Definition fnonpos (x : float) : Prop := sf_nonpos (Prim2SF x).
Definition fpositive (x : float) : Prop := sf_positive (Prim2SF x).

Local Close Scope Z_scope.

(** [x] is a number of the closed interval [[0, 1]]. *)
Definition in01 (x : float) : Prop := (0 <=? x) = true /\ (x <=? 1) = true.

(** [x] is an integer of the closed interval [[0, 100]]. *)
Definition int0to100 (x : float) : Prop :=
  exists z : Z, (0 <= z <= 100)%Z /\ x = Z2float z.

(** The bound of a literal, computed from its value. *)
Definition fbound (c : float) : Z :=
  match Prim2SF c with
  | S754_finite _ m e => Z.max 0 (Zpos (digits2_pos m) + e)
  | _ => 0%Z
  end.

Definition flow (c : float) : Z :=
  match Prim2SF c with
  | S754_finite _ m e => (Zpos (digits2_pos m) + e)%Z
  | _ => 0%Z
  end.

Definition is_finite (c : float) : bool :=
  match Prim2SF c with
  | S754_finite _ _ _ | S754_zero _ => true
  | _ => false
  end.

Definition is_positive (c : float) : bool :=
  match Prim2SF c with
  | S754_finite false _ _ => true
  | _ => false
  end.

(** The integers from 1 to 127, one by one. *)
Definition low_integers : list Z := map Z.of_nat (seq 1 127).

(** What the range of the scores relies on from the host: [Math.exp] maps
    the numbers up to 0 into [[0, 1]], [Math.log10] maps the numbers from 1
    on to numbers that are not negative, and a square is a number that is
    not negative. *)
Class MathRuntimeLaws (R : MathRuntime) : Prop := {
  exp_range : forall x, (x <=? 0) = true -> in01 (Math_exp x);
  log10_nonneg : forall x, (1 <=? x) = true -> (0 <=? Math_log10 x) = true;
  pow2_nonneg : forall x, is_nan x = false -> (0 <=? Math_pow x 2) = true
}.

(** The effective weights are finite and below [2^1000] in magnitude. *)
Definition weights_finite (w : Weights.t) : Prop :=
  fsmall 1000 (Weights.coherence w) /\ fsmall 1000 (Weights.length w)
  /\ fsmall 1000 (Weights.vocab w) /\ fsmall 1000 (Weights.repetition w)
  /\ fsmall 1000 (Weights.readability w).

(** ** Inputs of the examples *)

Definition nanLength : PartialWeights.t := {|
  PartialWeights.coherence := None;
  PartialWeights.length := Some nan;
  PartialWeights.vocab := None;
  PartialWeights.repetition := None;
  PartialWeights.readability := None
|}.

Definition allOnes : PartialWeights.t := {|
  PartialWeights.coherence := Some 1;
  PartialWeights.length := Some 1;
  PartialWeights.vocab := Some 1;
  PartialWeights.repetition := Some 1;
  PartialWeights.readability := Some 1
|}.

Definition onlyCoherence : PartialWeights.t := {|
  PartialWeights.coherence := Some 1;
  PartialWeights.length := Some 0;
  PartialWeights.vocab := Some 0;
  PartialWeights.repetition := Some 0;
  PartialWeights.readability := Some 0
|}.

(** A prompt of 20 bullet lines. *)
Definition twentyBullets : jsstring :=
  join [chr_newline] (repeat (lit "- item") 20).

Definition parisText : jsstring := lit "We met in Paris. It rained all day.".

Definition hello : jsstring := lit "Hello.".

(** The module as loaded: its bindings and the heap of its two objects. *)
Definition loadedBindings : Heap.Bindings :=
  {| Heap.DEFAULT_WEIGHTS := 0%nat; Heap.STOPWORDS := 1%nat |}.

Definition loadedHeap : Heap.heap :=
  [Heap.OWeights Heap.defaultWeights; Heap.OSet Heap.stopwordList].

(** Of sign [s], finite, and at most [2^B] in magnitude: below [2^B], or
    [2^B] itself. *)
Definition sf_le_pow2 (s : bool) (B : Z) (f : spec_float) : Prop :=
  match f with
  | S754_zero s' => s' = s
  | S754_finite s' m e =>
      s' = s
      /\ ((Zpos (digits2_pos m) + e <= B)%Z
          \/ (Zpos (digits2_pos m) + e = B + 1)%Z
             /\ Zpos m = (2 ^ (Zpos (digits2_pos m) - 1))%Z)
  | _ => False
  end.

(** ** Rounding and clamping as the specification words them

    [round(x)] is the integer nearest to [x], the larger one when [x] is
    halfway between two.  A finite float is [v * 2^e] for integers [v] and
    [e], so comparing it with [n - 1/2] and [n + 1/2] is a comparison of
    integers.  [clamp(n, lo, hi)] is [n] brought into [[lo, hi]]. *)
Definition roundsTo (x : float) (n : Z) : Prop :=
  match Prim2SF x with
  | S754_zero _ => n = 0%Z
  | S754_finite s m e =>
      let v := cond_Zopp s (Zpos m) in
      if (0 <=? e)%Z then n = (v * 2 ^ e)%Z
      else ((2 * n - 1) * 2 ^ (- e) <= 2 * v < (2 * n + 1) * 2 ^ (- e))%Z
  | _ => False
  end.

Definition clamp (n lo hi : Z) : Z := Z.max lo (Z.min hi n).

(** ** Notions the further properties are stated with *)

(** A code unit of a token: [[a-z0-9-]]. *)
Definition isTokenChar (c : N) : bool :=
  isLower c || isDigit c || N.eqb c chr_hyphen.

(** A token: not empty, and made of token code units. *)
Definition isToken (t : jsstring) : Prop :=
  t <> [] /\ Forall (fun c => isTokenChar c = true) t.

(** A string whose first and last code units are not white space. *)
Definition wellTrimmed (s : jsstring) : Prop :=
  (exists a m, s = a :: m /\ isSpace a = false)
  /\ (exists b m, rev s = b :: m /\ isSpace b = false).

(** The trimmed, non-empty lines of a prompt: [lines] of
    [extractRequirements]. *)
Definition promptLines (prompt : jsstring) : list jsstring :=
  filterBoolean (map trim (split sep_line prompt)).

(** A line that gives a requirement: a list item ([/^[-*•]\s+/] or
    [/^\d+\.\s+/]) or a line that starts with an imperative verb. *)
Definition isRequirementLine (line : jsstring) : bool :=
  match re_itemPrefix line with
  | Some _ => true
  | None => re_imperative line
  end.

(** The requirement such a line gives: the text after the marker of a list
    item and the white space behind it, or the whole line. *)
Definition requirementOf (line : jsstring) : jsstring :=
  match re_itemPrefix line with
  | Some k => skipn k line
  | None => line
  end.

(** The letters [syllableCount] counts in: [w] of [syllableCount]. *)
Definition lettersOf (word : jsstring) : jsstring :=
  filter isLower (toLowerCase word).

(** The sum of the counts an object holds. *)
Definition counted (o : object) : Z :=
  fold_right (fun kv acc => match snd kv with
                            | VNum n => (n + acc)%Z
                            | VOther => acc
                            end) 0%Z o.

(** Every value of the object is a count of at least 1. *)
Definition counts (o : object) : Prop :=
  Forall (fun kv => exists n, snd kv = VNum n /\ (1 <= n)%Z) o.

(** The value [bump] writes, from the value it read. *)
Definition bumped (v : option jsval) : jsval :=
  match v with
  | Some (VNum n) => VNum (n + 1)
  | Some VOther => VOther
  | None => VNum 1
  end.

(** * The client of the completion API: [src/app/lib/groq.ts]

    [generateResponse] posts the prompt, retries on some failures and
    scores the text it gets with [calculateMetrics].  What the function
    reads from outside is given to the model: the environment variables,
    and for each pass of its loop the readings of the clock, of
    [Math.random] and what [await axios.post(...)] did.  What it does to
    the outside is returned as a list of events.  Counts (the HTTP status,
    the number of attempts and [maxRetries]) are integers. *)

Module Groq.

Set Warnings "-register-all".

(** A value parsed from JSON: the [data] of a response. *)
Inductive Json :=
  | JNull
  | JBool (b : bool)
  | JNum (x : float)
  | JStr (s : jsstring)
  | JArr (items : list Json)
  | JObj (fields : list (jsstring * Json)).

(** An expression that can be [undefined]. *)
Definition value := option Json.

Fixpoint assoc (k : jsstring) (fields : list (jsstring * Json)) : value :=
  match fields with
  | [] => None
  | (k', v) :: rest => if str_eqb k k' then Some v else assoc k rest
  end.

(** [v.k] for one of the names read here, none of which a prototype of a
    JSON value has. *)
Definition prop (k : jsstring) (v : Json) : value :=
  match v with JObj fields => assoc k fields | _ => None end.

(** [v[0]] *)
Definition index0 (v : Json) : value :=
  match v with
  | JArr (x :: _) => Some x
  | JStr (c :: _) => Some (JStr [c])
  | JObj fields => assoc (lit "0") fields
  | _ => None
  end.

Definition nullish (v : value) : bool :=
  match v with None | Some JNull => true | Some _ => false end.

(** [v?.k] and [v?.[0]] *)
Definition optional (f : Json -> value) (v : value) : value :=
  match v with None | Some JNull => None | Some x => f x end.

(** [v ?? d] *)
Definition orDefault (v : value) (d : Json) : Json :=
  match v with None | Some JNull => d | Some x => x end.

(** The truth value of an expression. *)
Definition truthy (v : value) : bool :=
  match v with
  | None | Some JNull => false
  | Some (JBool b) => b
  | Some (JNum x) => negb (is_nan x || (x =? 0))
  | Some (JStr s) => nonEmpty s
  | Some (JArr _) | Some (JObj _) => true
  end.

(** The truth value of a string that can be [undefined]. *)
Definition truthyString (s : option jsstring) : bool :=
  match s with Some (_ :: _) => true | _ => false end.

(** What the function takes from its host besides the [MathRuntime]. *)
Class Host := {
  (** [new HttpsProxyAgent(url)]: the agent, or nothing when it throws *)
  HttpsProxyAgent : jsstring -> option jsstring;
  (** [JSON.stringify] of a parsed value *)
  JSON_stringify : Json -> jsstring;
  (** [x.toString(36)] *)
  toString36 : float -> jsstring;
  (** the message of the [TypeError] of a call of [split] on a value that
      is not a string *)
  typeErrorMessage : Json -> jsstring
}.

Record Env := {
  GROQ_API_KEY : option jsstring;
  PROXY_URL : option jsstring
}.

Record ExperimentConfig := {
  prompt : jsstring;
  temperature : float;
  topP : float;
  maxTokens : float;
  model : option jsstring;
  system : option jsstring;
  stop : option (list jsstring);
  frequencyPenalty : option float;
  presencePenalty : option float;
  seed : option float;
  weights : option PartialWeights.t
}.

Record GenerateOptions := {
  abortSignal : option N;
  maxRetries : option Z
}.

Record Usage := {
  promptTokens : Json;
  completionTokens : Json;
  totalTokens : Json
}.

Record RawParams := {
  raw_frequencyPenalty : option float;
  raw_presencePenalty : option float;
  raw_stop : option (list jsstring);
  raw_seed : option float
}.

Record ExperimentResponse := {
  id : Json;
  res_prompt : jsstring;
  response : jsstring;
  res_temperature : float;
  res_topP : float;
  res_maxTokens : float;
  res_model : jsstring;
  timestamp : float;
  latencyMs : float;
  usage : Usage;
  rawParams : RawParams;
  metrics : ResponseMetrics.t
}.

Record Message := { role : jsstring; content : jsstring }.

Record RequestBody := {
  body_model : jsstring;
  messages : list Message;
  body_temperature : float;
  top_p : float;
  max_tokens : float;
  frequency_penalty : option float;
  presence_penalty : option float;
  body_stop : option (list jsstring);
  body_seed : option float
}.

Record RequestConfig := {
  Authorization : jsstring;
  Content_Type : jsstring;
  httpsAgent : option jsstring;
  timeout : Z;
  signal : option N;
  validateStatus : Z -> bool
}.

(** The error a rejected request carries, as far as the handler reads it. *)
Record ErrorResponse := {
  status : option Z;
  data : value
}.

Record Rejection := {
  isCancel : bool;                     (* axios.isCancel(err) *)
  code : option jsstring;              (* e.code *)
  err_response : option ErrorResponse; (* e.response *)
  message : jsstring                   (* e.message *)
}.

(** What [await axios.post(...)] did: it gave a response with this [data],
    or it threw. *)
Inductive Outcome :=
  | Fulfilled (data : value)
  | Rejected (err : Rejection).

(** One pass of the loop, as the host answers it. *)
Record Attempt := {
  started : float;       (* Date.now() before the request *)
  outcome : Outcome;
  finished : float;      (* Date.now() after the response *)
  random : float;        (* Math.random(), for the identifier or the delay *)
  idClock : float;       (* Date.now() in cryptoRandomId *)
  now : float            (* new Date() *)
}.

Inductive Event :=
  | Post (url : jsstring) (body : RequestBody) (config : RequestConfig)
  | Sleep (ms : float)
  | ConsoleError (args : list jsstring).

(** How a call ends: it returns, it throws an [Error] with a message, or it
    is still waiting for the host. *)
Inductive Completion :=
  | Returned (r : ExperimentResponse)
  | Thrown (msg : jsstring)
  | Waiting.

(** A number that is an integer, in decimal: [String(n)]. *)
Definition decimal (n : Z) : jsstring :=
  lit (DecimalString.NilZero.string_of_int (Z.to_int n)).

Definition getProxyAgent `{Host} (env : Env) : option jsstring :=
  match PROXY_URL env with
  | Some (c :: u) => HttpsProxyAgent (c :: u)
  | _ => None
  end.

Definition isRetriableStatus (code : option float) : bool :=
  match code with
  | None => false
  | Some c =>
      if is_nan c || (c =? 0) then false
      else (c =? 429) || ((500 <=? c) && (c <=? 599))
  end.

Definition cryptoRandomId `{Host} (a : Attempt) : jsstring :=
  lit "loc_" ++ skipn 2 (toString36 (random a)) ++ toString36 (idClock a).

(** [completion?.choices?.[0]?.message?.content ?? ""] *)
Definition generatedTextOf (completion : value) : Json :=
  orDefault
    (optional (prop (lit "content"))
       (optional (prop (lit "message"))
          (optional index0
             (optional (prop (lit "choices")) completion))))
    (JStr []).

Section Call.
Context {R : MathRuntime} {H : Host}.
Variable env : Env.
Variable config : ExperimentConfig.
Variable opts : GenerateOptions.

Definition modelName : jsstring :=
  match model config with
  | Some m => m
  | None => lit "llama-3.3-70b-versatile"
  end.

Definition apiKey : jsstring :=
  match GROQ_API_KEY env with Some k => k | None => [] end.

Definition requestBody : RequestBody := {|
  body_model := modelName;
  messages :=
    (if truthyString (system config)
     then [{| role := lit "system";
              content := match system config with Some s => s | None => [] end |}]
     else [])
    ++ [{| role := lit "user"; content := prompt config |}];
  body_temperature := temperature config;
  top_p := topP config;
  max_tokens := maxTokens config;
  frequency_penalty := frequencyPenalty config;
  presence_penalty := presencePenalty config;
  body_stop := stop config;
  body_seed := seed config
|}.

Definition requestConfig : RequestConfig := {|
  Authorization := lit "Bearer " ++ apiKey;
  Content_Type := lit "application/json";
  httpsAgent := getProxyAgent env;
  timeout := 60000;
  signal := abortSignal opts;
  validateStatus := fun s => ((200 <=? s) && (s <? 300))%Z
|}.

Definition post : Event :=
  Post (lit "https://api.groq.com/openai/v1/chat/completions")
    requestBody requestConfig.

Definition retries : Z :=
  match maxRetries opts with Some n => n | None => 3%Z end.

(** The body of [try] after a request that was fulfilled: the result, or
    the [TypeError] of [calculateMetrics] on a text that is not a string. *)
Definition fulfilled (a : Attempt) (completion : value)
    : ExperimentResponse + Rejection :=
  let latency := finished a - started a in
  let generatedText := generatedTextOf completion in
  let usage_ := orDefault (optional (prop (lit "usage")) completion) (JObj []) in
  match generatedText with
  | JStr text =>
      inl {|
        id := orDefault (optional (prop (lit "id")) completion)
                (JStr (cryptoRandomId a));
        res_prompt := prompt config;
        response := text;
        res_temperature := temperature config;
        res_topP := topP config;
        res_maxTokens := maxTokens config;
        res_model := modelName;
        timestamp := now a;
        latencyMs := latency;
        usage := {|
          promptTokens :=
            orDefault (optional (prop (lit "prompt_tokens")) (Some usage_)) JNull;
          completionTokens :=
            orDefault (optional (prop (lit "completion_tokens")) (Some usage_))
              JNull;
          totalTokens :=
            orDefault (optional (prop (lit "total_tokens")) (Some usage_)) JNull
        |};
        rawParams := {|
          raw_frequencyPenalty := frequencyPenalty config;
          raw_presencePenalty := presencePenalty config;
          raw_stop := stop config;
          raw_seed := seed config
        |};
        metrics := score text (prompt config) PartialWeights.empty
      |}
  | other =>
      inr {| isCancel := false; code := None; err_response := None;
             message := typeErrorMessage other |}
  end.

(** [e.response?.status] *)
Definition statusOf (e : Rejection) : option Z :=
  match err_response e with Some r => status r | None => None end.

(** [msg] of the handler *)
Definition messageOf (e : Rejection) : jsstring :=
  match err_response e with
  | Some r =>
      if truthy (data r)
      then JSON_stringify (orDefault (data r) JNull)
      else message e
  | None => message e
  end.

Definition backoff (attempt : Z) (a : Attempt) : float :=
  let base := 400 in
  Math_min 4000 (base * Math_pow 2 (num (attempt - 1))) + random a * 250.

(** The [catch] block: [attempt] is the counter on entry, [e] the error
    caught in the pass [a], and [again] the rest of the loop, which
    [continue] goes to. *)
Definition caught (attempt : Z) (a : Attempt) (e : Rejection)
    (again : Z -> Completion * list Event) : Completion * list Event :=
  let code_ := statusOf e in
  let attempt := (attempt + 1)%Z in
  if isCancel e then (Thrown (lit "Request canceled."), [post])
  else if match code e with
          | Some c => str_eqb c (lit "ECONNABORTED")
          | None => false
          end && (retries <? attempt)%Z
  then (Thrown (lit "Timeout after retries."), [post])
  else if isRetriableStatus (option_map num code_) && (attempt <=? retries)%Z
  then
    let '(c, events) := again attempt in
    (c, post :: Sleep (backoff attempt a) :: events)
  else
    let msg := messageOf e in
    (Thrown (lit "Failed to generate response: "
             ++ match code_ with Some n => decimal n | None => [] end
             ++ lit " " ++ msg),
     [post; ConsoleError [lit "Error calling Groq API:"; msg]]).

(** What the handler does when it does not try again, the counter being
    [attempt] on entry: what it throws and what it logs. *)
Definition gaveUp (attempt : Z) (e : Rejection) : Completion * list Event :=
  if isCancel e then (Thrown (lit "Request canceled."), [post])
  else if match code e with
          | Some c => str_eqb c (lit "ECONNABORTED")
          | None => false
          end && (retries <? attempt + 1)%Z
  then (Thrown (lit "Timeout after retries."), [post])
  else
    (Thrown (lit "Failed to generate response: "
             ++ match statusOf e with Some n => decimal n | None => [] end
             ++ lit " " ++ messageOf e),
     [post; ConsoleError [lit "Error calling Groq API:"; messageOf e]]).

(** The loop: [attempt] is the counter on entry, [oracle] the passes the
    host has answered.  Each pass makes its request before it waits for the
    answer, so when the answers end the request of the next pass is out
    and the call is waiting. *)
Fixpoint attempts (attempt : Z) (oracle : list Attempt)
    : Completion * list Event :=
  match oracle with
  | [] => (Waiting, [post])
  | a :: rest =>
      match outcome a with
      | Fulfilled completion =>
          match fulfilled a completion with
          | inl r => (Returned r, [post])
          | inr e => caught attempt a e (fun k => attempts k rest)
          end
      | Rejected e => caught attempt a e (fun k => attempts k rest)
      end
  end.

Definition generateResponse (oracle : list Attempt)
    : Completion * list Event :=
  if negb (truthyString (GROQ_API_KEY env))
  then (Thrown (lit "GROQ_API_KEY is not set"), [])
  else attempts 0 oracle.



End Call.

(** The requests and the pauses among the events of a call. *)
Definition posts (events : list Event) : Z :=
  size (filter (fun e => match e with Post _ _ _ => true | _ => false end)
          events).

Definition sleeps (events : list Event) : Z :=
  size (filter (fun e => match e with Sleep _ => true | _ => false end)
          events).


(** A failure the loop tries again after, while attempts are left. *)
Definition retriable (a : Attempt) : Prop :=
  exists e, outcome a = Rejected e
            /\ isCancel e = false
            /\ isRetriableStatus (option_map num (statusOf e)) = true.

(** The events of passing through the failures [fails], the counter being
    [attempt] on entry. *)
Fixpoint retryEvents `{MathRuntime} `{Host} (env : Env)
    (config : ExperimentConfig) (opts : GenerateOptions) (attempt : Z)
    (fails : list Attempt) : list Event :=
  match fails with
  | [] => []
  | a :: rest =>
      post env config opts
      :: Sleep (backoff (attempt + 1) a)
      :: retryEvents env config opts (attempt + 1) rest
  end.

(** ** A host, an environment and a call for the examples *)

Definition stubHost : Host := {|
  HttpsProxyAgent := fun url => Some url;
  JSON_stringify := fun _ => lit "{}";
  toString36 := fun _ => lit "0.abc";
  typeErrorMessage := fun _ => lit "text.split is not a function"
|}.

Definition keyed : Env := {|
  GROQ_API_KEY := Some (lit "key");
  PROXY_URL := None
|}.

Definition askParis : ExperimentConfig := {|
  prompt := lit "Explain Paris.";
  temperature := 0.5;
  topP := 1;
  maxTokens := 256;
  model := None;
  system := None;
  stop := None;
  frequencyPenalty := None;
  presencePenalty := None;
  seed := None;
  weights := Some allOnes
|}.

Definition noOptions : GenerateOptions := {|
  abortSignal := None;
  maxRetries := None
|}.

Definition pass (o : Outcome) : Attempt := {|
  started := 1000; outcome := o; finished := 1200; random := 0.5;
  idClock := 1200; now := 1200
|}.

(** The request timed out: no response came. *)
Definition timedOut : Rejection := {|
  isCancel := false;
  code := Some (lit "ECONNABORTED");
  err_response := None;
  message := lit "timeout of 60000ms exceeded"
|}.

(** The service answered 429 or 503. *)
Definition answered (n : Z) : Rejection := {|
  isCancel := false;
  code := Some (lit "ERR_BAD_RESPONSE");
  err_response := Some {| status := Some n; data := None |};
  message := lit "Request failed"
|}.

(** A completion with one choice, of the given content. *)
Definition completionWith (c : Json) : value :=
  Some (JObj [(lit "id", JStr (lit "cmpl-1"));
              (lit "choices",
               JArr [JObj [(lit "message",
                            JObj [(lit "role", JStr (lit "assistant"));
                                  (lit "content", c)])]])]).

End Groq.

(** A weight map with all five keys present. *)
Definition weightsOf (coherence length vocab repetition readability : float)
    : PartialWeights.t := {|
  PartialWeights.coherence := Some coherence;
  PartialWeights.length := Some length;
  PartialWeights.vocab := Some vocab;
  PartialWeights.repetition := Some repetition;
  PartialWeights.readability := Some readability
|}.

(** A score as a percentage: [clamp0to100(Math.round(x * 100))]. *)
Definition percent (x : float) : float :=
  clamp0to100 (Math_round (x * 100)%float).

(** A finite number that is not negative and not [-0]. *)
Definition regular (x : float) : Prop :=
  is_finite x = true /\ fnonneg x /\ Prim2SF x <> S754_zero true.

(** * Proofs

    ** Binary64 arithmetic from its specification

    The size of a mantissa, the shifts of the rounding function, and from
    them the sign, the class and the magnitude of what the four operations
    return. *)

Local Open Scope Z_scope.

Lemma digits2_pos_size p : digits2_pos p = Pos.size p.
Proof. induction p; simpl; congruence. Qed.

Lemma pos_lt_pow_digits p : Zpos p < 2 ^ Zpos (digits2_pos p).
Proof.
  rewrite digits2_pos_size.
  pose proof (Pos.size_gt p) as H.
  apply Pos2Z.pos_lt_pos in H. rewrite Pos2Z.inj_pow in H. exact H.
Qed.

Lemma pow_digits_le_pos p : 2 ^ (Zpos (digits2_pos p) - 1) <= Zpos p.
Proof.
  rewrite digits2_pos_size.
  pose proof (Pos.size_le p) as H.
  apply Pos2Z.pos_le_pos in H. rewrite Pos2Z.inj_pow in H.
  replace (Zpos (Pos.size p)) with ((Zpos (Pos.size p) - 1) + 1) in H by lia.
  rewrite Z.pow_add_r in H by lia.
  change (Zpos p~0) with (2 * Zpos p) in H. lia.
Qed.

Lemma digits_le_of_lt p k : 0 <= k -> Zpos p < 2 ^ k -> Zpos (digits2_pos p) <= k.
Proof.
  intros Hk Hlt.
  destruct (Z_le_gt_dec (Zpos (digits2_pos p)) k) as [|Hgt]; [assumption|].
  pose proof (pow_digits_le_pos p) as Hle.
  assert (2 ^ k <= 2 ^ (Zpos (digits2_pos p) - 1)) by (apply Z.pow_le_mono_r; lia).
  lia.
Qed.

Lemma Zdigits2_nonneg z : 0 <= Zdigits2 z.
Proof. destruct z; simpl; lia. Qed.

Lemma Zdigits2_bound z : 0 <= z -> z < 2 ^ Zdigits2 z.
Proof.
  destruct z; simpl; intros; try lia.
  apply pos_lt_pow_digits.
Qed.

Lemma Zdigits2_le z k : 0 <= k -> 0 <= z < 2 ^ k -> Zdigits2 z <= k.
Proof.
  intros Hk [H0 H1]. destruct z; simpl; try lia.
  now apply digits_le_of_lt.
Qed.

Lemma Zdigits2_lower z : 0 < z -> 2 ^ (Zdigits2 z - 1) <= z.
Proof.
  destruct z; simpl; intros; try lia. apply pow_digits_le_pos.
Qed.

Lemma shift_bound m D n :
  0 <= m < 2 ^ D -> 0 <= D -> 0 <= n -> 0 <= m / 2 ^ n < 2 ^ Z.max 0 (D - n).
Proof.
  intros [H0 H1] HD Hn.
  assert (0 < 2 ^ n) by (apply Z.pow_pos_nonneg; lia).
  split; [apply Z.div_pos; lia|].
  destruct (Z_le_gt_dec n D).
  - rewrite Z.max_r by lia.
    apply Z.div_lt_upper_bound; [lia|].
    rewrite <- Z.pow_add_r by lia. replace (n + (D - n)) with D by lia. exact H1.
  - rewrite Z.max_l by lia.
    assert (2 ^ D <= 2 ^ n) by (apply Z.pow_le_mono_r; lia).
    rewrite Z.div_small by lia. simpl. lia.
Qed.

(** iter_pos as nat iteration *)
Lemma iter_pos_nat {A} (f : A -> A) p x :
  iter_pos f p x = Nat.iter (Pos.to_nat p) f x.
Proof.
  revert x. induction p; intros x.
  - change (iter_pos f p~1 x) with (iter_pos f p (iter_pos f p (f x))).
    rewrite !IHp. rewrite Pos2Nat.inj_xI.
    replace (S (2 * Pos.to_nat p))%nat with (Pos.to_nat p + (Pos.to_nat p + 1))%nat by lia.
    rewrite !Nat.iter_add. reflexivity.
  - change (iter_pos f p~0 x) with (iter_pos f p (iter_pos f p x)).
    rewrite !IHp. rewrite Pos2Nat.inj_xO.
    replace (2 * Pos.to_nat p)%nat with (Pos.to_nat p + Pos.to_nat p)%nat by lia.
    rewrite Nat.iter_add. reflexivity.
  - reflexivity.
Qed.

Lemma shr_1_m mrs : 0 <= shr_m mrs -> shr_m (shr_1 mrs) = shr_m mrs / 2.
Proof.
  destruct mrs as [m r s]. simpl. intros Hm.
  rewrite <- Z.div2_div.
  destruct m as [|[p|p|]|p]; simpl; try reflexivity; lia.
Qed.

Lemma shr_iter_m n mrs :
  0 <= shr_m mrs -> shr_m (Nat.iter n shr_1 mrs) = shr_m mrs / 2 ^ Z.of_nat n.
Proof.
  intros Hm. induction n.
  - simpl. now rewrite Z.div_1_r.
  - rewrite Nat.iter_succ.
    assert (0 <= shr_m (Nat.iter n shr_1 mrs)).
    { rewrite IHn. apply Z.div_pos; [lia | apply Z.pow_pos_nonneg; lia]. }
    rewrite shr_1_m by assumption. rewrite IHn.
    rewrite Nat2Z.inj_succ, Z.pow_succ_r by lia.
    rewrite Z.div_div by (try apply Z.pow_pos_nonneg; lia).
    f_equal. lia.
Qed.

(** shr: the mantissa after the shift and the new exponent *)
Lemma shr_spec mrs e n :
  0 <= shr_m mrs ->
  let '(mrs', e') := shr mrs e n in
  shr_m mrs' = shr_m mrs / 2 ^ Z.max 0 n /\ e' = e + Z.max 0 n.
Proof.
  intros Hm. unfold shr. destruct n as [|p|p].
  - simpl. rewrite Z.div_1_r. lia.
  - rewrite iter_pos_nat, shr_iter_m by assumption.
    rewrite positive_nat_Z. rewrite Z.max_r by lia. split; reflexivity.
  - rewrite Z.max_l by lia. simpl. rewrite Z.div_1_r. lia.
Qed.

Lemma shr_record_of_loc_m m l : shr_m (shr_record_of_loc m l) = m.
Proof. destruct l as [|[]]; reflexivity. Qed.

Lemma shr_fexp_spec m e l :
  0 <= m ->
  let n := Z.max 0 (fexp prec emax (Zdigits2 m + e) - e) in
  let '(mrs', e') := shr_fexp prec emax m e l in
  shr_m mrs' = m / 2 ^ n /\ e' = e + n.
Proof.
  intros Hm. unfold shr_fexp.
  pose proof (shr_spec (shr_record_of_loc m l) e
                (fexp prec emax (Zdigits2 m + e) - e)) as H.
  rewrite shr_record_of_loc_m in H. specialize (H Hm).
  destruct (shr _ _ _) as [mrs' e']. exact H.
Qed.

Lemma round_nearest_even_bounds m l :
  m <= round_nearest_even m l <= m + 1.
Proof.
  destruct l as [|[]]; simpl; try lia. destruct (Z.even m); lia.
Qed.

Lemma fexp_eq x : fexp prec emax x = Z.max (x - 53) (-1074).
Proof. reflexivity. Qed.

(** Digits and exponent after one [shr_fexp]. *)
Lemma shr_fexp_mag m e l B :
  0 <= m -> Zdigits2 m + e <= B -> e <= B - 53 -> -1021 <= B ->
  let '(mrs', e') := shr_fexp prec emax m e l in
  0 <= shr_m mrs' /\ Zdigits2 (shr_m mrs') + e' <= B /\ e' <= B - 53.
Proof.
  intros Hm Hd He HB.
  pose proof (shr_fexp_spec m e l Hm) as H. cbv zeta in H.
  destruct (shr_fexp prec emax m e l) as [mrs' e'].
  destruct H as [H1 H2]. rewrite fexp_eq in H1, H2.
  set (n := Z.max 0 (Z.max (Zdigits2 m + e - 53) (-1074) - e)) in *.
  pose proof (Zdigits2_nonneg m) as Hdn.
  pose proof (shift_bound m (Zdigits2 m) n
                (conj Hm (Zdigits2_bound m Hm)) Hdn ltac:(lia)) as Hs.
  rewrite <- H1 in Hs.
  split; [lia|]. split; [|lia].
  assert (Zdigits2 (shr_m mrs') <= Z.max 0 (Zdigits2 m - n)).
  { apply Zdigits2_le; lia. }
  lia.
Qed.

Lemma Zdigits2_succ m : 0 <= m -> Zdigits2 (m + 1) <= Zdigits2 m + 1.
Proof.
  intros Hm. pose proof (Zdigits2_nonneg m).
  apply Zdigits2_le; [lia|]. split; [lia|].
  pose proof (Zdigits2_bound m Hm).
  rewrite Z.pow_add_r by lia. simpl (2 ^ 1). lia.
Qed.

Lemma Zdigits2_mono a b : 0 <= a <= b -> Zdigits2 a <= Zdigits2 b.
Proof.
  intros [H0 H1]. pose proof (Zdigits2_nonneg b).
  apply Zdigits2_le; [lia|]. split; [lia|].
  pose proof (Zdigits2_bound b ltac:(lia)). lia.
Qed.

Lemma bra_signed s mx ex lx :
  0 <= mx -> sf_signed s (binary_round_aux prec emax s mx ex lx).
Proof.
  intros Hm. unfold binary_round_aux.
  pose proof (shr_fexp_spec mx ex lx Hm) as H1. cbv zeta in H1.
  destruct (shr_fexp prec emax mx ex lx) as [mrs' e'].
  destruct H1 as [H1 _].
  assert (0 <= shr_m mrs') as Hm'.
  { rewrite H1. apply Z.div_pos; [lia|]. apply Z.pow_pos_nonneg; lia. }
  pose proof (round_nearest_even_bounds (shr_m mrs') (loc_of_shr_record mrs')) as Hr.
  set (m2 := round_nearest_even _ _) in *.
  pose proof (shr_fexp_spec m2 e' loc_Exact ltac:(lia)) as H2. cbv zeta in H2.
  destruct (shr_fexp prec emax m2 e' loc_Exact) as [mrs'' e''].
  destruct H2 as [H2 _].
  assert (0 <= shr_m mrs'') as Hm''.
  { rewrite H2. apply Z.div_pos; [lia|]. apply Z.pow_pos_nonneg; lia. }
  destruct (shr_m mrs''); simpl; try reflexivity; try lia.
  destruct (_ <=? _); reflexivity.
Qed.

Lemma bra_small s mx ex lx B :
  0 <= mx -> Zdigits2 mx + ex <= B -> ex <= B - 53 -> -1021 <= B ->
  B + 1 <= 1024 ->
  sf_signed_small s (B + 1) (binary_round_aux prec emax s mx ex lx).
Proof.
  intros Hm Hd He HB HB'. unfold binary_round_aux.
  pose proof (shr_fexp_mag mx ex lx B Hm Hd He HB) as H1.
  destruct (shr_fexp prec emax mx ex lx) as [mrs' e'].
  destruct H1 as (Hm' & Hd' & He').
  pose proof (round_nearest_even_bounds (shr_m mrs') (loc_of_shr_record mrs')) as Hr.
  set (m2 := round_nearest_even _ _) in *.
  assert (Zdigits2 m2 <= Zdigits2 (shr_m mrs') + 1) as Hd2.
  { etransitivity; [apply (Zdigits2_mono m2 (shr_m mrs' + 1)); lia|].
    now apply Zdigits2_succ. }
  pose proof (shr_fexp_mag m2 e' loc_Exact (B + 1) ltac:(lia) ltac:(lia)
                ltac:(lia) ltac:(lia)) as H2.
  destruct (shr_fexp prec emax m2 e' loc_Exact) as [mrs'' e''].
  destruct H2 as (Hm'' & Hd'' & He'').
  destruct (shr_m mrs'') as [|p|p] eqn:E.
  - reflexivity.
  - change (Zdigits2 (Zpos p)) with (Zpos (digits2_pos p)) in Hd''.
    assert ((e'' <=? emax - prec) = true) as ->
      by (apply Z.leb_le; change (emax - prec) with 971; lia).
    split; [reflexivity | lia].
  - lia.
Qed.

Lemma iter_xO_val m d : Zpos (Pos.iter xO m d) = Zpos m * 2 ^ Zpos d.
Proof.
  induction d using Pos.peano_ind.
  - simpl. lia.
  - rewrite Pos.iter_succ, Pos2Z.inj_succ, Z.pow_succ_r by lia.
    rewrite Pos2Z.inj_xO, IHd. lia.
Qed.

Lemma shl_align_spec mx ex ex' :
  let '(m, e) := shl_align mx ex ex' in
  e = Z.min ex ex' /\ Zpos m = Zpos mx * 2 ^ (ex - e).
Proof.
  unfold shl_align. destruct (ex' - ex) as [|d|d] eqn:E.
  - split; [lia|]. rewrite Z.sub_diag. simpl. lia.
  - split; [lia|]. rewrite Z.sub_diag. simpl. lia.
  - split; [lia|]. rewrite iter_xO_val. f_equal. f_equal. lia.
Qed.

Lemma Zdigits2_shift m k :
  0 <= k -> Zdigits2 (Zpos m * 2 ^ k) <= Zpos (digits2_pos m) + k.
Proof.
  intros Hk. apply Zdigits2_le; [lia|].
  assert (0 < 2 ^ k) by (apply Z.pow_pos_nonneg; lia).
  split; [lia|]. rewrite Z.pow_add_r by lia.
  pose proof (pos_lt_pow_digits m). nia.
Qed.

Lemma binary_round_signed s mx ex :
  sf_signed s (binary_round prec emax s mx ex).
Proof.
  unfold binary_round. destruct (shl_align _ _ _) as [mz ez].
  apply bra_signed. lia.
Qed.

Lemma binary_round_small s mx ex B :
  Zpos (digits2_pos mx) + ex <= B -> -1021 <= B -> B + 1 <= 1024 ->
  sf_signed_small s (B + 1) (binary_round prec emax s mx ex).
Proof.
  intros Hd HB HB'. unfold binary_round.
  pose proof (shl_align_spec mx ex (fexp prec emax (Zpos (digits2_pos mx) + ex))) as H.
  destruct (shl_align _ _ _) as [mz ez]. destruct H as [He Hm].
  rewrite fexp_eq in He.
  apply bra_small; try lia.
  rewrite Hm. pose proof (Zdigits2_shift mx (ex - ez) ltac:(lia)). lia.
Qed.

Lemma sf_signed_nonnan s f : sf_signed s f -> sf_nonnan f.
Proof. destruct f; simpl; auto. Qed.

Lemma sf_signed_small_small s B f : sf_signed_small s B f -> sf_small B f.
Proof. destruct f; simpl; tauto. Qed.

Lemma sf_signed_small_signed s B f : sf_signed_small s B f -> sf_signed s f.
Proof. destruct f; simpl; tauto. Qed.

Lemma sf_small_nonnan B f : sf_small B f -> sf_nonnan f.
Proof. destruct f; simpl; auto. Qed.

Lemma sf_small_mono B B' f : B <= B' -> sf_small B f -> sf_small B' f.
Proof. destruct f; simpl; auto; lia. Qed.

Lemma sf_signed_false_nonneg f : sf_signed false f -> sf_nonneg f.
Proof. destruct f; simpl; auto. Qed.

Lemma sf_signed_true_nonpos f : sf_signed true f -> sf_nonpos f.
Proof. destruct f; simpl; auto. Qed.

Lemma sf_nonneg_nonnan f : sf_nonneg f -> sf_nonnan f.
Proof. destruct f; simpl; auto. Qed.

Lemma binary_normalize_nonnan m e sz :
  sf_nonnan (binary_normalize prec emax m e sz).
Proof.
  destruct m; simpl; auto;
    eapply sf_signed_nonnan; apply binary_round_signed.
Qed.

Lemma binary_normalize_nonneg m e sz :
  0 <= m -> sf_nonneg (binary_normalize prec emax m e sz).
Proof.
  destruct m; simpl; auto; try lia.
  intros _. apply sf_signed_false_nonneg, binary_round_signed.
Qed.

Lemma binary_normalize_small m e sz B :
  Zdigits2 m + e <= B -> -1021 <= B -> B + 1 <= 1024 ->
  sf_small (B + 1) (binary_normalize prec emax m e sz).
Proof.
  intros Hd HB HB'. unfold Zdigits2 in Hd. destruct m; simpl; auto;
    eapply sf_signed_small_small; apply binary_round_small; lia.
Qed.

(** Validity gives the exponent of a finite value in terms of its size. *)
Lemma valid_exponent s m e :
  valid_binary (S754_finite s m e) = true ->
  e = Z.max (Zpos (digits2_pos m) + e - 53) (-1074) /\ e <= 971.
Proof.
  unfold valid_binary, bounded, canonical_mantissa. rewrite fexp_eq.
  intros H. apply andb_prop in H. destruct H as [H1 H2].
  apply Z.eqb_eq in H1. apply Z.leb_le in H2.
  change (emax - prec) with 971 in H2. lia.
Qed.

Lemma Zdigits2_abs_sum u v du dv :
  0 <= du -> 0 <= dv -> Z.abs u < 2 ^ du -> Z.abs v < 2 ^ dv ->
  Zdigits2 (u + v) <= Z.max du dv + 1.
Proof.
  intros Hdu Hdv Hu Hv.
  assert (2 ^ du <= 2 ^ Z.max du dv) by (apply Z.pow_le_mono_r; lia).
  assert (2 ^ dv <= 2 ^ Z.max du dv) by (apply Z.pow_le_mono_r; lia).
  assert (Z.abs (u + v) < 2 ^ (Z.max du dv + 1)).
  { rewrite Z.pow_add_r by lia. simpl (2 ^ 1). lia. }
  destruct (u + v) as [|p|p] eqn:E; simpl.
  - lia.
  - apply digits_le_of_lt; lia.
  - apply digits_le_of_lt; [lia|]. lia.
Qed.

Lemma aligned_bound s m e ez :
  ez <= e ->
  Z.abs (cond_Zopp s (Zpos (fst (shl_align m e ez))))
  < 2 ^ (Zpos (digits2_pos m) + e - ez).
Proof.
  intros Hle. pose proof (shl_align_spec m e ez) as H.
  destruct (shl_align m e ez) as [mz ez']. destruct H as [He Hm]. simpl fst.
  rewrite Z.min_r in He by lia. subst ez'.
  replace (Z.abs (cond_Zopp s (Zpos mz))) with (Zpos mz)
    by (destruct s; reflexivity).
  rewrite Hm.
  replace (Zpos (digits2_pos m) + e - ez) with (Zpos (digits2_pos m) + (e - ez)) by lia.
  rewrite Z.pow_add_r by lia.
  assert (0 < 2 ^ (e - ez)) by (apply Z.pow_pos_nonneg; lia).
  apply Z.mul_lt_mono_pos_r; [assumption | apply pos_lt_pow_digits].
Qed.

Lemma finite_sum_small sx mx ex sy my ey (neg : bool) a b :
  Zpos (digits2_pos mx) + ex <= a -> Zpos (digits2_pos my) + ey <= b ->
  -1022 <= Z.max a b -> Z.max a b + 2 <= 1024 ->
  sf_small (Z.max a b + 2)
    (binary_normalize prec emax
       ((if neg then Z.sub else Z.add)
          (cond_Zopp sx (Zpos (fst (shl_align mx ex (Z.min ex ey)))))
          (cond_Zopp sy (Zpos (fst (shl_align my ey (Z.min ex ey))))))
       (Z.min ex ey) false).
Proof.
  intros Ha Hb Hlo Hhi.
  set (ez := Z.min ex ey).
  pose proof (aligned_bound sx mx ex ez ltac:(lia)) as Hu.
  pose proof (aligned_bound sy my ey ez ltac:(lia)) as Hv.
  set (u := cond_Zopp sx _) in *. set (v := cond_Zopp sy _) in *.
  replace (Z.max a b + 2) with ((Z.max a b + 1) + 1) by lia.
  apply binary_normalize_small; try lia.
  assert (Zdigits2 ((if neg then Z.sub else Z.add) u v)
          <= Z.max (Zpos (digits2_pos mx) + ex - ez)
                   (Zpos (digits2_pos my) + ey - ez) + 1).
  { destruct neg.
    - replace (u - v) with (u + (- v)) by lia.
      apply Zdigits2_abs_sum; rewrite ?Z.abs_opp; lia.
    - apply Zdigits2_abs_sum; lia. }
  lia.
Qed.

Lemma SFadd_small a b x y :
  sf_small a x -> sf_small b y -> -1022 <= Z.max a b -> Z.max a b + 2 <= 1024 ->
  sf_small (Z.max a b + 2) (SFadd prec emax x y).
Proof.
  intros Hx Hy Hlo Hhi.
  destruct x as [sx|sx| |sx mx ex], y as [sy|sy| |sy my ey];
    simpl in Hx, Hy; try contradiction.
  - simpl. destruct sx, sy; exact I.
  - simpl. lia.
  - simpl. lia.
  - apply (finite_sum_small sx mx ex sy my ey false a b); assumption.
Qed.

Lemma SFsub_small a b x y :
  sf_small a x -> sf_small b y -> -1022 <= Z.max a b -> Z.max a b + 2 <= 1024 ->
  sf_small (Z.max a b + 2) (SFsub prec emax x y).
Proof.
  intros Hx Hy Hlo Hhi.
  destruct x as [sx|sx| |sx mx ex], y as [sy|sy| |sy my ey];
    simpl in Hx, Hy; try contradiction.
  - simpl. destruct sx, sy; exact I.
  - simpl. lia.
  - simpl. lia.
  - apply (finite_sum_small sx mx ex sy my ey true a b); assumption.
Qed.

Lemma SFmul_small a b x y :
  valid_binary x = true -> valid_binary y = true ->
  sf_small a x -> sf_small b y -> 0 <= a -> 0 <= b -> a + b + 1 <= 1024 ->
  sf_small (a + b + 1) (SFmul prec emax x y).
Proof.
  intros Vx Vy Hx Hy Ha Hb Hhi.
  destruct x as [sx|sx| |sx mx ex], y as [sy|sy| |sy my ey];
    cbn [sf_small sf_large sf_nonneg sf_nonpos sf_nonnan] in Hx, Hy; try contradiction; try exact I.
  unfold SFmul.
  apply valid_exponent in Vx, Vy.
  eapply sf_signed_small_small. apply bra_small; try lia.
  assert (Zdigits2 (Zpos (mx * my))
          <= Zpos (digits2_pos mx) + Zpos (digits2_pos my)).
  { apply Zdigits2_le; [lia|]. split; [lia|].
    rewrite Z.pow_add_r by lia. rewrite Pos2Z.inj_mul.
    pose proof (pos_lt_pow_digits mx). pose proof (pos_lt_pow_digits my).
    apply Z.mul_lt_mono_nonneg; lia. }
  lia.
Qed.

Lemma SFmul_nonneg x y :
  sf_nonneg x -> sf_nonneg y -> sf_nonnan (SFmul prec emax x y) ->
  sf_nonneg (SFmul prec emax x y).
Proof.
  intros Hx Hy Hn.
  destruct x as [sx|sx| |sx mx ex], y as [sy|sy| |sy my ey];
    cbn [sf_nonneg sf_nonnan SFmul] in Hx, Hy, Hn |- *; try contradiction; subst; try reflexivity;
    try exact I.
  apply sf_signed_false_nonneg. apply bra_signed. lia.
Qed.

Lemma SFmul_finite_nonnan x y :
  sf_nonnan x ->
  match y with S754_finite _ _ _ => True | _ => False end ->
  sf_nonnan (SFmul prec emax x y) /\ sf_nonnan (SFmul prec emax y x).
Proof.
  intros Hx Hy.
  destruct x as [sx|sx| |sx mx ex], y as [sy|sy| |sy my ey];
    cbn [sf_nonneg sf_nonnan sf_small SFmul] in Hx, Hy |- *; try contradiction; try (split; exact I).
  split; eapply sf_signed_nonnan; apply bra_signed; lia.
Qed.

Lemma SFmul_square_nonneg x :
  sf_nonnan x -> sf_nonneg (SFmul prec emax x x).
Proof.
  intros Hx. destruct x as [sx|sx| |sx mx ex]; simpl in Hx |- *;
    try contradiction; try exact I.
  - destruct sx; reflexivity.
  - replace (xorb sx sx) with false by (destruct sx; reflexivity).
    apply sf_signed_false_nonneg. apply bra_signed. lia.
Qed.

Lemma shiftl_cases m s :
  0 <= s ->
  match s with Zpos _ => Z.shiftl m s | 0 => m | Zneg _ => 0 end = m * 2 ^ s.
Proof.
  intros Hs. destruct s as [|p|p].
  - change (2 ^ 0) with 1. lia.
  - apply Z.shiftl_mul_pow2. lia.
  - lia.
Qed.

(** The quotient of the mantissas that [SFdiv] rounds. *)
Lemma SFdiv_core_bounds mx ex my ey :
  let '(q, e', _) := SFdiv_core_binary prec emax (Zpos mx) ex (Zpos my) ey in
  0 <= q
  /\ Zdigits2 q + e'
     <= Z.max e' (Zpos (digits2_pos mx) + ex - (Zpos (digits2_pos my) + ey) + 1)
  /\ e' <= Z.max (Zpos (digits2_pos mx) + ex - (Zpos (digits2_pos my) + ey) - 53)
                 (-1074).
Proof.
  unfold SFdiv_core_binary. rewrite fexp_eq.
  change (Zdigits2 (Zpos mx)) with (Zpos (digits2_pos mx)).
  change (Zdigits2 (Zpos my)) with (Zpos (digits2_pos my)).
  cbv zeta.
  set (dx := Zpos (digits2_pos mx)). set (dy := Zpos (digits2_pos my)).
  set (e' := Z.min _ _).
  set (s := ex - ey - e').
  assert (0 <= s) as Hs by (unfold s, e'; lia).
  set (m' := match s with Zpos _ => Z.shiftl (Zpos mx) s | 0 => Zpos mx | Zneg _ => 0 end).
  assert (m' = Zpos mx * 2 ^ s) as Hm' by (apply shiftl_cases; assumption).
  clearbody m'.
  pose proof (Z_div_mod m' (Zpos my) ltac:(lia)) as Hdiv.
  destruct (Z.div_eucl m' (Zpos my)) as [q r].
  destruct Hdiv as [Hq Hr].
  assert (0 < 2 ^ s) by (apply Z.pow_pos_nonneg; lia).
  assert (0 <= q) as Hq0 by nia.
  split; [assumption|]. split; [|apply Z.le_min_l].
  pose proof (pos_lt_pow_digits mx) as Hmx. fold dx in Hmx.
  pose proof (pow_digits_le_pos my) as Hmy. fold dy in Hmy.
  assert (m' < 2 ^ (dx + s)) as Hm'lt.
  { rewrite Hm', Z.pow_add_r by lia. apply Z.mul_lt_mono_pos_r; lia. }
  assert (Zdigits2 q <= Z.max 0 (dx + s - dy + 1)) as Hdq.
  { apply Zdigits2_le; [lia|]. split; [assumption|].
    assert (0 < 2 ^ (dy - 1)) by (apply Z.pow_pos_nonneg; lia).
    assert (q * 2 ^ (dy - 1) < 2 ^ (dx + s)) as Hlt by nia.
    destruct (Z_le_gt_dec 0 (dx + s - dy + 1)).
    - rewrite Z.max_r by lia.
      replace (dx + s) with ((dx + s - dy + 1) + (dy - 1)) in Hlt by lia.
      rewrite Z.pow_add_r in Hlt by lia.
      apply Z.mul_lt_mono_pos_r in Hlt; assumption.
    - rewrite Z.max_l by lia. simpl.
      assert (2 ^ (dx + s) <= 2 ^ (dy - 1)) by (apply Z.pow_le_mono_r; lia).
      nia. }
  unfold s in Hdq. clearbody e' dx dy. lia.
Qed.

Lemma SFdiv_small a L x y :
  sf_small a x -> sf_large L y -> -1021 <= a - L + 1 -> a - L + 2 <= 1024 ->
  sf_small (a - L + 2) (SFdiv prec emax x y).
Proof.
  intros Hx Hy Hlo Hhi.
  destruct x as [sx|sx| |sx mx ex], y as [sy|sy| |sy my ey];
    cbn [sf_small sf_large sf_nonneg sf_nonpos sf_nonnan] in Hx, Hy; try contradiction; try exact I.
  unfold SFdiv.
  pose proof (SFdiv_core_bounds mx ex my ey) as H.
  destruct (SFdiv_core_binary prec emax (Zpos mx) ex (Zpos my) ey) as [[q e'] l].
  destruct H as (Hq & Hd & He).
  replace (a - L + 2) with ((a - L + 1) + 1) by lia.
  eapply sf_signed_small_small. apply bra_small; lia.
Qed.

Lemma SFdiv_nonneg x y :
  sf_nonneg x ->
  match y with S754_finite false _ _ => True | _ => False end ->
  sf_nonneg (SFdiv prec emax x y).
Proof.
  intros Hx Hy.
  destruct x as [sx|sx| |sx mx ex], y as [sy|sy| |[|] my ey];
    cbn [sf_small sf_large sf_nonneg sf_nonpos sf_nonnan] in Hx, Hy; try contradiction; subst; try exact I; try reflexivity.
  unfold SFdiv.
  pose proof (SFdiv_core_bounds mx ex my ey) as H.
  destruct (SFdiv_core_binary prec emax (Zpos mx) ex (Zpos my) ey) as [[q e'] l].
  destruct H as (Hq & _).
  apply sf_signed_false_nonneg. now apply bra_signed.
Qed.

Lemma SFdiv_nonpos x y :
  sf_nonpos x ->
  match y with S754_finite false _ _ => True | _ => False end ->
  sf_nonpos (SFdiv prec emax x y).
Proof.
  intros Hx Hy.
  destruct x as [sx|sx| |sx mx ex], y as [sy|sy| |[|] my ey];
    cbn [sf_small sf_large sf_nonneg sf_nonpos sf_nonnan] in Hx, Hy; try contradiction; subst; try exact I; try reflexivity.
  unfold SFdiv.
  pose proof (SFdiv_core_bounds mx ex my ey) as H.
  destruct (SFdiv_core_binary prec emax (Zpos mx) ex (Zpos my) ey) as [[q e'] l].
  destruct H as (Hq & _).
  apply sf_signed_true_nonpos. now apply bra_signed.
Qed.

Lemma SFadd_nonneg x y :
  sf_nonneg x -> sf_nonneg y -> sf_nonneg (SFadd prec emax x y).
Proof.
  intros Hx Hy.
  destruct x as [sx|sx| |sx mx ex], y as [sy|sy| |sy my ey];
    cbn [sf_small sf_large sf_nonneg sf_nonpos sf_nonnan] in Hx, Hy; try contradiction; subst; try exact I; try reflexivity.
  - simpl. destruct sx, sy; exact I.
  - unfold SFadd. apply binary_normalize_nonneg. simpl. lia.
Qed.

Lemma SFadd_nonnan_small B x y :
  sf_nonnan x -> sf_small B y ->
  sf_nonnan (SFadd prec emax x y) /\ sf_nonnan (SFadd prec emax y x).
Proof.
  intros Hx Hy.
  destruct x as [sx|sx| |sx mx ex], y as [sy|sy| |sy my ey];
    cbn [sf_small sf_large sf_nonneg sf_nonpos sf_nonnan] in Hx, Hy; try contradiction; try (split; exact I).
  - simpl. destruct sx, sy; split; exact I.
  - split; apply binary_normalize_nonnan.
Qed.

Lemma SFsub_nonnan_small B x y :
  sf_nonnan x -> sf_small B y ->
  sf_nonnan (SFsub prec emax x y) /\ sf_nonnan (SFsub prec emax y x).
Proof.
  intros Hx Hy.
  destruct x as [sx|sx| |sx mx ex], y as [sy|sy| |sy my ey];
    cbn [sf_small sf_large sf_nonneg sf_nonpos sf_nonnan] in Hx, Hy; try contradiction; try (split; exact I).
  - simpl. destruct sx, sy; split; exact I.
  - split; apply binary_normalize_nonnan.
Qed.

(** ** Comparisons *)

Lemma SFcompare_antisym x y :
  SFcompare y x = option_map CompOpp (SFcompare x y).
Proof.
  destruct x as [sx|sx| |sx mx ex], y as [sy|sy| |sy my ey]; simpl;
    try reflexivity;
    try (destruct sx; reflexivity); try (destruct sy; reflexivity);
    try (destruct sx, sy; reflexivity).
  destruct sx, sy; simpl; try reflexivity;
    rewrite (Z.compare_antisym ex ey);
    destruct (ex ?= ey) eqn:E; simpl; try reflexivity;
    rewrite (Pos.compare_cont_antisym mx my Eq); simpl;
    try rewrite CompOpp_involutive; reflexivity.
Qed.

Lemma SFcompare_refl x : sf_nonnan x -> SFcompare x x = Some Eq.
Proof.
  destruct x as [sx|sx| |sx mx ex]; simpl; try contradiction; intros _.
  - reflexivity.
  - destruct sx; reflexivity.
  - destruct sx; rewrite Z.compare_refl, Pos.compare_cont_refl; reflexivity.
Qed.

Lemma SFcompare_nonnan x y :
  sf_nonnan x -> sf_nonnan y -> exists c, SFcompare x y = Some c.
Proof.
  destruct x as [sx|sx| |sx mx ex], y as [sy|sy| |sy my ey]; simpl;
    try contradiction; intros _ _; eauto.
Qed.

Lemma SFleb_refl x : sf_nonnan x -> SFleb x x = true.
Proof. intros H. unfold SFleb. now rewrite SFcompare_refl. Qed.

Lemma SFltb_leb x y : SFltb x y = true -> SFleb x y = true.
Proof. unfold SFltb, SFleb. destruct (SFcompare x y) as [[]|]; auto. Qed.

Lemma SFltb_false_leb x y :
  sf_nonnan x -> sf_nonnan y -> SFltb x y = false -> SFleb y x = true.
Proof.
  intros Hx Hy. unfold SFltb, SFleb. rewrite (SFcompare_antisym x y).
  destruct (SFcompare_nonnan x y Hx Hy) as [c ->]. destruct c; simpl; auto.
Qed.

Lemma SFleb_nonnan x y : SFleb x y = true -> sf_nonnan x /\ sf_nonnan y.
Proof.
  unfold SFleb.
  destruct x as [sx|sx| |sx mx ex], y as [sy|sy| |sy my ey]; simpl;
    try discriminate; auto.
Qed.

Lemma Prim2SF_zero : Prim2SF 0%float = sf_zero.
Proof. reflexivity. Qed.

Lemma Prim2SF_one : Prim2SF 1%float = sf_one.
Proof. reflexivity. Qed.

Lemma SFleb_zero_nonneg f : SFleb sf_zero f = true <-> sf_nonneg f.
Proof.
  unfold SFleb, sf_zero.
  destruct f as [s|s| |s m e]; simpl; try destruct s; simpl;
    split; intros; try discriminate; try contradiction; auto.
Qed.

Lemma SFleb_nonpos_zero f : SFleb f sf_zero = true <-> sf_nonpos f.
Proof.
  unfold SFleb, sf_zero.
  destruct f as [s|s| |s m e]; simpl; try destruct s; simpl;
    split; intros; try discriminate; try contradiction; auto.
Qed.

(** A valid value in [0, 1] is below [2^1]. *)
Lemma sf_unit_small f :
  valid_binary f = true -> sf_nonneg f -> SFleb f sf_one = true ->
  sf_small 1 f.
Proof.
  intros V Hn Hle. destruct f as [s|s| |s m e];
    cbn [sf_nonneg sf_small] in *; try contradiction; auto.
  - subst. discriminate.
  - subst. apply valid_exponent in V. destruct V as [V _].
    unfold SFleb, SFcompare, sf_one in Hle.
    destruct (e ?= -52) eqn:E.
    + apply Z.compare_eq in E. clear Hle. lia.
    + rewrite Z.compare_lt_iff in E. clear Hle. lia.
    + discriminate.
Qed.

(** A valid value that is at least 1 is at least [2^0]. *)
Lemma sf_ge_one_large f :
  valid_binary f = true -> SFleb sf_one f = true ->
  sf_large 1 f \/ f = S754_infinity false.
Proof.
  intros V Hle. destruct f as [s|s| |s m e]; try discriminate.
  - destruct s; [discriminate | now right].
  - left. unfold SFleb, SFcompare, sf_one in Hle.
    destruct s; [discriminate|].
    apply valid_exponent in V. destruct V as [V _].
    cbn [sf_large].
    destruct (-52 ?= e) eqn:E.
    + apply Z.compare_eq in E. subst e.
      destruct (Pos.compare_cont Eq 4503599627370496 m) eqn:C; try discriminate.
      * apply Pos.compare_eq in C. subst m. vm_compute. discriminate.
      * change (Pos.compare_cont Eq 4503599627370496 m)
          with (Pos.compare 4503599627370496 m) in C.
        rewrite Pos.compare_lt_iff in C.
        pose proof (pos_lt_pow_digits m) as Hd.
        destruct (Z_le_gt_dec 53 (Zpos (digits2_pos m))) as [|Hgt]; [lia|].
        assert (2 ^ Zpos (digits2_pos m) <= 2 ^ 52) by (apply Z.pow_le_mono_r; lia).
        change (2 ^ 52) with 4503599627370496 in H. lia.
    + rewrite Z.compare_lt_iff in E. lia.
    + discriminate.
Qed.

(** ** The primitive operations through their specifications *)

Local Open Scope float_scope.

Lemma is_nan_false x : fnonnan x -> is_nan x = false.
Proof.
  intros H. unfold is_nan. rewrite eqb_spec. unfold SFeqb.
  now rewrite SFcompare_refl.
Qed.

Lemma is_nan_fnonnan x : is_nan x = false -> fnonnan x.
Proof.
  unfold is_nan, fnonnan. rewrite eqb_spec. unfold SFeqb.
  destruct (Prim2SF x); simpl; auto. discriminate.
Qed.

Lemma ltb_leb x y : (x <? y) = true -> (x <=? y) = true.
Proof. rewrite ltb_spec, leb_spec. apply SFltb_leb. Qed.

Lemma ltb_false_leb x y :
  fnonnan x -> fnonnan y -> (x <? y) = false -> (y <=? x) = true.
Proof. rewrite ltb_spec, leb_spec. apply SFltb_false_leb. Qed.

Lemma leb_refl x : fnonnan x -> (x <=? x) = true.
Proof. rewrite leb_spec. apply SFleb_refl. Qed.

Lemma leb_fnonnan x y : (x <=? y) = true -> fnonnan x /\ fnonnan y.
Proof. rewrite leb_spec. apply SFleb_nonnan. Qed.

Lemma leb0_fnonneg x : (0 <=? x) = true <-> fnonneg x.
Proof. rewrite leb_spec, Prim2SF_zero. apply SFleb_zero_nonneg. Qed.

Lemma leb0_fnonpos x : (x <=? 0) = true <-> fnonpos x.
Proof. rewrite leb_spec, Prim2SF_zero. apply SFleb_nonpos_zero. Qed.

Lemma fnonneg_fnonnan x : fnonneg x -> fnonnan x.
Proof. apply sf_nonneg_nonnan. Qed.

Lemma fsmall_fnonnan B x : fsmall B x -> fnonnan x.
Proof. apply sf_small_nonnan. Qed.

Lemma fsmall_mono B B' x : (B <=? B')%Z = true -> fsmall B x -> fsmall B' x.
Proof. intros H. apply sf_small_mono. now apply Z.leb_le. Qed.

Lemma fpositive_fnonneg x : fpositive x -> fnonneg x.
Proof. unfold fpositive, fnonneg. destruct (Prim2SF x) as [| | |[|]]; simpl; tauto. Qed.

Lemma Math_min_spec a b :
  fnonnan a -> fnonnan b ->
  (Math_min a b = a \/ Math_min a b = b)
  /\ (Math_min a b <=? a) = true /\ (Math_min a b <=? b) = true.
Proof.
  intros Ha Hb. unfold Math_min.
  rewrite (is_nan_false a Ha), (is_nan_false b Hb). simpl.
  destruct (a <? b) eqn:E1.
  - repeat split; auto using leb_refl, ltb_leb.
  - destruct (b <? a) eqn:E2.
    + repeat split; auto using leb_refl, ltb_leb.
    + destruct (get_sign a); repeat split;
        auto using leb_refl, ltb_false_leb.
Qed.

Lemma Math_max_spec a b :
  fnonnan a -> fnonnan b ->
  (Math_max a b = a \/ Math_max a b = b)
  /\ (a <=? Math_max a b) = true /\ (b <=? Math_max a b) = true.
Proof.
  intros Ha Hb. unfold Math_max.
  rewrite (is_nan_false a Ha), (is_nan_false b Hb). simpl.
  destruct (a <? b) eqn:E1.
  - repeat split; auto using leb_refl, ltb_leb.
  - destruct (b <? a) eqn:E2.
    + repeat split; auto using leb_refl, ltb_leb.
    + destruct (get_sign a); repeat split;
        auto using leb_refl, ltb_false_leb.
Qed.

Lemma in01_facts x : in01 x -> fsmall 1 x /\ fnonneg x /\ fnonnan x.
Proof.
  intros [H0 H1]. apply leb0_fnonneg in H0.
  split; [|split; [assumption | now apply fnonneg_fnonnan]].
  apply sf_unit_small; [apply Prim2SF_valid | assumption |].
  rewrite leb_spec, Prim2SF_one in H1. exact H1.
Qed.

Lemma in01_zero : in01 0.
Proof. split; reflexivity. Qed.

Lemma in01_one : in01 1.
Proof. split; reflexivity. Qed.

(** [Math.min(1, x)] of a number that is not negative is in [[0, 1]]. *)
Lemma Math_min_1_in01 x : fnonneg x -> in01 (Math_min 1 x).
Proof.
  intros Hx.
  destruct (Math_min_spec 1 x I (fnonneg_fnonnan x Hx)) as ([E|E] & H1 & H2).
  - rewrite E. apply in01_one.
  - split; [|assumption]. rewrite E. now apply leb0_fnonneg.
Qed.

Lemma clamp01_in01 x : fnonnan x -> in01 (clamp01 x).
Proof.
  intros Hx. unfold clamp01.
  destruct (Math_min_spec 1 x I Hx) as (Hsel & Hle & _).
  assert (fnonnan (Math_min 1 x)) as Hm by (destruct Hsel as [-> | ->]; [exact I | assumption]).
  destruct (Math_max_spec 0 (Math_min 1 x) I Hm) as ([E|E] & H1 & H2).
  - rewrite E. apply in01_zero.
  - split; [assumption|]. rewrite E. assumption.
Qed.

Lemma clamp01_nan : clamp01 nan = nan.
Proof. reflexivity. Qed.

(** ** Exact conversions of integers *)

Local Open Scope Z_scope.

Lemma digits2_iter_xO m d :
  Zpos (digits2_pos (Pos.iter xO m d)) = Zpos (digits2_pos m) + Zpos d.
Proof.
  induction d using Pos.peano_ind.
  - simpl. lia.
  - rewrite Pos.iter_succ. cbn [digits2_pos].
    rewrite Pos2Z.inj_succ, IHd. lia.
Qed.

Lemma bra_exact s m e :
  fexp prec emax (Zpos (digits2_pos m) + e) = e -> e <= 971 ->
  binary_round_aux prec emax s (Zpos m) e loc_Exact = S754_finite s m e.
Proof.
  intros Hc He. unfold binary_round_aux, shr_fexp.
  cbn [Zdigits2 shr_record_of_loc]. rewrite Hc, Z.sub_diag.
  cbn [shr loc_of_shr_record round_nearest_even shr_m].
  cbn [Zdigits2 shr_record_of_loc]. rewrite Hc, Z.sub_diag.
  cbn [shr shr_m].
  replace (e <=? emax - prec) with true; [reflexivity|].
  symmetry. apply Z.leb_le. change (emax - prec) with 971. assumption.
Qed.

Lemma binary_round_exact s mx ex :
  fexp prec emax (Zpos (digits2_pos mx) + ex) <= ex ->
  fexp prec emax (Zpos (digits2_pos mx) + ex) <= 971 ->
  exists mz,
    binary_round prec emax s mx ex
    = S754_finite s mz (fexp prec emax (Zpos (digits2_pos mx) + ex))
    /\ Zpos (digits2_pos mz) + fexp prec emax (Zpos (digits2_pos mx) + ex)
       = Zpos (digits2_pos mx) + ex.
Proof.
  intros Hle Hmax. unfold binary_round, shl_align.
  remember (fexp prec emax (Zpos (digits2_pos mx) + ex)) as f eqn:Hf.
  destruct (f - ex) as [|d|d] eqn:E.
  - assert (f = ex) as Hfe by lia. exists mx. split; [|lia].
    rewrite Hfe. apply bra_exact; [|lia]. rewrite <- Hf. exact Hfe.
  - lia.
  - exists (Pos.iter xO mx d).
    assert (Zpos (digits2_pos (Pos.iter xO mx d)) + f = Zpos (digits2_pos mx) + ex)
      as Hd by (rewrite digits2_iter_xO; lia).
    split; [|exact Hd].
    apply bra_exact; [|lia]. rewrite Hd. symmetry. exact Hf.
Qed.

Lemma to_Z_of_Z_small z :
  0 <= z < 2 ^ 63 -> Uint63.to_Z (Uint63.of_Z z) = z.
Proof.
  intros H. rewrite Uint63.of_Z_spec. apply Z.mod_small.
  change Uint63.wB with (2 ^ 63). assumption.
Qed.

(** A positive integer below 2^53 converts exactly: the result is positive,
    with the magnitude of the integer. *)
Lemma Z2float_pos p :
  Zpos p < 2 ^ 53 ->
  exists mz,
    Prim2SF (Z2float (Zpos p))
    = S754_finite false mz (Zpos (digits2_pos p) - 53)
    /\ Zpos (digits2_pos mz) = 53.
Proof.
  intros Hp. unfold Z2float. cbn [Z.ltb Z.compare].
  rewrite of_uint63_spec, to_Z_of_Z_small
    by (split; [lia|]; change (2 ^ 63) with (2 ^ 53 * 1024); lia).
  cbn [binary_normalize].
  assert (Zpos (digits2_pos p) <= 53) as Hd by (apply digits_le_of_lt; lia).
  assert (fexp prec emax (Zpos (digits2_pos p) + 0) = Zpos (digits2_pos p) - 53)
    as Hf by (rewrite fexp_eq; lia).
  destruct (binary_round_exact false p 0) as (mz & E & Hm);
    rewrite ?Hf; try lia.
  rewrite Hf in E, Hm. exists mz. split; [exact E | lia].
Qed.

Lemma Z2float_neg p :
  Zpos p < 2 ^ 53 ->
  exists mz,
    Prim2SF (Z2float (Zneg p))
    = S754_finite true mz (Zpos (digits2_pos p) - 53)
    /\ Zpos (digits2_pos mz) = 53.
Proof.
  intros Hp. destruct (Z2float_pos p Hp) as (mz & E & Hm).
  exists mz. split; [|exact Hm].
  unfold Z2float in *. cbn [Z.ltb Z.compare Z.opp] in *.
  rewrite opp_spec, E. reflexivity.
Qed.

Lemma num_cases z :
  (z = 0 /\ num z = 0%float \/ 0 < z /\ fpositive (num z) /\ flarge 1 (num z)
   \/ z < 0 /\ fnonpos (num z))
  /\ fsmall 53 (num z).
Proof.
  unfold num.
  remember (Z.max (- max_safe) (Z.min max_safe z)) as c eqn:E.
  unfold max_safe in E.
  assert (2 ^ 53 = 9007199254740992) as Hpow by reflexivity.
  destruct c as [|p|p].
  - split; [|exact I]. left. split; [lia | reflexivity].
  - destruct (Z2float_pos p ltac:(lia)) as (mz & Ez & Hm).
    unfold fpositive, flarge, fsmall. rewrite Ez. cbn [sf_positive sf_large sf_small].
    pose proof (digits_le_of_lt p 53 ltac:(lia) ltac:(lia)).
    split; [|lia]. right. left.
    split; [lia|]. split; [exact I | lia].
  - destruct (Z2float_neg p ltac:(lia)) as (mz & Ez & Hm).
    unfold fnonpos, fsmall. rewrite Ez. cbn [sf_nonpos sf_small].
    pose proof (digits_le_of_lt p 53 ltac:(lia) ltac:(lia)).
    split; [|lia]. right. right.
    split; [lia | reflexivity].
Qed.

Lemma num_fsmall z : fsmall 53 (num z).
Proof. apply num_cases. Qed.

Lemma num_fnonneg z : 0 <= z -> fnonneg (num z).
Proof.
  intros Hz. destruct (num_cases z) as [[(_ & E)|[(_ & H & _)|(H & _)]] _].
  - rewrite E. exact I.
  - now apply fpositive_fnonneg.
  - lia.
Qed.

Lemma num_fpositive z : 1 <= z -> fpositive (num z) /\ flarge 1 (num z).
Proof.
  intros Hz. destruct (num_cases z) as [[(H & _)|[(_ & H)|(H & _)]] _]; try lia.
  exact H.
Qed.

(** ** Magnitude and sign through the arithmetic *)

Local Open Scope float_scope.

Lemma add_fsmall a b x y :
  fsmall a x -> fsmall b y ->
  ((-1022 <=? Z.max a b) && (Z.max a b + 2 <=? 1024))%Z = true ->
  fsmall (Z.max a b + 2) (x + y).
Proof.
  intros Hx Hy H. apply andb_prop in H. destruct H as [H1 H2].
  apply Z.leb_le in H1, H2. unfold fsmall. rewrite add_spec.
  now apply SFadd_small.
Qed.

Lemma sub_fsmall a b x y :
  fsmall a x -> fsmall b y ->
  ((-1022 <=? Z.max a b) && (Z.max a b + 2 <=? 1024))%Z = true ->
  fsmall (Z.max a b + 2) (x - y).
Proof.
  intros Hx Hy H. apply andb_prop in H. destruct H as [H1 H2].
  apply Z.leb_le in H1, H2. unfold fsmall. rewrite sub_spec.
  now apply SFsub_small.
Qed.

Lemma mul_fsmall a b x y :
  fsmall a x -> fsmall b y ->
  ((0 <=? a) && (0 <=? b) && (a + b + 1 <=? 1024))%Z = true ->
  fsmall (a + b + 1) (x * y).
Proof.
  intros Hx Hy H. apply andb_prop in H. destruct H as [H H3].
  apply andb_prop in H. destruct H as [H1 H2].
  apply Z.leb_le in H1, H2, H3. unfold fsmall. rewrite mul_spec.
  apply SFmul_small; auto using Prim2SF_valid.
Qed.

Lemma div_fsmall a L x y :
  fsmall a x -> flarge L y ->
  ((-1021 <=? a - L + 1) && (a - L + 2 <=? 1024))%Z = true ->
  fsmall (a - L + 2) (x / y).
Proof.
  intros Hx Hy H. apply andb_prop in H. destruct H as [H1 H2].
  apply Z.leb_le in H1, H2. unfold fsmall. rewrite div_spec.
  now apply SFdiv_small.
Qed.

Lemma add_fnonneg x y : fnonneg x -> fnonneg y -> fnonneg (x + y).
Proof. unfold fnonneg. rewrite add_spec. apply SFadd_nonneg. Qed.

Lemma sf_positive_finite f :
  sf_positive f -> match f with S754_finite _ _ _ => True | _ => False end.
Proof. destruct f as [| | |[|]]; simpl; auto. Qed.

Lemma sf_positive_nonneg f : sf_positive f -> sf_nonneg f.
Proof. destruct f as [| | |[|]]; simpl; tauto. Qed.

Lemma mul_fnonneg_l c y : fpositive c -> fnonneg y -> fnonneg (c * y).
Proof.
  unfold fpositive, fnonneg. rewrite mul_spec. intros Hc Hy.
  apply SFmul_nonneg.
  - now apply sf_positive_nonneg.
  - assumption.
  - exact (proj2 (SFmul_finite_nonnan _ _ (sf_nonneg_nonnan _ Hy)
                   (sf_positive_finite _ Hc))).
Qed.

Lemma mul_fnonneg_r x c : fnonneg x -> fpositive c -> fnonneg (x * c).
Proof.
  unfold fpositive, fnonneg. rewrite mul_spec. intros Hx Hc.
  apply SFmul_nonneg.
  - assumption.
  - now apply sf_positive_nonneg.
  - exact (proj1 (SFmul_finite_nonnan _ _ (sf_nonneg_nonnan _ Hx)
                   (sf_positive_finite _ Hc))).
Qed.

Lemma SFmul_small_nonnan a b x y :
  sf_small a x -> sf_small b y -> sf_nonnan (SFmul prec emax x y).
Proof.
  intros Hx Hy.
  destruct x as [sx|sx| |sx mx ex], y as [sy|sy| |sy my ey];
    cbn [sf_small SFmul sf_nonnan] in *; try contradiction; try exact I.
  eapply sf_signed_nonnan. apply bra_signed. lia.
Qed.

Lemma mul_fnonneg a b x y :
  fsmall a x -> fsmall b y -> fnonneg x -> fnonneg y -> fnonneg (x * y).
Proof.
  unfold fsmall, fnonneg. rewrite mul_spec. intros.
  apply SFmul_nonneg; eauto using SFmul_small_nonnan.
Qed.

Lemma mul_fnonnan_l c x : fpositive c -> fnonnan x -> fnonnan (c * x).
Proof.
  unfold fpositive, fnonnan. rewrite mul_spec. intros Hc Hx.
  exact (proj2 (SFmul_finite_nonnan _ _ Hx (sf_positive_finite _ Hc))).
Qed.

Lemma mul_fnonnan_r x c : fnonnan x -> fpositive c -> fnonnan (x * c).
Proof.
  unfold fpositive, fnonnan. rewrite mul_spec. intros Hx Hc.
  exact (proj1 (SFmul_finite_nonnan _ _ Hx (sf_positive_finite _ Hc))).
Qed.

Lemma sq_fnonneg x : fnonnan x -> fnonneg (x * x).
Proof. unfold fnonnan, fnonneg. rewrite mul_spec. apply SFmul_square_nonneg. Qed.

Lemma div_fnonneg x y : fnonneg x -> fpositive y -> fnonneg (x / y).
Proof. unfold fnonneg, fpositive. rewrite div_spec. apply SFdiv_nonneg. Qed.

Lemma div_fnonpos x y : fnonpos x -> fpositive y -> fnonpos (x / y).
Proof. unfold fnonpos, fpositive. rewrite div_spec. apply SFdiv_nonpos. Qed.

Lemma add_fnonnan_r B x y : fnonnan x -> fsmall B y -> fnonnan (x + y).
Proof.
  unfold fnonnan, fsmall. rewrite add_spec. intros Hx Hy.
  exact (proj1 (SFadd_nonnan_small B _ _ Hx Hy)).
Qed.

Lemma add_fnonnan_l B x y : fsmall B x -> fnonnan y -> fnonnan (x + y).
Proof.
  unfold fnonnan, fsmall. rewrite add_spec. intros Hx Hy.
  exact (proj2 (SFadd_nonnan_small B _ _ Hy Hx)).
Qed.

Lemma sub_fnonnan_r B x y : fnonnan x -> fsmall B y -> fnonnan (x - y).
Proof.
  unfold fnonnan, fsmall. rewrite sub_spec. intros Hx Hy.
  exact (proj1 (SFsub_nonnan_small B _ _ Hx Hy)).
Qed.

Lemma sub_fnonnan_l B x y : fsmall B x -> fnonnan y -> fnonnan (x - y).
Proof.
  unfold fnonnan, fsmall. rewrite sub_spec. intros Hx Hy.
  exact (proj2 (SFsub_nonnan_small B _ _ Hy Hx)).
Qed.

Lemma abs_fnonneg x : fnonnan x -> fnonneg (abs x).
Proof.
  unfold fnonnan, fnonneg. rewrite abs_spec.
  destruct (Prim2SF x); simpl; auto.
Qed.

Lemma opp_fnonpos x : fnonneg x -> fnonpos (- x).
Proof.
  unfold fnonpos, fnonneg. rewrite opp_spec.
  destruct (Prim2SF x) as [s|s| |s m e]; simpl; auto; intros ->; reflexivity.
Qed.

Lemma Math_min_ind (P : float -> Prop) a b :
  fnonnan a -> fnonnan b -> P a -> P b -> P (Math_min a b).
Proof.
  intros Ha Hb Pa Pb.
  destruct (Math_min_spec a b Ha Hb) as ([-> | ->] & _); assumption.
Qed.

Lemma Math_max_ind (P : float -> Prop) a b :
  fnonnan a -> fnonnan b -> P a -> P b -> P (Math_max a b).
Proof.
  intros Ha Hb Pa Pb.
  destruct (Math_max_spec a b Ha Hb) as ([-> | ->] & _); assumption.
Qed.

(** [Math.max(1, y)] of a finite [y] is a divisor that is at least 1. *)
Lemma Math_max_1_large B y :
  fsmall B y ->
  fpositive (Math_max 1 y) /\ flarge 1 (Math_max 1 y)
  /\ fsmall (Z.max 1 B) (Math_max 1 y).
Proof.
  intros Hy. pose proof (fsmall_fnonnan B y Hy) as Hn.
  destruct (Math_max_spec 1 y I Hn) as (Hsel & H1 & _).
  assert (fsmall (Z.max 1 B) (Math_max 1 y)) as Hs.
  { destruct Hsel as [-> | ->].
    - unfold fsmall. rewrite Prim2SF_one. unfold sf_one, sf_small.
      change (Zpos (digits2_pos 4503599627370496) + -52)%Z with 1%Z. lia.
    - revert Hy. apply sf_small_mono. lia. }
  rewrite leb_spec, Prim2SF_one in H1.
  destruct (sf_ge_one_large _ (Prim2SF_valid _) H1) as [Hl | Hinf].
  - split; [|split; assumption].
    unfold fpositive. unfold flarge in Hl.
    destruct (Prim2SF (Math_max 1 y)) as [s|s| |[|] m e];
      try contradiction; try discriminate; exact I.
  - unfold fsmall in Hs. rewrite Hinf in Hs. contradiction.
Qed.

(** ** [clamp0to100] after [Math.round] *)

Lemma Prim2SF_hundred : Prim2SF 100 = sf_hundred.
Proof. reflexivity. Qed.

Lemma fnonnan_of_finite x s m e : Prim2SF x = S754_finite s m e -> fnonnan x.
Proof. unfold fnonnan. intros ->. exact I. Qed.

Lemma clamp0to100_above x m e :
  Prim2SF x = S754_finite false m e -> (-46 < e)%Z -> clamp0to100 x = 100.
Proof.
  intros E He.
  assert (Math_min 100 x = 100) as Hmin.
  { unfold Math_min.
    rewrite (is_nan_false x (fnonnan_of_finite _ _ _ _ E)).
    change (is_nan 100) with false. cbn [orb].
    replace (100 <? x) with true; [reflexivity|].
    rewrite ltb_spec, Prim2SF_hundred, E. unfold SFltb, SFcompare, sf_hundred.
    apply Z.compare_lt_iff in He. now rewrite He. }
  unfold clamp0to100. rewrite Hmin. reflexivity.
Qed.

Lemma clamp0to100_negative x m e :
  Prim2SF x = S754_finite true m e -> clamp0to100 x = 0.
Proof.
  intros E.
  pose proof (is_nan_false x (fnonnan_of_finite _ _ _ _ E)) as Hn.
  assert (Math_min 100 x = x) as Hmin.
  { unfold Math_min. rewrite Hn.
    change (is_nan 100) with false. cbn [orb].
    replace (100 <? x) with false
      by (rewrite ltb_spec, Prim2SF_hundred, E; reflexivity).
    replace (x <? 100) with true
      by (rewrite ltb_spec, Prim2SF_hundred, E; reflexivity).
    reflexivity. }
  unfold clamp0to100. rewrite Hmin. unfold Math_max. rewrite Hn.
  change (is_nan 0) with false. cbn [orb].
  replace (0 <? x) with false
    by (rewrite ltb_spec, Prim2SF_zero, E; reflexivity).
  replace (x <? 0) with true
    by (rewrite ltb_spec, Prim2SF_zero, E; reflexivity).
  reflexivity.
Qed.

Lemma clamp0to100_table :
  forallb (fun n => Leibniz.eqb (clamp0to100 (Z2float n)) (Z2float (Z.min 100 n)))
    low_integers = true.
Proof. vm_compute. reflexivity. Qed.

Lemma clamp0to100_low n :
  (1 <= n <= 127)%Z -> clamp0to100 (Z2float n) = Z2float (Z.min 100 n).
Proof.
  intros Hn. apply Leibniz.eqb_spec.
  pose proof clamp0to100_table as T. rewrite forallb_forall in T.
  apply T. unfold low_integers. apply in_map_iff.
  exists (Z.to_nat n). split; [lia|]. apply in_seq. lia.
Qed.

Lemma clamp0to100_Z2float n :
  (- 2 ^ 53 < n < 2 ^ 53)%Z -> int0to100 (clamp0to100 (Z2float n)).
Proof.
  intros Hn. destruct n as [|p|p].
  - exists 0%Z. split; [lia | reflexivity].
  - destruct (Z_le_gt_dec (Zpos p) 127) as [Hle | Hgt].
    + exists (Z.min 100 (Zpos p)). split; [lia|].
      apply clamp0to100_low. lia.
    + destruct (Z2float_pos p ltac:(lia)) as (mz & E & _).
      exists 100%Z. split; [lia|].
      rewrite (clamp0to100_above _ _ _ E); [reflexivity|].
      assert (8 <= Zpos (digits2_pos p))%Z; [|lia].
      destruct (Z_le_gt_dec 8 (Zpos (digits2_pos p))) as [|Hd]; [assumption|].
      pose proof (pos_lt_pow_digits p).
      assert (2 ^ Zpos (digits2_pos p) <= 2 ^ 7)%Z by (apply Z.pow_le_mono_r; lia).
      change (2 ^ 7)%Z with 128%Z in *. lia.
  - destruct (Z2float_neg p ltac:(lia)) as (mz & E & _).
    exists 0%Z. split; [lia|].
    rewrite (clamp0to100_negative _ _ _ E). reflexivity.
Qed.

Lemma round_shift_bound v k :
  (1 <= k)%Z -> (- 2 ^ 53 < v < 2 ^ 53)%Z ->
  (- 2 ^ 53 < round_shift v k < 2 ^ 53)%Z.
Proof.
  intros Hk Hv. unfold round_shift.
  assert (2 <= 2 ^ k)%Z as HP.
  { change 2%Z with (2 ^ 1)%Z at 1. apply Z.pow_le_mono_r; lia. }
  rewrite Z.pow_add_r by lia. change (2 ^ 1)%Z with 2%Z.
  set (P := (2 ^ k)%Z) in *. clearbody P.
  set (T := (2 ^ 53)%Z) in *.
  assert (T = 9007199254740992)%Z as HT by reflexivity. clearbody T.
  split.
  - apply Z.lt_le_trans with (- T + 1)%Z; [lia|].
    apply Z.div_le_lower_bound; nia.
  - apply Z.div_lt_upper_bound; nia.
Qed.

Lemma clamp0to100_round x :
  fnonnan x -> int0to100 (clamp0to100 (Math_round x)).
Proof.
  intros Hx. unfold Math_round. unfold fnonnan in Hx.
  pose proof (SF2Prim_Prim2SF x) as Hback.
  pose proof (Prim2SF_valid x) as Hvalid.
  destruct (Prim2SF x) as [s|s| |s m e] eqn:E.
  - rewrite <- Hback. exists 0%Z. split; [lia|]. destruct s; reflexivity.
  - rewrite <- Hback. destruct s.
    + exists 0%Z. split; [lia | reflexivity].
    + exists 100%Z. split; [lia | reflexivity].
  - contradiction.
  - destruct (0 <=? e)%Z eqn:He.
    + apply Z.leb_le in He. destruct s.
      * exists 0%Z. split; [lia|]. now rewrite (clamp0to100_negative _ _ _ E).
      * exists 100%Z. split; [lia|].
        rewrite (clamp0to100_above _ _ _ E); [reflexivity | lia].
    + apply Z.leb_gt in He. unfold integral.
      destruct (round_shift (cond_Zopp s (Zpos m)) (- e) =? 0)%Z eqn:Hz.
      * exists 0%Z. split; [lia|]. destruct s; reflexivity.
      * apply clamp0to100_Z2float. apply round_shift_bound; [lia|].
        apply valid_exponent in Hvalid. destruct Hvalid as [Hv _].
        pose proof (pos_lt_pow_digits m) as Hm.
        assert (2 ^ Zpos (digits2_pos m) <= 2 ^ 53)%Z
          by (apply Z.pow_le_mono_r; lia).
        destruct s; cbn [cond_Zopp]; lia.
Qed.

(** ** Bounds of literals, and the bound-chasing tactics *)

Local Open Scope Z_scope.

Lemma fsmall_fbound c : is_finite c = true -> fsmall (fbound c) c.
Proof.
  unfold is_finite, fsmall, fbound.
  destruct (Prim2SF c); try discriminate; intros _; cbn [sf_small]; auto. lia.
Qed.

Lemma flarge_flow c : is_positive c = true -> flarge (flow c) c.
Proof.
  unfold is_positive, flarge, flow.
  destruct (Prim2SF c) as [| | |[|]]; try discriminate; intros _;
    cbn [sf_large]. lia.
Qed.

Lemma fpositive_of_bool c : is_positive c = true -> fpositive c.
Proof.
  unfold is_positive, fpositive.
  destruct (Prim2SF c) as [| | |[|]]; try discriminate; intros _; exact I.
Qed.

Lemma abs_fsmall B x : fsmall B x -> fsmall B (abs x).
Proof.
  unfold fsmall. rewrite abs_spec. destruct (Prim2SF x); simpl; auto.
Qed.

Lemma opp_fsmall B x : fsmall B x -> fsmall B (- x)%float.
Proof.
  unfold fsmall. rewrite opp_spec. destruct (Prim2SF x); simpl; auto.
Qed.

Lemma in01_fsmall x : in01 x -> fsmall 1 x.
Proof. apply in01_facts. Qed.

Lemma in01_fnonneg x : in01 x -> fnonneg x.
Proof. apply in01_facts. Qed.

Lemma in01_fnonnan x : in01 x -> fnonnan x.
Proof. apply in01_facts. Qed.

Lemma Math_min_fsmall a b x y :
  fsmall a x -> fsmall b y -> fsmall (Z.max a b) (Math_min x y).
Proof.
  intros Hx Hy.
  apply Math_min_ind; eauto using fsmall_fnonnan.
  - revert Hx. apply sf_small_mono. lia.
  - revert Hy. apply sf_small_mono. lia.
Qed.

Lemma num_flarge z : 1 <= z -> flarge 1 (num z).
Proof. apply num_fpositive. Qed.

Lemma num_fpos z : 1 <= z -> fpositive (num z).
Proof. apply num_fpositive. Qed.

Lemma or1_pos n : 0 <= n -> 1 <= or1 n.
Proof. unfold or1. destruct (n =? 0) eqn:E; [lia|]. apply Z.eqb_neq in E. lia. Qed.

Lemma size_nonneg {A} (l : list A) : 0 <= size l.
Proof. unfold size. lia. Qed.

Ltac side := vm_compute; reflexivity.

Ltac int_side :=
  first [ assumption
        | apply or1_pos; apply size_nonneg
        | lia ].

Lemma Math_max_1_flarge B y : fsmall B y -> flarge 1 (Math_max 1 y).
Proof. intros H. apply (Math_max_1_large B y H). Qed.

(** [flg]: a divisor is large; [fsm]: an expression is small. *)
Ltac flg fsm :=
  lazymatch goal with
  | |- flarge _ (num _) => apply num_flarge; int_side
  | H : flarge _ ?x |- flarge _ ?x => exact H
  | |- flarge _ (Math_max 1 _) => eapply Math_max_1_flarge; fsm
  | |- flarge _ _ => apply flarge_flow; side
  end.

Ltac fsm :=
  lazymatch goal with
  | H : fsmall _ ?x |- fsmall _ ?x => exact H
  | H : in01 ?x |- fsmall _ ?x => exact (in01_fsmall x H)
  | |- fsmall _ (num _) => apply num_fsmall
  | |- fsmall _ (?x + ?y)%float => eapply add_fsmall; [fsm | fsm | side]
  | |- fsmall _ (?x - ?y)%float => eapply sub_fsmall; [fsm | fsm | side]
  | |- fsmall _ (?x * ?y)%float => eapply mul_fsmall; [fsm | fsm | side]
  | |- fsmall _ (?x / ?y)%float => eapply div_fsmall; [fsm | flg ltac:(idtac; fsm) | side]
  | |- fsmall _ (abs _) => eapply abs_fsmall; fsm
  | |- fsmall _ (- _)%float => eapply opp_fsmall; fsm
  | |- fsmall _ (Math_min _ _) => eapply Math_min_fsmall; fsm
  | |- fsmall _ _ => apply fsmall_fbound; side
  end.

Ltac fnn := eapply fsmall_fnonnan; fsm.

Local Open Scope float_scope.

Lemma fkGrade_fsmall text : exists B, fsmall B (fkGrade text).
Proof.
  eexists. unfold fkGrade. cbv zeta. fsm.
Qed.

Lemma readabilityScore_in01 text : in01 (fst (readabilityScore text)).
Proof.
  unfold readabilityScore. cbv zeta. cbn [fst].
  destruct (fkGrade_fsmall text) as [B HB].
  apply clamp01_in01. eapply sub_fnonnan_r; [exact I|].
  apply in01_fsmall. apply Math_min_1_in01.
  apply div_fnonneg; [|exact I].
  apply abs_fnonneg. eapply sub_fnonnan_r; [eapply fsmall_fnonnan; exact HB|].
  fsm.
Qed.

Local Open Scope Z_scope.

(** ** Rounding does not pass a power of two

    A value below [2^B] rounds to a value below [2^B] or to [2^B] itself. *)

Lemma Zdigits2_pow2 D : 0 <= D -> Zdigits2 (2 ^ D) = D + 1.
Proof.
  intros HD. assert (0 < 2 ^ D) as Hpos by (apply Z.pow_pos_nonneg; lia).
  apply Z.le_antisymm.
  - apply Zdigits2_le; [lia|]. split; [lia|].
    rewrite Z.pow_add_r by lia. change (2 ^ 1) with 2. lia.
  - pose proof (Zdigits2_bound (2 ^ D) ltac:(lia)) as Hb.
    pose proof (Zdigits2_nonneg (2 ^ D)) as Hn.
    destruct (Z_le_gt_dec (D + 1) (Zdigits2 (2 ^ D))) as [|Hgt]; [assumption|].
    assert (2 ^ Zdigits2 (2 ^ D) <= 2 ^ D) by (apply Z.pow_le_mono_r; lia).
    lia.
Qed.

Lemma sf_le_pow2_of_small s B f : sf_signed_small s B f -> sf_le_pow2 s B f.
Proof. destruct f; cbn [sf_signed_small sf_le_pow2]; tauto. Qed.

Lemma bra_le_pow2 s mx ex lx B :
  0 <= mx -> Zdigits2 mx + ex <= B -> ex <= B - 53 -> -1021 <= B ->
  B + 1 <= 1024 ->
  sf_le_pow2 s B (binary_round_aux prec emax s mx ex lx).
Proof.
  intros Hm Hd He HB HB'. unfold binary_round_aux.
  pose proof (shr_fexp_mag mx ex lx B Hm Hd He HB) as H1.
  destruct (shr_fexp prec emax mx ex lx) as [mrs' e'].
  destruct H1 as (Hm' & Hd' & He').
  pose proof (round_nearest_even_bounds (shr_m mrs') (loc_of_shr_record mrs')) as Hr.
  set (m2 := round_nearest_even _ _) in *.
  pose proof (Zdigits2_bound (shr_m mrs') Hm') as Hb1.
  assert (2 ^ Zdigits2 (shr_m mrs') <= 2 ^ (B - e')) as Hpow
    by (apply Z.pow_le_mono_r; lia).
  destruct (Z_lt_le_dec m2 (2 ^ (B - e'))) as [Hlt | Hge].
  - (* no carry out of the precision *)
    assert (Zdigits2 m2 <= B - e') as Hd2 by (apply Zdigits2_le; lia).
    pose proof (shr_fexp_mag m2 e' loc_Exact B ltac:(lia) ltac:(lia)
                  ltac:(lia) ltac:(lia)) as H2.
    destruct (shr_fexp prec emax m2 e' loc_Exact) as [mrs'' e''].
    destruct H2 as (Hm'' & Hd'' & He'').
    destruct (shr_m mrs'') as [|p|p] eqn:E.
    + reflexivity.
    + change (Zdigits2 (Zpos p)) with (Zpos (digits2_pos p)) in Hd''.
      assert ((e'' <=? emax - prec) = true) as ->
        by (apply Z.leb_le; change (emax - prec) with 971; lia).
      cbn [sf_le_pow2]. split; [reflexivity | left; lia].
    + lia.
  - (* the carry: the mantissa is the power of two *)
    assert (m2 = 2 ^ (B - e')) as Hm2 by lia.
    pose proof (shr_fexp_spec m2 e' loc_Exact ltac:(lia)) as H2.
    cbv zeta in H2.
    destruct (shr_fexp prec emax m2 e' loc_Exact) as [mrs'' e''].
    destruct H2 as [H2 H3].
    rewrite Hm2, Zdigits2_pow2, fexp_eq in H2, H3 by lia.
    replace (Z.max 0 (Z.max (B - e' + 1 + e' - 53) (-1074) - e'))
      with (B - 52 - e') in H2, H3 by lia.
    rewrite <- Z.pow_sub_r in H2 by lia.
    replace (B - e' - (B - 52 - e')) with 52 in H2 by lia.
    replace (e' + (B - 52 - e')) with (B - 52) in H3 by lia.
    rewrite H2. change (2 ^ 52) with (Zpos 4503599627370496).
    assert ((e'' <=? emax - prec) = true) as ->
      by (apply Z.leb_le; change (emax - prec) with 971; lia).
    cbn [sf_le_pow2]. split; [reflexivity|]. right.
    change (Zpos (digits2_pos 4503599627370496)) with 53.
    split; [lia | reflexivity].
Qed.

Lemma binary_round_le_pow2 s mx ex B :
  Zpos (digits2_pos mx) + ex <= B -> -1021 <= B -> B + 1 <= 1024 ->
  sf_le_pow2 s B (binary_round prec emax s mx ex).
Proof.
  intros Hd HB HB'. unfold binary_round.
  pose proof (shl_align_spec mx ex (fexp prec emax (Zpos (digits2_pos mx) + ex))) as H.
  destruct (shl_align _ _ _) as [mz ez]. destruct H as [He Hm].
  rewrite fexp_eq in He.
  apply bra_le_pow2; try lia.
  rewrite Hm. pose proof (Zdigits2_shift mx (ex - ez) ltac:(lia)). lia.
Qed.

(** A valid value that is not negative and at most [2^0] is at most 1. *)
Lemma sf_le_pow2_le_one f :
  valid_binary f = true -> sf_le_pow2 false 0 f -> SFleb f sf_one = true.
Proof.
  intros V H. destruct f as [s|s| |s m e]; cbn [sf_le_pow2] in H;
    try contradiction.
  - reflexivity.
  - destruct H as [-> H]. apply valid_exponent in V. destruct V as [V _].
    unfold SFleb, SFcompare, sf_one.
    destruct H as [H | [H Hm]].
    + replace (e ?= -52) with Lt; [reflexivity|].
      symmetry. apply Z.compare_lt_iff. lia.
    + assert (e = -52) by lia. subst e.
      assert (Zpos (digits2_pos m) = 53) as Hd by lia.
      rewrite Hd in Hm. change (2 ^ (53 - 1)) with (Zpos 4503599627370496) in Hm.
      injection Hm as ->. rewrite Z.compare_refl, Pos.compare_cont_refl.
      reflexivity.
Qed.

Lemma compare_cont_Eq_Lt m k :
  Pos.compare_cont Eq m k = Lt -> Zpos m < Zpos k.
Proof.
  intros H. apply Pos2Z.pos_lt_pos. apply Pos.compare_lt_iff. exact H.
Qed.

(** [1 - p] for [p] in [[0, 1]], on the specifications. *)
Lemma SFsub_one_unit P :
  valid_binary P = true -> sf_nonneg P -> SFleb P sf_one = true ->
  sf_le_pow2 false 0 (SFsub prec emax sf_one P)
  \/ SFsub prec emax sf_one P = sf_one.
Proof.
  intros V Hn Hle. destruct P as [s|s| |s m e];
    cbn [sf_nonneg] in Hn; try contradiction.
  - right. reflexivity.
  - subst. discriminate.
  - subst s. left. apply valid_exponent in V. destruct V as [V _].
    pose proof (pos_lt_pow_digits m) as Hm.
    assert (e <= -52 /\ (e = -52 -> Zpos m <= 4503599627370496)) as [He Heq].
    { unfold SFleb, SFcompare, sf_one in Hle.
      destruct (e ?= -52) eqn:E.
      - apply Z.compare_eq in E. split; [lia|]. intros _.
        destruct (Pos.compare_cont Eq m 4503599627370496) eqn:C;
          try discriminate.
        + apply Pos.compare_eq in C. subst m. apply Z.le_refl.
        + apply compare_cont_Eq_Lt in C. apply Z.lt_le_incl. exact C.
      - rewrite Z.compare_lt_iff in E. split; lia.
      - discriminate. }
    unfold SFsub, sf_one. rewrite (Z.min_r (-52) e) by lia.
    pose proof (shl_align_spec 4503599627370496 (-52) e) as Hu.
    pose proof (shl_align_spec m e e) as Hv.
    destruct (shl_align 4503599627370496 (-52) e) as [u eu].
    destruct (shl_align m e e) as [v ev].
    cbn [fst cond_Zopp].
    destruct Hu as [Heu Hu]. destruct Hv as [Hev Hv].
    rewrite Z.min_r in Heu by lia. rewrite Z.min_id in Hev. subst eu ev.
    rewrite Z.sub_diag in Hv. change (2 ^ 0) with 1 in Hv. rewrite Z.mul_1_r in Hv.
    change (Zpos 4503599627370496) with (2 ^ 52) in Hu.
    rewrite <- Z.pow_add_r in Hu by lia.
    replace (52 + (-52 - e)) with (- e) in Hu by lia.
    rewrite Hu, Hv.
    assert (Zpos m <= 2 ^ (- e)) as Hmle.
    { destruct (Z.eq_dec e (-52)) as [-> | Hne].
      - change (2 ^ (- -52)) with 4503599627370496. now apply Heq.
      - assert (2 ^ Zpos (digits2_pos m) <= 2 ^ (- e))
          by (apply Z.pow_le_mono_r; lia). lia. }
    destruct (2 ^ (- e) - Zpos m) as [|p|p] eqn:ES; try lia.
    + reflexivity.
    + cbn [binary_normalize]. apply binary_round_le_pow2; try lia.
      assert (Zpos (digits2_pos p) <= - e); [|lia].
      apply digits_le_of_lt; lia.
Qed.

Local Open Scope float_scope.

Lemma sub_one_in01 p :
  in01 p -> in01 (1 - p) /\ Prim2SF (1 - p) <> S754_zero true.
Proof.
  intros Hp. destruct (in01_facts p Hp) as (_ & Hn & _).
  destruct Hp as [_ Hle]. rewrite leb_spec, Prim2SF_one in Hle.
  pose proof (Prim2SF_valid (1 - p)) as V.
  pose proof (SFsub_one_unit _ (Prim2SF_valid p) Hn Hle) as H.
  rewrite <- Prim2SF_one, <- sub_spec in H.
  assert (sf_le_pow2 false 0 (Prim2SF (1 - p))) as Hpow.
  { destruct H as [H | H]; [exact H|].
    rewrite H. unfold sf_one. cbn [sf_le_pow2]. split; [reflexivity|].
    right. split; reflexivity. }
  split.
  - split.
    + apply leb0_fnonneg. unfold fnonneg.
      destruct (Prim2SF (1 - p)); cbn [sf_le_pow2 sf_nonneg] in *; tauto.
    + rewrite leb_spec, Prim2SF_one. now apply sf_le_pow2_le_one.
  - intros E. rewrite E in Hpow. cbn [sf_le_pow2] in Hpow. discriminate.
Qed.

(** ** [clamp01] leaves the numbers of [[0, 1]] as they are *)

Lemma leb_ltb_false x y : (x <=? y) = true -> (y <? x) = false.
Proof.
  rewrite leb_spec, ltb_spec. unfold SFleb, SFltb.
  rewrite (SFcompare_antisym (Prim2SF x) (Prim2SF y)).
  destruct (SFcompare _ _) as [[]|]; simpl; auto; discriminate.
Qed.

Lemma Math_min_1_le x : (x <=? 1) = true -> Math_min 1 x = x.
Proof.
  intros Hle. destruct (leb_fnonnan _ _ Hle) as [Hx _].
  unfold Math_min. rewrite (is_nan_false x Hx).
  change (is_nan 1) with false. cbn [orb].
  rewrite (leb_ltb_false x 1 Hle).
  destruct (x <? 1); [reflexivity|].
  change (get_sign 1) with false. reflexivity.
Qed.

Lemma nonneg_not_pos_zero x :
  (0 <=? x) = true -> (0 <? x) = false ->
  exists s, Prim2SF x = S754_zero s.
Proof.
  rewrite leb_spec, ltb_spec, Prim2SF_zero. unfold SFleb, SFltb, sf_zero.
  destruct (Prim2SF x) as [s|s| |s m e]; cbn [SFcompare].
  - eauto.
  - destruct s; discriminate.
  - discriminate.
  - destruct s; discriminate.
Qed.

Lemma clamp01_fixed x :
  in01 x -> Prim2SF x <> S754_zero true -> clamp01 x = x.
Proof.
  intros [H0 H1] Hz. unfold clamp01. rewrite (Math_min_1_le x H1).
  destruct (leb_fnonnan _ _ H0) as [_ Hx].
  unfold Math_max. rewrite (is_nan_false x Hx).
  change (is_nan 0) with false. cbn [orb].
  destruct (0 <? x) eqn:E; [reflexivity|].
  rewrite (leb_ltb_false 0 x H0). change (get_sign 0) with false. cbv iota.
  destruct (nonneg_not_pos_zero x H0 E) as [s Hs].
  destruct s; [contradiction|].
  rewrite <- (SF2Prim_Prim2SF x), Hs. reflexivity.
Qed.

Lemma is_nan_true x : is_nan x = true -> x = nan.
Proof.
  intros H. destruct (is_nan x) eqn:E; [|discriminate].
  assert (Prim2SF x = S754_nan) as Hs.
  { destruct (Prim2SF x) eqn:Ex; try reflexivity;
      rewrite (is_nan_false x) in E; try discriminate;
      unfold fnonnan; rewrite Ex; exact I. }
  rewrite <- (SF2Prim_Prim2SF x), Hs. reflexivity.
Qed.

(** The clamped value is never [-0]. *)
Lemma clamp01_not_neg_zero x : Prim2SF (clamp01 x) <> S754_zero true.
Proof.
  destruct (is_nan x) eqn:En.
  - apply is_nan_true in En. subst x. discriminate.
  - apply is_nan_fnonnan in En. unfold clamp01.
    destruct (Math_min_spec 1 x I En) as (Hsel & _).
    assert (fnonnan (Math_min 1 x)) as Hm
      by (destruct Hsel as [-> | ->]; [exact I | assumption]).
    unfold Math_max. rewrite (is_nan_false _ Hm).
    change (is_nan 0) with false. cbn [orb].
    destruct (0 <? Math_min 1 x) eqn:E.
    + intros Hz. rewrite ltb_spec, Prim2SF_zero, Hz in E. discriminate.
    + destruct (Math_min 1 x <? 0); [discriminate|].
      change (get_sign 0) with false. discriminate.
Qed.

Lemma clamp01_idem x : clamp01 (clamp01 x) = clamp01 x.
Proof.
  destruct (is_nan x) eqn:En.
  - apply is_nan_true in En. subst x. reflexivity.
  - apply clamp01_fixed.
    + apply clamp01_in01. now apply is_nan_fnonnan.
    + apply clamp01_not_neg_zero.
Qed.

(** ** The range of each scorer *)

Lemma repetitionPenaltyScore_fnonnan text :
  fnonnan (repetitionPenaltyScore text).
Proof.
  unfold repetitionPenaltyScore. cbv zeta.
  destruct (size (tokenizeWords text) <? 6)%Z; [exact I|]. fnn.
Qed.

Lemma jaccard_facts a b : fsmall 54 (jaccard a b) /\ fnonneg (jaccard a b).
Proof.
  unfold jaccard. cbv zeta. split.
  - eapply fsmall_mono; [|fsm]. side.
  - apply div_fnonneg.
    + apply num_fnonneg, size_nonneg.
    + apply num_fpos, or1_pos, size_nonneg.
Qed.

Lemma adjacentSims_facts g sents :
  Forall (fun v => fsmall 54 v /\ fnonneg v) (adjacentSims g sents).
Proof.
  induction sents as [|a [|b rest] IH]; cbn [adjacentSims]; auto.
  constructor; [apply jaccard_facts | exact IH].
Qed.

Lemma adjacentSims_nonEmpty g sents :
  (1 < size sents)%Z -> nonEmpty (adjacentSims g sents) = true.
Proof.
  destruct sents as [|a [|b rest]]; unfold size;
    cbn [List.length adjacentSims nonEmpty]; first [lia | reflexivity].
Qed.

Lemma fold_add_fnonneg (f : float -> float) l acc :
  Forall (fun v => fnonneg (f v)) l -> fnonneg acc ->
  fnonneg (fold_left (fun a v => a + f v) l acc).
Proof.
  revert acc. induction l as [|v l IH]; intros acc Hl Hacc; cbn [fold_left].
  - assumption.
  - inversion Hl; subst. apply IH; [assumption|]. now apply add_fnonneg.
Qed.

Lemma sum_fnonneg l : Forall fnonneg l -> fnonneg (sum l).
Proof.
  intros H. unfold sum.
  apply (fold_add_fnonneg (fun v => v)); [assumption | exact I].
Qed.

Lemma nonEmpty_size {A} (l : list A) : nonEmpty l = true -> (1 <= size l)%Z.
Proof. destruct l; [discriminate|]. unfold size. cbn [List.length]. lia. Qed.

Lemma avg_fnonneg l : Forall fnonneg l -> fnonneg (avg l).
Proof.
  intros H. unfold avg. destruct (nonEmpty l) eqn:E; [|exact I].
  apply div_fnonneg; [now apply sum_fnonneg|].
  apply num_fpos. now apply nonEmpty_size.
Qed.

Lemma varianceOf_fnonneg sims mean :
  Forall (fsmall 54) sims -> fnonnan mean -> nonEmpty sims = true ->
  fnonneg (varianceOf sims mean).
Proof.
  intros Hs Hm Hne. unfold varianceOf.
  apply div_fnonneg; [|apply num_fpos; now apply nonEmpty_size].
  apply (fold_add_fnonneg (fun v => (v - mean) * (v - mean))); [|exact I].
  eapply Forall_impl; [|exact Hs]. intros v Hv. cbv beta.
  apply sq_fnonneg. eapply sub_fnonnan_l; eassumption.
Qed.

Lemma structureBonusOf_fsmall text sents :
  exists B, fsmall B (structureBonusOf text sents).
Proof.
  unfold structureBonusOf. cbv zeta.
  set (avgSent := num (size sents) / num (Z.max 1 (size (paragraphsOf text)))).
  assert (in01 (clamp01 (1 - abs (avgSent - 4) / 6))) as Hc.
  { apply clamp01_in01. unfold avgSent. fnn. }
  destruct (hasHeadingsOf text); eexists; fsm.
Qed.

Lemma calculateCoherenceScore_in01 g text :
  in01 (calculateCoherenceScore g text).
Proof.
  unfold calculateCoherenceScore. cbv zeta.
  destruct (size (sentences text) <=? 1)%Z eqn:E.
  - apply clamp01_in01. destruct (40 <? _)%Z; exact I.
  - apply Z.leb_gt in E.
    pose proof (adjacentSims_facts g (sentences text)) as Hf.
    pose proof (adjacentSims_nonEmpty g (sentences text) E) as Hne.
    assert (Forall fnonneg (adjacentSims g (sentences text))) as Hnn
      by (eapply Forall_impl; [|exact Hf]; intros v Hv; apply Hv).
    assert (Forall (fsmall 54) (adjacentSims g (sentences text))) as Hsm
      by (eapply Forall_impl; [|exact Hf]; intros v Hv; apply Hv).
    pose proof (avg_fnonneg _ Hnn) as Hmean.
    pose proof (varianceOf_fnonneg _ _ Hsm (fnonneg_fnonnan _ Hmean) Hne) as Hvar.
    assert (in01 (Math_min 1
                    (varianceOf (adjacentSims g (sentences text))
                       (avg (adjacentSims g (sentences text))) * 3))) as Hstab.
    { apply Math_min_1_in01. apply mul_fnonneg_r; [assumption | exact I]. }
    destruct (structureBonusOf_fsmall text (sentences text)) as [B HB].
    match goal with
    | |- in01 (clamp01 (clamp01 ?inner - _)) =>
        assert (in01 (clamp01 inner)) as Hcoh
    end.
    { apply clamp01_in01.
      eapply add_fnonnan_r; [|exact HB].
      eapply add_fnonnan_r; [|unfold transScoreOf; fsm].
      eapply add_fnonnan_r; [|fsm].
      apply mul_fnonnan_l; [exact I | now apply fnonneg_fnonnan]. }
    apply clamp01_in01.
    unfold paraPenaltyOf. destruct (existsb _ _); fnn.
Qed.

Lemma sf_large_ge_one f :
  valid_binary f = true -> sf_positive f -> sf_large 1 f ->
  SFleb sf_one f = true.
Proof.
  intros V Hp Hl. destruct f as [| | |[|] m e]; try contradiction.
  apply valid_exponent in V. destruct V as [V _]. cbn [sf_large] in Hl.
  unfold SFleb, SFcompare, sf_one.
  destruct (-52 ?= e)%Z eqn:E.
  - apply Z.compare_eq in E. subst e.
    pose proof (pow_digits_le_pos m) as Hm.
    assert (Zpos (digits2_pos m) = 53)%Z as Hd by lia. rewrite Hd in Hm.
    change (2 ^ (53 - 1))%Z with 4503599627370496%Z in Hm.
    change (Pos.compare_cont Eq 4503599627370496 m)
      with (Pos.compare 4503599627370496 m).
    destruct (Pos.compare 4503599627370496 m) eqn:C; try reflexivity.
    rewrite Pos.compare_gt_iff in C. apply Pos2Z.pos_lt_pos in C.
    clear - C Hm. exfalso. apply (Z.lt_irrefl (Zpos m)).
    eapply Z.lt_le_trans; eassumption.
  - reflexivity.
  - rewrite Z.compare_gt_iff in E. lia.
Qed.

Lemma num_ge_one z : (1 <= z)%Z -> (1 <=? num z) = true.
Proof.
  intros Hz. destruct (num_fpositive z Hz) as [Hp Hl].
  rewrite leb_spec, Prim2SF_one.
  apply sf_large_ge_one; auto using Prim2SF_valid.
Qed.

Section Laws.
Context {R : MathRuntime} {L : MathRuntimeLaws R}.

Lemma calculateVocabularyRichness_in01 g text :
  in01 (calculateVocabularyRichness g text).
Proof.
  unfold calculateVocabularyRichness. cbv zeta.
  destruct (size (contentWords g (tokenizeWords text)) =? 0)%Z eqn:E;
    [apply in01_zero|].
  apply Z.eqb_neq in E.
  pose proof (size_nonneg (contentWords g (tokenizeWords text))) as H0.
  assert (1 <= size (contentWords g (tokenizeWords text)))%Z as H1 by lia.
  match goal with
  | |- in01 (clamp01 (clamp01 ?b * _ + _)) =>
      assert (in01 (clamp01 b)) as Hbase by (apply clamp01_in01; fnn)
  end.
  match goal with
  | |- context [Math_min 1 ?d] =>
      assert (in01 (Math_min 1 d)) as Hdamp
  end.
  { apply Math_min_1_in01. apply div_fnonneg; [|exact I].
    apply leb0_fnonneg. apply log10_nonneg. apply num_ge_one. lia. }
  apply clamp01_in01. fnn.
Qed.

Lemma lengthTarget_cases prompt :
  exists k, (1 <= k <= 10)%Z /\ lengthTarget prompt = (100 + 60 * k)%Z.
Proof.
  unfold lengthTarget, reqCountOf. cbv zeta.
  pose proof (or1_pos _ (size_nonneg (extractRequirements prompt))).
  exists (Z.min 10 (or1 (size (extractRequirements prompt)))).
  split; lia.
Qed.

Ltac length_case :=
  unfold lengthFit; cbv zeta;
  match goal with
  | |- context [Math_pow ?r 2] =>
      assert (fnonneg (Math_pow r 2)) as Hpow
        by (apply leb0_fnonneg, pow2_nonneg, is_nan_false; fnn)
  end;
  match goal with
  | |- context [Math_exp ?a] =>
      assert (in01 (Math_exp a)) as Hexp
        by (apply exp_range, leb0_fnonpos, div_fnonpos;
            [ apply opp_fnonpos; assumption
            | apply fpositive_of_bool; side ])
  end;
  match goal with
  | |- context [clamp01 (?a / 6)] =>
      assert (in01 (clamp01 (a / 6))) as Hbonus
        by (apply clamp01_in01; fnn)
  end;
  apply clamp01_in01;
  repeat match goal with
         | |- context [if ?b then _ else _] => destruct b
         end;
  fnn.

Lemma lengthFit_in01 text rw k :
  (1 <= rw)%Z -> (1 <= k <= 10)%Z ->
  in01 (lengthFit text rw (100 + 60 * k)).
Proof.
  intros Hrw Hk.
  assert (k = 1 \/ k = 2 \/ k = 3 \/ k = 4 \/ k = 5 \/ k = 6 \/ k = 7
          \/ k = 8 \/ k = 9 \/ k = 10)%Z as Hcases by lia.
  pose proof (or1_pos _ (size_nonneg (paragraphsOf text))) as Hpara.
  destruct Hcases as [-> | [-> | [-> | [-> | [-> | [-> | [-> | [-> | [-> | ->]]]]]]]]].
  - change (100 + 60 * 1)%Z with 160%Z. length_case.
  - change (100 + 60 * 2)%Z with 220%Z. length_case.
  - change (100 + 60 * 3)%Z with 280%Z. length_case.
  - change (100 + 60 * 4)%Z with 340%Z. length_case.
  - change (100 + 60 * 5)%Z with 400%Z. length_case.
  - change (100 + 60 * 6)%Z with 460%Z. length_case.
  - change (100 + 60 * 7)%Z with 520%Z. length_case.
  - change (100 + 60 * 8)%Z with 580%Z. length_case.
  - change (100 + 60 * 9)%Z with 640%Z. length_case.
  - change (100 + 60 * 10)%Z with 700%Z. length_case.
Qed.

Lemma calculateLengthScore_in01 text prompt :
  in01 (calculateLengthScore text prompt).
Proof.
  unfold calculateLengthScore. cbv zeta.
  destruct (size (tokenizeWords text) =? 0)%Z eqn:E; [apply in01_zero|].
  apply Z.eqb_neq in E.
  pose proof (size_nonneg (tokenizeWords text)).
  destruct (lengthTarget_cases prompt) as (k & Hk & ->).
  apply lengthFit_in01; lia.
Qed.

End Laws.

(** ** The stand-in host obeys the laws *)

Lemma leb_not_eqb_ltb x y :
  (x <=? y) = true -> (x =? y) = false -> (x <? y) = true.
Proof.
  rewrite leb_spec, eqb_spec, ltb_spec. unfold SFleb, SFeqb, SFltb.
  destruct (SFcompare _ _) as [[]|]; auto.
Qed.

Lemma stubRuntime_laws : MathRuntimeLaws stubRuntime.
Proof.
  constructor; cbn [Math_exp Math_log10 Math_pow stubRuntime].
  - intros x Hx. unfold exp_stub.
    destruct (x =? 0) eqn:E; [apply in01_one|].
    rewrite (leb_not_eqb_ltb x 0 Hx E). split; reflexivity.
  - intros x Hx. unfold log10_stub.
    rewrite (leb_ltb_false 1 x Hx).
    destruct (x <? 10); [reflexivity|]. destruct (x <? 100); reflexivity.
  - intros x Hx. unfold pow_stub. change (2 =? 2) with true. cbv iota.
    apply leb0_fnonneg, sq_fnonneg. now apply is_nan_fnonnan.
Qed.

(** ** The integer counters *)

Lemma fold_addExtra_ge l acc :
  (acc <= fold_left addExtra (filter isMany l) acc)%Z.
Proof.
  revert acc. induction l as [|v l IH]; intros acc; cbn [filter fold_left].
  - lia.
  - destruct v as [n|]; cbn [isMany].
    + destruct (1 <? n)%Z eqn:E; [|apply IH].
      cbn [fold_left addExtra]. apply Z.ltb_lt in E.
      specialize (IH (acc + (n - 1))%Z). lia.
    + apply IH.
Qed.

Lemma repeatsOf_nonneg w : (0 <= repeatsOf w)%Z.
Proof. unfold repeatsOf. cbv zeta. apply fold_addExtra_ge. Qed.

Lemma repetitionPenaltyScore_fsmall text :
  fsmall 3 (repetitionPenaltyScore text).
Proof.
  unfold repetitionPenaltyScore. cbv zeta.
  destruct (size (tokenizeWords text) <? 6)%Z.
  - unfold fsmall. rewrite Prim2SF_one. unfold sf_one, sf_small.
    change (Zpos (digits2_pos 4503599627370496) + -52)%Z with 1%Z. lia.
  - match goal with
    | |- fsmall _ (1 - Math_min 1 ?q) =>
        assert (in01 (Math_min 1 q)) as Hp
    end.
    { apply Math_min_1_in01. apply div_fnonneg.
      - apply num_fnonneg, repeatsOf_nonneg.
      - eapply Math_max_1_large. fsm. }
    eapply fsmall_mono; [|fsm]. side.
Qed.

(** ** The scorers return what [clamp01] leaves as it is *)

Lemma calculateCoherenceScore_clamped g text :
  clamp01 (calculateCoherenceScore g text) = calculateCoherenceScore g text.
Proof.
  unfold calculateCoherenceScore. cbv zeta.
  destruct (size (sentences text) <=? 1)%Z; apply clamp01_idem.
Qed.

Lemma calculateLengthScore_clamped {R : MathRuntime} text prompt :
  clamp01 (calculateLengthScore text prompt) = calculateLengthScore text prompt.
Proof.
  unfold calculateLengthScore. cbv zeta.
  destruct (size (tokenizeWords text) =? 0)%Z; [reflexivity|].
  unfold lengthFit. cbv zeta. apply clamp01_idem.
Qed.

Lemma calculateVocabularyRichness_clamped {R : MathRuntime} g text :
  clamp01 (calculateVocabularyRichness g text)
  = calculateVocabularyRichness g text.
Proof.
  unfold calculateVocabularyRichness. cbv zeta.
  destruct (size (contentWords g (tokenizeWords text)) =? 0)%Z;
    [reflexivity | apply clamp01_idem].
Qed.

Lemma readabilityScore_clamped text :
  clamp01 (fst (readabilityScore text)) = fst (readabilityScore text).
Proof. unfold readabilityScore. cbv zeta. cbn [fst]. apply clamp01_idem. Qed.

Lemma repetitionPenaltyScore_clamped text :
  clamp01 (repetitionPenaltyScore text) = repetitionPenaltyScore text.
Proof.
  unfold repetitionPenaltyScore. cbv zeta.
  destruct (size (tokenizeWords text) <? 6)%Z; [reflexivity|].
  match goal with
  | |- clamp01 (1 - Math_min 1 ?q) = _ =>
      assert (in01 (Math_min 1 q)) as Hp
  end.
  { apply Math_min_1_in01. apply div_fnonneg.
    - apply num_fnonneg, repeatsOf_nonneg.
    - eapply Math_max_1_large. fsm. }
  destruct (sub_one_in01 _ Hp) as [H1 H2]. now apply clamp01_fixed.
Qed.

Section Aggregate.
Context {R : MathRuntime} {L : MathRuntimeLaws R}.

(** The weighted sum is a number when the weights are finite. *)
Lemma weightedSum_fnonnan g response prompt w :
  weights_finite w ->
  fnonnan (weightedSum w
             (calculateCoherenceScore g response)
             (calculateLengthScore response prompt)
             (calculateVocabularyRichness g response)
             (repetitionPenaltyScore response)
             (fst (readabilityScore response))).
Proof.
  intros (Hc & Hl & Hv & Hr & Hd). unfold weightedSum.
  pose proof (calculateCoherenceScore_in01 g response).
  pose proof (calculateLengthScore_in01 response prompt).
  pose proof (calculateVocabularyRichness_in01 g response).
  pose proof (repetitionPenaltyScore_fsmall response).
  pose proof (readabilityScore_in01 response).
  fnn.
Qed.

End Aggregate.

Lemma in01_weights_finite w :
  in01 (Weights.coherence w) -> in01 (Weights.length w) ->
  in01 (Weights.vocab w) -> in01 (Weights.repetition w) ->
  in01 (Weights.readability w) -> weights_finite w.
Proof.
  intros. repeat split; (eapply fsmall_mono; [|apply in01_fsmall; eassumption]);
    reflexivity.
Qed.

Lemma default_weights_finite :
  weights_finite (spread (DEFAULT_WEIGHTS initialState) PartialWeights.empty).
Proof.
  repeat split; (eapply fsmall_mono; [|apply fsmall_fbound]); reflexivity.
Qed.

(** ** The claims *)

(** Reading a field of a result. *)
Ltac fields :=
  cbv zeta;
  unfold score, Duplicate.score, calculateMetrics, Duplicate.calculateMetrics;
  cbn [fst snd ResponseMetrics.coherenceScore ResponseMetrics.lengthScore
       ResponseMetrics.vocabularyRichnessScore
       ResponseMetrics.repetitionPenalty ResponseMetrics.readabilityScore
       ResponseMetrics.overallScore ResponseMetrics.details
       Details.sentenceCount Details.wordCount Details.requirements
       Details.fkGrade].

(** The fields of a result, read off [calculateMetrics]. *)
Lemma score_fields {R : MathRuntime} response prompt weights :
  let m := score response prompt weights in
  ResponseMetrics.coherenceScore m
  = clamp01 (calculateCoherenceScore initialState response)
  /\ ResponseMetrics.lengthScore m
     = clamp01 (calculateLengthScore response prompt)
  /\ ResponseMetrics.vocabularyRichnessScore m
     = clamp01 (calculateVocabularyRichness initialState response)
  /\ ResponseMetrics.repetitionPenalty m
     = clamp01 (repetitionPenaltyScore response)
  /\ ResponseMetrics.readabilityScore m
     = clamp01 (fst (readabilityScore response))
  /\ Details.fkGrade (ResponseMetrics.details m) = fkGrade response.
Proof. fields. repeat split. Qed.

Lemma Z2float_fnonnan z : (0 <= z <= 100)%Z -> fnonnan (Z2float z).
Proof.
  intros Hz. destruct z as [|p|p]; try lia.
  - exact I.
  - destruct (Z2float_pos p) as (mz & E & _).
    + change (2 ^ 53)%Z with 9007199254740992%Z. lia.
    + unfold fnonnan. rewrite E. exact I.
Qed.

(** Whatever the host, a NaN weight makes the overall score of the empty
    response NaN: no transcendental function is called on it. *)
Remark nan_weight_any_host (R : MathRuntime) :
  ResponseMetrics.overallScore (score [] [] nanLength) = nan.
Proof. vm_compute. reflexivity. Qed.

(** C1, counterexample: with the weight of the length score set to NaN,
    the overall score of the empty response is NaN, which is not an integer
    of [[0, 100]]. *)
Lemma C1_counterexample :
  ResponseMetrics.overallScore (@score stubRuntime [] [] nanLength) = nan
  /\ ~ int0to100
         (ResponseMetrics.overallScore (@score stubRuntime [] [] nanLength)).
Proof.
  assert (ResponseMetrics.overallScore (@score stubRuntime [] [] nanLength) = nan)
    as E by (vm_compute; reflexivity).
  split; [exact E|]. rewrite E. intros (z & Hz & Hnan).
  pose proof (Z2float_fnonnan z Hz) as H. rewrite <- Hnan in H. exact H.
Qed.

(** C1, as amended: on a host that obeys [MathRuntimeLaws], for every
    response, prompt and partial weight map each of the five sub-scores is
    in [[0, 1]]; the overall score is an integer of [[0, 100]] whenever the
    weighted sum of the scores is a number, and NaN when it is not; and the
    weighted sum is a number whenever the five effective weights are
    finite. *)
Theorem C1_score_ranges {R : MathRuntime} (L : MathRuntimeLaws R)
    response prompt weights :
  let m := score response prompt weights in
  let w := spread (DEFAULT_WEIGHTS initialState) weights in
  let weighted :=
    weightedSum w
      (calculateCoherenceScore initialState response)
      (calculateLengthScore response prompt)
      (calculateVocabularyRichness initialState response)
      (repetitionPenaltyScore response)
      (fst (readabilityScore response)) in
  in01 (ResponseMetrics.coherenceScore m)
  /\ in01 (ResponseMetrics.lengthScore m)
  /\ in01 (ResponseMetrics.vocabularyRichnessScore m)
  /\ in01 (ResponseMetrics.repetitionPenalty m)
  /\ in01 (ResponseMetrics.readabilityScore m)
  /\ (is_nan weighted = false -> int0to100 (ResponseMetrics.overallScore m))
  /\ (is_nan weighted = true -> ResponseMetrics.overallScore m = nan)
  /\ (weights_finite w -> int0to100 (ResponseMetrics.overallScore m)).
Proof.
  cbv zeta.
  assert (forall weighted,
             is_nan weighted = false ->
             int0to100 (clamp0to100 (Math_round (weighted * 100)))) as Hover.
  { intros weighted Hn. apply clamp0to100_round.
    apply mul_fnonnan_r; [now apply is_nan_fnonnan | exact I]. }
  repeat split.
  - apply clamp01_in01, in01_fnonnan, calculateCoherenceScore_in01.
  - apply clamp01_in01, in01_fnonnan, calculateCoherenceScore_in01.
  - apply clamp01_in01, in01_fnonnan, calculateLengthScore_in01.
  - apply clamp01_in01, in01_fnonnan, calculateLengthScore_in01.
  - apply clamp01_in01, in01_fnonnan, calculateVocabularyRichness_in01.
  - apply clamp01_in01, in01_fnonnan, calculateVocabularyRichness_in01.
  - apply clamp01_in01, repetitionPenaltyScore_fnonnan.
  - apply clamp01_in01, repetitionPenaltyScore_fnonnan.
  - apply clamp01_in01, in01_fnonnan, readabilityScore_in01.
  - apply clamp01_in01, in01_fnonnan, readabilityScore_in01.
  - intros Hn. apply (Hover _ Hn).
  - intros Hn. apply is_nan_true in Hn. fields. rewrite Hn. reflexivity.
  - intros Hw. apply Hover. apply is_nan_false.
    now apply weightedSum_fnonnan.
Qed.

(** C1, witness: the response "Hello." under the default weights on the
    stand-in host. *)
Lemma C1_score_ranges_witness :
  in01 (ResponseMetrics.coherenceScore
          (@score stubRuntime (lit "Hello.") [] PartialWeights.empty))
  /\ int0to100 (ResponseMetrics.overallScore
                  (@score stubRuntime (lit "Hello.") [] PartialWeights.empty)).
Proof.
  pose proof (C1_score_ranges stubRuntime_laws (lit "Hello.") []
                PartialWeights.empty) as H.
  cbv zeta in H. destruct H as (Hc & _ & _ & _ & _ & _ & _ & Ho).
  split; [exact Hc | exact (Ho default_weights_finite)].
Defined.

(** ** Rounding and clamping against their specification *)

Lemma clamp0to100_Z2float_clamp n :
  (- 2 ^ 53 < n < 2 ^ 53)%Z -> clamp0to100 (Z2float n) = Z2float (clamp n 0 100).
Proof.
  intros Hn. unfold clamp. destruct n as [|p|p].
  - reflexivity.
  - destruct (Z_le_gt_dec (Zpos p) 127) as [Hle | Hgt].
    + rewrite clamp0to100_low by lia. f_equal. lia.
    + destruct (Z2float_pos p ltac:(lia)) as (mz & E & _).
      rewrite (clamp0to100_above _ _ _ E).
      * replace (Z.max 0 (Z.min 100 (Zpos p))) with 100%Z by lia.
        reflexivity.
      * assert (8 <= Zpos (digits2_pos p))%Z; [|lia].
        destruct (Z_le_gt_dec 8 (Zpos (digits2_pos p))) as [|Hd];
          [assumption|].
        pose proof (pos_lt_pow_digits p).
        assert (2 ^ Zpos (digits2_pos p) <= 2 ^ 7)%Z
          by (apply Z.pow_le_mono_r; lia).
        change (2 ^ 7)%Z with 128%Z in *. lia.
  - destruct (Z2float_neg p ltac:(lia)) as (mz & E & _).
    rewrite (clamp0to100_negative _ _ _ E).
    replace (Z.max 0 (Z.min 100 (Zneg p))) with 0%Z by lia. reflexivity.
Qed.

(** [round_shift v k] is the integer nearest to [v / 2^k], the larger one
    at a tie. *)
Lemma round_shift_nearest v k :
  (1 <= k)%Z ->
  ((2 * round_shift v k - 1) * 2 ^ k <= 2 * v
   < (2 * round_shift v k + 1) * 2 ^ k)%Z.
Proof.
  intros Hk. unfold round_shift.
  assert (0 < 2 ^ k)%Z as HP by (apply Z.pow_pos_nonneg; lia).
  rewrite Z.pow_add_r by lia. change (2 ^ 1)%Z with 2%Z.
  set (P := (2 ^ k)%Z) in *. clearbody P.
  pose proof (Z.mul_div_le (2 * v + P) (P * 2) ltac:(lia)) as H1.
  pose proof (Z.mul_succ_div_gt (2 * v + P) (P * 2) ltac:(lia)) as H2.
  set (q := ((2 * v + P) / (P * 2))%Z) in *. clearbody q. lia.
Qed.

(** [clamp0to100(Math.round(x))] is NaN for NaN, 100 and 0 for the two
    infinities, and otherwise the integer nearest to [x] brought into
    [[0, 100]]. *)
Lemma clamp0to100_round_spec x :
  match Prim2SF x with
  | S754_nan => clamp0to100 (Math_round x) = nan
  | S754_infinity s => clamp0to100 (Math_round x) = if s then 0 else 100
  | _ =>
      exists n, roundsTo x n
                /\ clamp0to100 (Math_round x) = Z2float (clamp n 0 100)
  end.
Proof.
  unfold Math_round, roundsTo.
  pose proof (SF2Prim_Prim2SF x) as Hback.
  pose proof (Prim2SF_valid x) as Hvalid.
  destruct (Prim2SF x) as [s|s| |s m e] eqn:E.
  - exists 0%Z. split; [reflexivity|]. rewrite <- Hback.
    destruct s; reflexivity.
  - rewrite <- Hback. destruct s; reflexivity.
  - rewrite <- Hback. reflexivity.
  - apply valid_exponent in Hvalid. destruct Hvalid as [Hv _].
    pose proof (pos_lt_pow_digits m) as Hm.
    pose proof (pow_digits_le_pos m) as Hm'.
    destruct (0 <=? e)%Z eqn:He.
    + apply Z.leb_le in He.
      assert (Zpos (digits2_pos m) = 53)%Z as Hd by lia.
      rewrite Hd in Hm'. change (2 ^ (53 - 1))%Z with 4503599627370496%Z in Hm'.
      assert (1 <= 2 ^ e)%Z as Hpow
        by (change 1%Z with (2 ^ 0)%Z; apply Z.pow_le_mono_r; lia).
      eexists. split; [reflexivity|]. unfold clamp. destruct s.
      * rewrite (clamp0to100_negative _ _ _ E).
        assert (cond_Zopp true (Zpos m) * 2 ^ e <= 0)%Z as Hle
          by (cbn [cond_Zopp]; nia).
        assert (Z.max 0 (Z.min 100 (cond_Zopp true (Zpos m) * 2 ^ e)) = 0)%Z
          as -> by lia.
        reflexivity.
      * rewrite (clamp0to100_above _ _ _ E) by lia.
        assert (100 <= cond_Zopp false (Zpos m) * 2 ^ e)%Z as Hge
          by (cbn [cond_Zopp]; nia).
        assert (Z.max 0 (Z.min 100 (cond_Zopp false (Zpos m) * 2 ^ e))
                = 100)%Z as -> by lia.
        reflexivity.
    + apply Z.leb_gt in He.
      exists (round_shift (cond_Zopp s (Zpos m)) (- e)). split.
      * cbv zeta. apply round_shift_nearest. lia.
      * unfold integral.
        destruct (round_shift (cond_Zopp s (Zpos m)) (- e) =? 0)%Z eqn:Hz.
        -- apply Z.eqb_eq in Hz. rewrite Hz. destruct s; reflexivity.
        -- apply clamp0to100_Z2float_clamp. apply round_shift_bound; [lia|].
           assert (2 ^ Zpos (digits2_pos m) <= 2 ^ 53)%Z
             by (apply Z.pow_le_mono_r; lia).
           destruct s; cbn [cond_Zopp]; lia.
Qed.

(** The nearest integer is one integer. *)
Lemma roundsTo_unique x n n' : roundsTo x n -> roundsTo x n' -> n = n'.
Proof.
  unfold roundsTo. destruct (Prim2SF x) as [s|s| |s m e]; try tauto.
  - congruence.
  - cbv zeta. destruct (0 <=? e)%Z eqn:He; [congruence|].
    apply Z.leb_gt in He.
    assert (0 < 2 ^ (- e))%Z as HP by (apply Z.pow_pos_nonneg; lia).
    set (P := (2 ^ (- e))%Z) in *. clearbody P. intros H1 H2. nia.
Qed.

(** C2: the effective weights are the default table with exactly the keys
    present in the overrides replaced, they are not normalized, and the
    overall score is the weighted sum of the five scores, times 100,
    rounded and clamped to [[0, 100]].  The five scores of the sum are the
    five returned in the result: the clamp applied on return changes none
    of them.  Rounded and clamped are meant as the specification words
    them: with [x] the weighted sum times 100, the overall score is the
    integer nearest to [x] (the larger one at a tie) brought into
    [[0, 100]]; it is 100 and 0 for an [x] that is infinite, and NaN for
    one that is NaN. *)
Theorem C2_weighted_overall {R : MathRuntime} response prompt overrides :
  let defaults := DEFAULT_WEIGHTS initialState in
  let w := spread defaults overrides in
  let coherence := calculateCoherenceScore initialState response in
  let length := calculateLengthScore response prompt in
  let vocab := calculateVocabularyRichness initialState response in
  let repetition := repetitionPenaltyScore response in
  let readability := fst (readabilityScore response) in
  let m := score response prompt overrides in
  (Weights.coherence defaults = 0.3 /\ Weights.length defaults = 0.2
   /\ Weights.vocab defaults = 0.25 /\ Weights.repetition defaults = 0.1
   /\ Weights.readability defaults = 0.15)
  /\ Weights.coherence w
     = match PartialWeights.coherence overrides with
       | Some v => v | None => 0.3 end
  /\ Weights.length w
     = match PartialWeights.length overrides with
       | Some v => v | None => 0.2 end
  /\ Weights.vocab w
     = match PartialWeights.vocab overrides with
       | Some v => v | None => 0.25 end
  /\ Weights.repetition w
     = match PartialWeights.repetition overrides with
       | Some v => v | None => 0.1 end
  /\ Weights.readability w
     = match PartialWeights.readability overrides with
       | Some v => v | None => 0.15 end
  /\ ResponseMetrics.overallScore m
     = clamp0to100
         (Math_round
            ((coherence * Weights.coherence w
              + length * Weights.length w
              + vocab * Weights.vocab w
              + repetition * Weights.repetition w
              + readability * Weights.readability w) * 100))
  /\ (ResponseMetrics.coherenceScore m = coherence
      /\ ResponseMetrics.lengthScore m = length
      /\ ResponseMetrics.vocabularyRichnessScore m = vocab
      /\ ResponseMetrics.repetitionPenalty m = repetition
      /\ ResponseMetrics.readabilityScore m = readability)
  /\ ResponseMetrics.overallScore m
     = clamp0to100
         (Math_round
            ((ResponseMetrics.coherenceScore m * Weights.coherence w
              + ResponseMetrics.lengthScore m * Weights.length w
              + ResponseMetrics.vocabularyRichnessScore m * Weights.vocab w
              + ResponseMetrics.repetitionPenalty m * Weights.repetition w
              + ResponseMetrics.readabilityScore m * Weights.readability w)
             * 100))
  /\ (let x :=
        (ResponseMetrics.coherenceScore m * Weights.coherence w
         + ResponseMetrics.lengthScore m * Weights.length w
         + ResponseMetrics.vocabularyRichnessScore m * Weights.vocab w
         + ResponseMetrics.repetitionPenalty m * Weights.repetition w
         + ResponseMetrics.readabilityScore m * Weights.readability w)
        * 100 in
      match Prim2SF x with
      | S754_nan => ResponseMetrics.overallScore m = nan
      | S754_infinity s =>
          ResponseMetrics.overallScore m = if s then 0 else 100
      | _ =>
          exists n : Z,
            roundsTo x n
            /\ ResponseMetrics.overallScore m = Z2float (clamp n 0 100)
            /\ (0 <= clamp n 0 100 <= 100)%Z
      end).
Proof.
  fields.
  rewrite calculateCoherenceScore_clamped, calculateLengthScore_clamped,
    calculateVocabularyRichness_clamped, repetitionPenaltyScore_clamped,
    readabilityScore_clamped.
  repeat split; try reflexivity.
  unfold weightedSum.
  lazymatch goal with
  | |- context [Prim2SF ?x] =>
      pose proof (clamp0to100_round_spec x) as Hr;
      destruct (Prim2SF x) as [s|s| |s m e]
  end; try exact Hr.
  - destruct Hr as (n & H1 & H2). exists n.
    repeat split; try assumption; unfold clamp; lia.
  - destruct Hr as (n & H1 & H2). exists n.
    repeat split; try assumption; unfold clamp; lia.
Qed.

(** Weights that sum to 5 are used as they are: the sum of the scores of
    "Hello." exceeds 1 and the overall score is clamped to 100. *)
Example weights_not_normalized :
  ResponseMetrics.overallScore (@score stubRuntime (lit "Hello.") [] allOnes)
  = 100.
Proof. vm_compute. reflexivity. Qed.

(** With all the weight on coherence the overall score is the coherence
    score, times 100, rounded. *)
Example weight_override_coherence :
  let m := @score stubRuntime
             (lit "The cat sat in a box. The cat slept. However the dog barked.")
             [] onlyCoherence in
  ResponseMetrics.overallScore m
  = Math_round (ResponseMetrics.coherenceScore m * 100).
Proof. vm_compute. reflexivity. Qed.

(** C4, counterexample: for the empty response and the empty prompt the
    two modules return different results. *)
Lemma C4_counterexample :
  @score stubRuntime [] [] PartialWeights.empty
  <> @Duplicate.score stubRuntime [] [] PartialWeights.empty.
Proof.
  intros H.
  apply (f_equal (fun m => Details.requirements (ResponseMetrics.details m))) in H.
  vm_compute in H. discriminate H.
Qed.

(** C4, as amended: the two modules return equal sub-scores, equal overall
    scores and equal diagnostics except for [requirements], which the
    duplicate returns as the array of requirements and [metrics.ts] as
    that array joined with [", "]. *)
Theorem C4_modules_agree {R : MathRuntime} response prompt weights :
  let a := score response prompt weights in
  let b := Duplicate.score response prompt weights in
  ResponseMetrics.coherenceScore a = ResponseMetrics.coherenceScore b
  /\ ResponseMetrics.lengthScore a = ResponseMetrics.lengthScore b
  /\ ResponseMetrics.vocabularyRichnessScore a
     = ResponseMetrics.vocabularyRichnessScore b
  /\ ResponseMetrics.repetitionPenalty a = ResponseMetrics.repetitionPenalty b
  /\ ResponseMetrics.readabilityScore a = ResponseMetrics.readabilityScore b
  /\ ResponseMetrics.overallScore a = ResponseMetrics.overallScore b
  /\ Details.sentenceCount (ResponseMetrics.details a)
     = Details.sentenceCount (ResponseMetrics.details b)
  /\ Details.wordCount (ResponseMetrics.details a)
     = Details.wordCount (ResponseMetrics.details b)
  /\ Details.fkGrade (ResponseMetrics.details a)
     = Details.fkGrade (ResponseMetrics.details b)
  /\ Details.requirements (ResponseMetrics.details b)
     = ReqArray (extractRequirements prompt)
  /\ Details.requirements (ResponseMetrics.details a)
     = ReqString (join (lit ", ") (extractRequirements prompt)).
Proof. fields. repeat split. Qed.

(** C5: for the empty response, whatever the prompt and the weights, the
    length score and the vocabulary richness score are 0. *)
Theorem C5_empty_response {R : MathRuntime} prompt weights :
  ResponseMetrics.lengthScore (score [] prompt weights) = 0
  /\ ResponseMetrics.vocabularyRichnessScore (score [] prompt weights) = 0.
Proof. split; reflexivity. Qed.

(** C6: when the prompt has more than 10 requirements, the requirement
    count used by the length-fit scorer is 10 and its target is 700, not
    [100 + 60 * count]; the score of a response with words is the fit to
    700. *)
Theorem C6_requirement_cap {R : MathRuntime} prompt
    (H : (10 < size (extractRequirements prompt))%Z) :
  reqCountOf prompt = 10%Z
  /\ lengthTarget prompt = 700%Z
  /\ lengthTarget prompt
     <> (100 + 60 * size (extractRequirements prompt))%Z
  /\ forall text,
       size (tokenizeWords text) <> 0%Z ->
       calculateLengthScore text prompt
       = lengthFit text (size (tokenizeWords text)) 700.
Proof.
  assert (reqCountOf prompt = 10%Z) as Hc.
  { unfold reqCountOf, or1.
    destruct (size (extractRequirements prompt) =? 0)%Z eqn:E; [|lia].
    apply Z.eqb_eq in E. lia. }
  assert (lengthTarget prompt = 700%Z) as Ht
    by (unfold lengthTarget; cbv zeta; rewrite Hc; reflexivity).
  repeat split; try assumption.
  - rewrite Ht. lia.
  - intros text Hw. unfold calculateLengthScore. cbv zeta.
    apply Z.eqb_neq in Hw. rewrite Hw, Ht. reflexivity.
Qed.

(** C6, witness: the prompt of 20 bullet lines has 20 requirements. *)
Lemma C6_requirement_cap_witness :
  size (extractRequirements twentyBullets) = 20%Z
  /\ reqCountOf twentyBullets = 10%Z
  /\ lengthTarget twentyBullets = 700%Z.
Proof.
  assert (size (extractRequirements twentyBullets) = 20%Z) as E
    by (vm_compute; reflexivity).
  split; [exact E|].
  assert (10 < size (extractRequirements twentyBullets))%Z as H
    by (rewrite E; reflexivity).
  destruct (@C6_requirement_cap stubRuntime twentyBullets H) as (Hc & Ht & _).
  split; assumption.
Defined.

(** C7: a response with fewer than 6 word tokens has repetition penalty
    score 1, whatever its tokens, and the result carries it unchanged. *)
Theorem C7_short_repetition {R : MathRuntime} response prompt weights
    (H : (size (tokenizeWords response) < 6)%Z) :
  repetitionPenaltyScore response = 1
  /\ ResponseMetrics.repetitionPenalty (score response prompt weights) = 1.
Proof.
  assert (repetitionPenaltyScore response = 1) as E.
  { unfold repetitionPenaltyScore. cbv zeta.
    apply Z.ltb_lt in H. rewrite H. reflexivity. }
  split; [exact E|].
  change (ResponseMetrics.repetitionPenalty (score response prompt weights))
    with (clamp01 (repetitionPenaltyScore response)).
  rewrite E. reflexivity.
Qed.

(** C7, witness: "the cat the cat" repeats its only bigram and has 4
    tokens. *)
Lemma C7_short_repetition_witness :
  (size (tokenizeWords (lit "the cat the cat")) < 6)%Z
  /\ ResponseMetrics.repetitionPenalty
       (@score stubRuntime (lit "the cat the cat") [] PartialWeights.empty) = 1.
Proof.
  assert (size (tokenizeWords (lit "the cat the cat")) < 6)%Z as H
    by (vm_compute; reflexivity).
  split; [exact H|].
  exact (proj2 (@C7_short_repetition stubRuntime (lit "the cat the cat") []
                  PartialWeights.empty H)).
Defined.

Lemma transCount_fold sents acc :
  fold_left (fun a s => a + (if hasTransition s then 1 else 0))%Z sents acc
  = (acc + size (filter hasTransition sents))%Z.
Proof.
  revert acc. induction sents as [|s sents IH]; intros acc;
    cbn [fold_left filter].
  - unfold size. cbn [List.length]. lia.
  - rewrite IH. destruct (hasTransition s); unfold size; cbn [List.length]; lia.
Qed.

(** C8: the bare tokens "in" and "conclusion" are in the transition
    lexicon; in a text of at least two sentences every sentence with one of
    them among its tokens is counted in [transCount], which is the number
    of sentences with a token of the lexicon; [transScore] is
    [min(1, transCount / max(1, sentenceCount - 1))] and enters the
    cohesion with weight 0.1. *)
Theorem C8_bare_in_is_transition g text
    (H : (2 <= size (sentences text))%Z) :
  let sents := sentences text in
  let sims := adjacentSims g sents in
  let mean := avg sims in
  let stability := 1 - Math_min 1 (varianceOf sims mean * 3) in
  has transLex (lit "in") = true
  /\ has transLex (lit "conclusion") = true
  /\ (forall s,
        In (lit "in") (tokenizeWords s)
        \/ In (lit "conclusion") (tokenizeWords s) ->
        hasTransition s = true)
  /\ transCountOf sents = size (filter hasTransition sents)
  /\ (forall s,
        In s sents -> In (lit "in") (tokenizeWords s) ->
        (1 <= transCountOf sents)%Z)
  /\ transScoreOf sents
     = Math_min 1 (num (transCountOf sents) / num (Z.max 1 (size sents - 1)))
  /\ calculateCoherenceScore g text
     = clamp01
         (clamp01 (0.6 * mean + 0.2 * stability + 0.1 * transScoreOf sents
                   + structureBonusOf text sents)
          - paraPenaltyOf (paragraphsOf text)).
Proof.
  cbv zeta.
  assert (forall s,
             In (lit "in") (tokenizeWords s)
             \/ In (lit "conclusion") (tokenizeWords s) ->
             hasTransition s = true) as Hhit.
  { intros s Hs. unfold hasTransition. apply existsb_exists.
    destruct Hs as [Hs | Hs].
    - exists (lit "in"). split; [exact Hs | reflexivity].
    - exists (lit "conclusion"). split; [exact Hs | reflexivity]. }
  assert (transCountOf (sentences text)
          = size (filter hasTransition (sentences text))) as Hcount
    by (unfold transCountOf; rewrite transCount_fold; lia).
  repeat split; try reflexivity; try assumption.
  - intros s Hin Htok. rewrite Hcount.
    assert (In s (filter hasTransition (sentences text))) as Hf
      by (apply filter_In; split; [exact Hin | apply Hhit; now left]).
    unfold size. destruct (filter hasTransition (sentences text));
      [contradiction | cbn [List.length]; lia].
  - unfold calculateCoherenceScore. cbv zeta.
    replace (size (sentences text) <=? 1)%Z with false; [reflexivity|].
    symmetry. apply Z.leb_gt. lia.
Qed.

(** C8, witness: of the two sentences of "We met in Paris. It rained all
    day." the first is a transition sentence, for its "in" alone. *)
Lemma C8_bare_in_is_transition_witness :
  (2 <= size (sentences parisText))%Z
  /\ transCountOf (sentences parisText) = 1%Z
  /\ transScoreOf (sentences parisText) = 1
  /\ transCountOf (sentences parisText)
     = size (filter hasTransition (sentences parisText)).
Proof.
  assert (2 <= size (sentences parisText))%Z as H by (vm_compute; discriminate).
  split; [exact H|].
  split; [vm_compute; reflexivity|].
  split; [vm_compute; reflexivity|].
  pose proof (C8_bare_in_is_transition initialState parisText H) as T.
  cbv zeta in T. exact (proj1 (proj2 (proj2 (proj2 T)))).
Defined.

(** C9, counterexample: the grade of "Hello." is not the number 8.4. *)
Lemma C9_counterexample : fkGrade hello <> 8.4.
Proof.
  intros H. apply (f_equal Prim2SF) in H. vm_compute in H. discriminate H.
Qed.

(** C9, as amended: for the response "Hello." there are 1 word, 1 sentence
    and 2 syllables; the grade is [0.39 + 23.6 - 15.59] in binary64
    arithmetic, which is the float next above 8.4 and within 1e-14 of it;
    the diagnostics expose it as it is; and the readability score is within
    0.01 of 0.733. *)
Theorem C9_hello_readability {R : MathRuntime} prompt weights :
  let m := score hello prompt weights in
  size (tokenizeWords hello) = 1%Z
  /\ size (sentences hello) = 1%Z
  /\ syllablesOf (tokenizeWords hello) = 2%Z
  /\ fkGrade hello = 0.39 * (1 / 1) + 11.8 * (2 / 1) - 15.59
  /\ fkGrade hello = 0.39 + 23.6 - 15.59
  /\ fkGrade hello = next_up 8.4
  /\ (abs (fkGrade hello - 8.4) <=? 1e-14) = true
  /\ Details.fkGrade (ResponseMetrics.details m) = fkGrade hello
  /\ (0.723 <=? ResponseMetrics.readabilityScore m) = true
  /\ (ResponseMetrics.readabilityScore m <=? 0.743) = true.
Proof.
  cbv zeta.
  change (ResponseMetrics.readabilityScore (score hello prompt weights))
    with (clamp01 (fst (readabilityScore hello))).
  change (Details.fkGrade (ResponseMetrics.details (score hello prompt weights)))
    with (fkGrade hello).
  repeat split; vm_compute; reflexivity.
Qed.

(** C10: two calls that differ only in their weights agree on the five
    sub-scores and on all the diagnostics. *)
Theorem C10_weights_frame {R : MathRuntime} response prompt w1 w2 :
  let a := score response prompt w1 in
  let b := score response prompt w2 in
  ResponseMetrics.coherenceScore a = ResponseMetrics.coherenceScore b
  /\ ResponseMetrics.lengthScore a = ResponseMetrics.lengthScore b
  /\ ResponseMetrics.vocabularyRichnessScore a
     = ResponseMetrics.vocabularyRichnessScore b
  /\ ResponseMetrics.repetitionPenalty a = ResponseMetrics.repetitionPenalty b
  /\ ResponseMetrics.readabilityScore a = ResponseMetrics.readabilityScore b
  /\ ResponseMetrics.details a = ResponseMetrics.details b.
Proof. fields. repeat split. Qed.

(** The overall score does depend on the weights. *)
Example overall_depends_on_weights :
  ResponseMetrics.overallScore (@score stubRuntime hello [] PartialWeights.empty)
  <> ResponseMetrics.overallScore (@score stubRuntime hello [] allOnes).
Proof.
  intros H. apply (f_equal Prim2SF) in H. vm_compute in H. discriminate H.
Qed.

(** ** The engine on the heap

    Each function of the engine, run on a heap in which the two bindings
    of the module name their objects, returns what the function on values
    returns and leaves every object it found as it was: what it writes to
    it has made itself. *)

Lemma bind_eq {A B} (m : Heap.M A) (f : A -> Heap.M B) h a h' :
  m h = Some (a, h') -> Heap.bind m f h = f a h'.
Proof. intros E. unfold Heap.bind. rewrite E. reflexivity. Qed.

Lemma bind_none {A B} (m : Heap.M A) (f : A -> Heap.M B) h :
  m h = None -> Heap.bind m f h = None.
Proof. intros E. unfold Heap.bind. rewrite E. reflexivity. Qed.

Lemma nth_error_ext (h new : Heap.heap) r o :
  nth_error h r = Some o -> nth_error (h ++ new) r = Some o.
Proof.
  intros E. rewrite nth_error_app1; [exact E|].
  apply nth_error_Some. congruence.
Qed.

Lemma nth_error_fresh (h new : Heap.heap) o :
  nth_error (h ++ o :: new) (List.length h) = Some o.
Proof.
  rewrite nth_error_app2 by apply Nat.le_refl.
  rewrite Nat.sub_diag. reflexivity.
Qed.

Lemma update_fresh (h new : Heap.heap) o o' :
  Heap.update (List.length h) o' (h ++ o :: new) = h ++ o' :: new.
Proof.
  induction h as [|x h IH]; cbn [List.length app Heap.update];
    [reflexivity|].
  rewrite IH. reflexivity.
Qed.

Lemma holds_ext b h new g :
  Heap.holds b h g -> Heap.holds b (h ++ new) g.
Proof. intros [Hd Hs]. split; apply nth_error_ext; assumption. Qed.

Lemma argument_ext h new w overrides :
  Heap.argument h w overrides -> Heap.argument (h ++ new) w overrides.
Proof.
  destruct w as [r|]; cbn [Heap.argument]; [apply nth_error_ext|trivial].
Qed.

Lemma read_eq h r o :
  nth_error h r = Some o -> Heap.read r h = Some (o, h).
Proof. intros E. unfold Heap.read. rewrite E. reflexivity. Qed.

Ltac reads :=
  let E := fresh in
  intros E; apply read_eq in E;
  cbv beta delta [Heap.setHas Heap.setElements Heap.setSize Heap.numbersOf
                  Heap.stringsOf Heap.valuesOf Heap.readWeights
                  Heap.readPartial Heap.readReadability];
  rewrite (bind_eq _ _ _ _ _ E); reflexivity.

Lemma setHas_eq h s elems x :
  nth_error h s = Some (Heap.OSet elems) ->
  Heap.setHas s x h = Some (has elems x, h).
Proof. reads. Qed.

Lemma setElements_eq h s elems :
  nth_error h s = Some (Heap.OSet elems) ->
  Heap.setElements s h = Some (elems, h).
Proof. reads. Qed.

Lemma setSize_eq h s elems :
  nth_error h s = Some (Heap.OSet elems) ->
  Heap.setSize s h = Some (size elems, h).
Proof. reads. Qed.

Lemma numbersOf_eq h a l :
  nth_error h a = Some (Heap.ONumbers l) ->
  Heap.numbersOf a h = Some (l, h).
Proof. reads. Qed.

Lemma stringsOf_eq h a l :
  nth_error h a = Some (Heap.OStrings l) ->
  Heap.stringsOf a h = Some (l, h).
Proof. reads. Qed.

Lemma valuesOf_eq h c e :
  nth_error h c = Some (Heap.OCounter e) ->
  Heap.valuesOf c h = Some (values e, h).
Proof. reads. Qed.

Lemma readWeights_eq h r w :
  nth_error h r = Some (Heap.OWeights w) ->
  Heap.readWeights r h = Some (w, h).
Proof. reads. Qed.

Lemma readPartial_eq h r w :
  nth_error h r = Some (Heap.OPartial w) ->
  Heap.readPartial r h = Some (w, h).
Proof. reads. Qed.

Lemma readReadability_eq h r score grade :
  nth_error h r = Some (Heap.OReadability score grade) ->
  Heap.readReadability r h = Some ((score, grade), h).
Proof. reads. Qed.

Lemma write_fresh h new o o' :
  Heap.write (List.length h) o' (h ++ o :: new)
  = Some (tt, h ++ o' :: new).
Proof.
  unfold Heap.write. rewrite nth_error_fresh, update_fresh. reflexivity.
Qed.

Lemma pushNumber_eq h new l v :
  Heap.pushNumber (List.length h) v (h ++ Heap.ONumbers l :: new)
  = Some (tt, h ++ Heap.ONumbers (l ++ [v]) :: new).
Proof.
  unfold Heap.pushNumber.
  rewrite (bind_eq _ _ _ _ _ (read_eq _ _ _ (nth_error_fresh h new _))).
  apply write_fresh.
Qed.

Lemma pushString_eq h new l v :
  Heap.pushString (List.length h) v (h ++ Heap.OStrings l :: new)
  = Some (tt, h ++ Heap.OStrings (l ++ [v]) :: new).
Proof.
  unfold Heap.pushString.
  rewrite (bind_eq _ _ _ _ _ (read_eq _ _ _ (nth_error_fresh h new _))).
  apply write_fresh.
Qed.

Lemma bumpAt_eq h new e k :
  Heap.bumpAt (List.length h) k (h ++ Heap.OCounter e :: new)
  = Some (tt, h ++ Heap.OCounter (bump e k) :: new).
Proof.
  unfold Heap.bumpAt.
  rewrite (bind_eq _ _ _ _ _ (read_eq _ _ _ (nth_error_fresh h new _))).
  apply write_fresh.
Qed.

Lemma filterM_eq {A} (p : A -> Heap.M bool) (q : A -> bool) l h :
  (forall x, p x h = Some (q x, h)) ->
  Heap.filterM p l h = Some (filter q l, h).
Proof.
  intros Hp. induction l as [|x l IH]; cbn [Heap.filterM filter];
    [reflexivity|].
  rewrite (bind_eq _ _ _ _ _ (Hp x)), (bind_eq _ _ _ _ _ IH).
  reflexivity.
Qed.

Lemma someM_eq {A} (p : A -> Heap.M bool) (q : A -> bool) l h :
  (forall x, p x h = Some (q x, h)) ->
  Heap.someM p l h = Some (existsb q l, h).
Proof.
  intros Hp. induction l as [|x l IH]; cbn [Heap.someM existsb];
    [reflexivity|].
  rewrite (bind_eq _ _ _ _ _ (Hp x)).
  destruct (q x); [reflexivity|exact IH].
Qed.

Lemma reduceM_eq {A B} (f : B -> A -> Heap.M B) (g : B -> A -> B) l h :
  (forall acc x, f acc x h = Some (g acc x, h)) ->
  forall acc, Heap.reduceM f l acc h = Some (fold_left g l acc, h).
Proof.
  intros Hf. induction l as [|x l IH]; intros acc;
    cbn [Heap.reduceM fold_left]; [reflexivity|].
  rewrite (bind_eq _ _ _ _ _ (Hf acc x)). apply IH.
Qed.

Lemma forOf_bumpAt h new keys :
  forall e,
    Heap.forOf (fun k => Heap.bumpAt (List.length h) k) keys
      (h ++ Heap.OCounter e :: new)
    = Some (tt, h ++ Heap.OCounter (fold_left bump keys e) :: new).
Proof.
  induction keys as [|k keys IH]; intros e; cbn [Heap.forOf fold_left];
    [reflexivity|].
  rewrite (bind_eq _ _ _ _ _ (bumpAt_eq h new e k)). apply IH.
Qed.

Section HeapCalls.

Context {R : MathRuntime} (b : Heap.Bindings) (g : ModuleState).

Lemma heap_contentWords h words :
  Heap.holds b h g ->
  Heap.contentWords b words h = Some (contentWords g words, h).
Proof.
  intros [_ Hs]. unfold Heap.contentWords, contentWords.
  apply filterM_eq. intros w.
  rewrite (bind_eq _ _ _ _ _ (setHas_eq _ _ _ w Hs)). reflexivity.
Qed.

Lemma heap_jaccard h x y xs ys :
  nth_error h x = Some (Heap.OSet xs) ->
  nth_error h y = Some (Heap.OSet ys) ->
  exists new, Heap.jaccard x y h = Some (jaccard xs ys, h ++ new).
Proof.
  intros Hx Hy. unfold Heap.jaccard, jaccard.
  rewrite (bind_eq _ _ _ _ _ (setElements_eq _ _ _ Hx)).
  rewrite (bind_eq _ _ _ _ _
             (filterM_eq _ (has ys) xs h (fun v => setHas_eq _ _ _ v Hy))).
  unfold Heap.newSetOf at 1.
  rewrite (bind_eq _ _ _ _ _ (eq_refl : Heap.alloc _ h = Some (_, _))).
  rewrite (bind_eq _ _ _ _ _
             (setSize_eq _ _ _ (nth_error_fresh h [] _))).
  rewrite (bind_eq _ _ _ _ _
             (setElements_eq _ _ _ (nth_error_ext _ _ _ _ Hx))).
  rewrite (bind_eq _ _ _ _ _
             (setElements_eq _ _ _ (nth_error_ext _ _ _ _ Hy))).
  unfold Heap.newSetOf.
  rewrite (bind_eq _ _ _ _ _ (eq_refl : Heap.alloc _ _ = Some (_, _))).
  rewrite (bind_eq _ _ _ _ _
             (setSize_eq _ _ _ (nth_error_fresh (h ++ _) [] _))).
  rewrite <- app_assoc. eexists. reflexivity.
Qed.

Lemma alloc_eq (h : Heap.heap) o :
  Heap.alloc o h = Some (List.length h, h ++ [o]).
Proof. reflexivity. Qed.

Lemma newSetOf_eq (h : Heap.heap) xs :
  Heap.newSetOf xs h = Some (List.length h, h ++ [Heap.OSet (newSet xs)]).
Proof. reflexivity. Qed.

Lemma heap_adjacentSims_step sims s t rest :
  Heap.adjacentSims b sims (s :: t :: rest)
  = Heap.bind (Heap.contentWords b (tokenizeWords s)) (fun wa =>
    Heap.bind (Heap.newSetOf wa) (fun x =>
    Heap.bind (Heap.contentWords b (tokenizeWords t)) (fun wb =>
    Heap.bind (Heap.newSetOf wb) (fun y =>
    Heap.bind (Heap.jaccard x y) (fun j =>
    Heap.bind (Heap.pushNumber sims j) (fun _ =>
    Heap.adjacentSims b sims (t :: rest))))))).
Proof. reflexivity. Qed.

Lemma adjacentSims_step s t rest :
  adjacentSims g (s :: t :: rest)
  = jaccard (contentSet g s) (contentSet g t) :: adjacentSims g (t :: rest).
Proof. reflexivity. Qed.

Lemma heap_adjacentSims h :
  Heap.holds b h g ->
  forall sents acc new,
    exists new',
      Heap.adjacentSims b (List.length h) sents
        (h ++ Heap.ONumbers acc :: new)
      = Some (tt, h ++ Heap.ONumbers (acc ++ adjacentSims g sents) :: new').
Proof.
  intros Hg sents.
  induction sents as [|s rest IH]; intros acc new.
  - exists new. cbn [Heap.adjacentSims adjacentSims].
    rewrite app_nil_r. reflexivity.
  - destruct rest as [|t rest].
    + exists new. cbn [Heap.adjacentSims adjacentSims].
      rewrite app_nil_r. reflexivity.
    + rewrite heap_adjacentSims_step, adjacentSims_step.
      remember (t :: rest) as sents eqn:Es.
      remember (h ++ Heap.ONumbers acc :: new) as h1 eqn:E1.
      assert (Heap.holds b h1 g) as H1 by (subst h1; apply holds_ext, Hg).
      rewrite (bind_eq _ _ _ _ _ (heap_contentWords h1 _ H1)).
      rewrite (bind_eq _ _ _ _ _ (newSetOf_eq h1 _)).
      rewrite (bind_eq _ _ _ _ _
                 (heap_contentWords _ _ (holds_ext _ _ _ _ H1))).
      rewrite (bind_eq _ _ _ _ _ (newSetOf_eq _ _)).
      destruct (heap_jaccard ((h1 ++ [Heap.OSet (contentSet g s)])
                              ++ [Heap.OSet (contentSet g t)])
                  (List.length h1)
                  (List.length (h1 ++ [Heap.OSet (contentSet g s)]))
                  (contentSet g s) (contentSet g t))
        as [newj Ej].
      { apply nth_error_ext, nth_error_fresh. }
      { apply nth_error_fresh. }
      unfold contentSet in Ej |- *.
      rewrite (bind_eq _ _ _ _ _ Ej).
      subst h1. repeat rewrite <- app_assoc.
      rewrite <- app_comm_cons.
      rewrite (bind_eq _ _ _ _ _ (pushNumber_eq h _ acc _)).
      destruct (IH (acc ++ [jaccard
                              (newSet (contentWords g (tokenizeWords s)))
                              (newSet (contentWords g (tokenizeWords t)))])
                   (new ++ [Heap.OSet
                              (newSet (contentWords g (tokenizeWords s)))]
                        ++ [Heap.OSet
                              (newSet (contentWords g (tokenizeWords t)))]
                        ++ newj))
        as [new' E'].
      exists new'. rewrite E'. rewrite <- app_assoc. reflexivity.
Qed.

Lemma newSet_transLex : newSet transLex = transLex.
Proof. vm_compute. reflexivity. Qed.

Lemma heap_transCountOf h r sents :
  nth_error h r = Some (Heap.OSet (newSet transLex)) ->
  Heap.transCountOf r sents h = Some (transCountOf sents, h).
Proof.
  rewrite newSet_transLex. intros Hr.
  unfold Heap.transCountOf, transCountOf.
  apply reduceM_eq. intros acc s. cbv zeta.
  rewrite (bind_eq _ _ _ _ _
             (someM_eq _ (has transLex) (tokenizeWords s) h
                (fun t => setHas_eq _ _ _ t Hr))).
  reflexivity.
Qed.

Lemma heap_calculateCoherenceScore h text :
  Heap.holds b h g ->
  exists new,
    Heap.calculateCoherenceScore b text h
    = Some (calculateCoherenceScore g text, h ++ new).
Proof.
  intros Hg. unfold Heap.calculateCoherenceScore, calculateCoherenceScore.
  cbv zeta.
  destruct (size (sentences text) <=? 1)%Z.
  { exists []. rewrite app_nil_r. reflexivity. }
  rewrite (bind_eq _ _ _ _ _ (alloc_eq h _)).
  destruct (heap_adjacentSims h Hg (sentences text) [] []) as [new1 E1].
  cbn [app] in E1.
  rewrite (bind_eq _ _ _ _ _ E1).
  rewrite (bind_eq _ _ _ _ _ (numbersOf_eq _ _ _ (nth_error_fresh h new1 _))).
  rewrite (bind_eq _ _ _ _ _ (newSetOf_eq _ _)).
  rewrite (bind_eq _ _ _ _ _
             (heap_transCountOf _ _ (sentences text)
                (nth_error_fresh _ [] _))).
  rewrite <- app_assoc. eexists. reflexivity.
Qed.

Lemma heap_pushRequirements h new lines :
  forall acc,
    Heap.forOf (fun line =>
      match re_itemPrefix line with
      | Some k => Heap.pushString (List.length h) (skipn k line)
      | None =>
          if re_imperative line then Heap.pushString (List.length h) line
          else Heap.ret tt
      end) lines (h ++ Heap.OStrings acc :: new)
    = Some (tt,
            h ++ Heap.OStrings
                   (acc ++ flat_map (fun line =>
                      match re_itemPrefix line with
                      | Some k => [skipn k line]
                      | None => if re_imperative line then [line] else []
                      end) lines) :: new).
Proof.
  induction lines as [|line lines IH]; intros acc;
    cbn [Heap.forOf flat_map].
  - rewrite app_nil_r. reflexivity.
  - destruct (re_itemPrefix line) as [k|]; [|destruct (re_imperative line)].
    + rewrite (bind_eq _ _ _ _ _ (pushString_eq h new acc _)).
      rewrite IH, <- app_assoc. reflexivity.
    + rewrite (bind_eq _ _ _ _ _ (pushString_eq h new acc _)).
      rewrite IH, <- app_assoc. reflexivity.
    + rewrite (bind_eq _ _ _ _ _ (eq_refl : Heap.ret tt _ = Some (tt, _))).
      rewrite IH. reflexivity.
Qed.

Lemma heap_extractRequirements h prompt :
  exists r new,
    Heap.extractRequirements prompt h = Some (r, h ++ new)
    /\ nth_error (h ++ new) r
       = Some (Heap.OStrings (extractRequirements prompt)).
Proof.
  unfold Heap.extractRequirements, extractRequirements. cbv zeta.
  rewrite (bind_eq _ _ _ _ _ (alloc_eq h _)).
  rewrite (bind_eq _ _ _ _ _ (heap_pushRequirements h [] _ [])).
  cbn [app].
  rewrite (bind_eq _ _ _ _ _ (stringsOf_eq _ _ _ (nth_error_fresh h [] _))).
  match goal with |- context [flat_map ?f ?l] => destruct (flat_map f l) end;
    unfold nonEmpty.
  - eexists _, _. rewrite alloc_eq, <- app_assoc.
    split; [reflexivity|].
    rewrite app_assoc. apply nth_error_fresh.
  - eexists _, _. split; [reflexivity|]. apply nth_error_fresh.
Qed.

Lemma heap_calculateLengthScore h text prompt :
  exists new,
    Heap.calculateLengthScore text prompt h
    = Some (calculateLengthScore text prompt, h ++ new).
Proof.
  unfold Heap.calculateLengthScore, calculateLengthScore. cbv zeta.
  destruct (size (tokenizeWords text) =? 0)%Z.
  { exists []. rewrite app_nil_r. reflexivity. }
  destruct (heap_extractRequirements h prompt) as (r & new & E & Hr).
  rewrite (bind_eq _ _ _ _ _ E).
  rewrite (bind_eq _ _ _ _ _ (stringsOf_eq _ _ _ Hr)).
  exists new. reflexivity.
Qed.

Lemma heap_calculateVocabularyRichness h text :
  Heap.holds b h g ->
  exists new,
    Heap.calculateVocabularyRichness b text h
    = Some (calculateVocabularyRichness g text, h ++ new).
Proof.
  intros Hg.
  unfold Heap.calculateVocabularyRichness, calculateVocabularyRichness.
  cbv zeta.
  rewrite (bind_eq _ _ _ _ _ (heap_contentWords h _ Hg)).
  destruct (size (contentWords g (tokenizeWords text)) =? 0)%Z.
  { exists []. rewrite app_nil_r. reflexivity. }
  rewrite (bind_eq _ _ _ _ _ (newSetOf_eq _ _)).
  rewrite (bind_eq _ _ _ _ _ (setSize_eq _ _ _ (nth_error_fresh h [] _))).
  rewrite (bind_eq _ _ _ _ _ (alloc_eq _ _)).
  rewrite (bind_eq _ _ _ _ _ (forOf_bumpAt _ [] _ [])).
  rewrite (bind_eq _ _ _ _ _ (valuesOf_eq _ _ _ (nth_error_fresh _ [] _))).
  rewrite <- app_assoc. eexists. reflexivity.
Qed.

Lemma heap_repetitionPenaltyScore h text :
  exists new,
    Heap.repetitionPenaltyScore text h
    = Some (repetitionPenaltyScore text, h ++ new).
Proof.
  unfold Heap.repetitionPenaltyScore, repetitionPenaltyScore, repeatsOf.
  cbv zeta.
  destruct (size (tokenizeWords text) <? 6)%Z.
  { exists []. rewrite app_nil_r. reflexivity. }
  rewrite (bind_eq _ _ _ _ _ (alloc_eq _ _)).
  rewrite (bind_eq _ _ _ _ _ (forOf_bumpAt _ [] _ [])).
  rewrite (bind_eq _ _ _ _ _ (valuesOf_eq _ _ _ (nth_error_fresh _ [] _))).
  eexists. reflexivity.
Qed.

Lemma heap_readabilityScore (h : Heap.heap) text :
  Heap.readabilityScore text h
  = Some (List.length h,
          h ++ [Heap.OReadability (fst (readabilityScore text))
                  (snd (readabilityScore text))]).
Proof. reflexivity. Qed.

Lemma heap_calculateMetrics_default h response prompt :
  Heap.calculateMetrics b response prompt None h
  = Heap.calculateMetrics b response prompt (Some (List.length h))
      (h ++ [Heap.OPartial PartialWeights.empty]).
Proof. reflexivity. Qed.

Lemma heap_calculateMetrics_object h response prompt weights overrides :
  Heap.holds b h g ->
  nth_error h weights = Some (Heap.OPartial overrides) ->
  exists r new,
    Heap.calculateMetrics b response prompt (Some weights) h
    = Some (r, h ++ new)
    /\ Heap.metricsAt (h ++ new) r
       = Some (fst (calculateMetrics response prompt overrides g))
    /\ (List.length h <= r)%nat.
Proof.
  intros Hg Hw. pose proof Hg as [Hd _].
  unfold Heap.calculateMetrics.
  rewrite (bind_eq _ _ _ _ _ (eq_refl : Heap.ret weights h = Some (_, _))).
  rewrite (bind_eq _ _ _ _ _ (readWeights_eq _ _ _ Hd)).
  rewrite (bind_eq _ _ _ _ _ (readPartial_eq _ _ _ Hw)).
  rewrite (bind_eq _ _ _ _ _ (alloc_eq _ _)).
  unfold Heap.weightsValue.
  set (w := spread (DEFAULT_WEIGHTS g) overrides).
  assert (Heap.holds b (h ++ [Heap.OWeights w]) g) as H1
    by apply holds_ext, Hg.
  destruct (heap_calculateCoherenceScore _ response H1) as [n2 E2].
  rewrite (bind_eq _ _ _ _ _ E2).
  destruct (heap_calculateLengthScore ((h ++ [Heap.OWeights w]) ++ n2)
              response prompt) as [n3 E3].
  rewrite (bind_eq _ _ _ _ _ E3).
  assert (Heap.holds b (((h ++ [Heap.OWeights w]) ++ n2) ++ n3) g) as H3
    by (do 2 apply holds_ext; exact H1).
  destruct (heap_calculateVocabularyRichness _ response H3) as [n4 E4].
  rewrite (bind_eq _ _ _ _ _ E4).
  destruct (heap_repetitionPenaltyScore
              ((((h ++ [Heap.OWeights w]) ++ n2) ++ n3) ++ n4) response)
    as [n5 E5].
  rewrite (bind_eq _ _ _ _ _ E5).
  destruct (heap_extractRequirements
              (((((h ++ [Heap.OWeights w]) ++ n2) ++ n3) ++ n4) ++ n5) prompt)
    as (reqs & n6 & E6 & Hreqs).
  rewrite (bind_eq _ _ _ _ _ E6).
  rewrite (bind_eq _ _ _ _ _ (heap_readabilityScore _ response)).
  assert (nth_error
            (((((((h ++ [Heap.OWeights w]) ++ n2) ++ n3) ++ n4) ++ n5) ++ n6)
             ++ [Heap.OReadability (fst (readabilityScore response))
                   (snd (readabilityScore response))])
            (List.length h) = Some (Heap.OWeights w)) as Hw'
    by (do 6 apply nth_error_ext; apply nth_error_fresh).
  rewrite (bind_eq _ _ _ _ _ (readWeights_eq _ _ _ Hw')).
  rewrite (bind_eq _ _ _ _ _
             (readReadability_eq _ _ _ _ (nth_error_fresh _ [] _))).
  cbv zeta.
  rewrite (bind_eq _ _ _ _ _
             (stringsOf_eq _ _ _ (nth_error_ext _ _ _ _ Hreqs))).
  rewrite (bind_eq _ _ _ _ _ (alloc_eq _ _)).
  rewrite alloc_eq.
  match goal with
  | |- exists r new, Some (?r0, ?h0) = _ /\ _ =>
      assert (exists new, h0 = h ++ new) as [new Enew]
        by (repeat rewrite <- app_assoc; eexists; reflexivity);
      exists r0, new; rewrite <- Enew
  end.
  split; [reflexivity|]. split.
  - unfold Heap.metricsAt. rewrite nth_error_fresh.
    rewrite (nth_error_ext _ _ _ _ (nth_error_fresh _ [] _)).
    reflexivity.
  - rewrite !length_app. apply Nat.le_add_r || lia.
Qed.

Lemma heap_calculateMetrics h response prompt weights overrides :
  Heap.holds b h g ->
  Heap.argument h weights overrides ->
  exists r new,
    Heap.calculateMetrics b response prompt weights h = Some (r, h ++ new)
    /\ Heap.metricsAt (h ++ new) r
       = Some (fst (calculateMetrics response prompt overrides g))
    /\ (List.length h <= r)%nat.
Proof.
  intros Hg Hw. destruct weights as [w|]; cbn [Heap.argument] in Hw.
  - apply heap_calculateMetrics_object; assumption.
  - subst overrides. rewrite heap_calculateMetrics_default.
    destruct (heap_calculateMetrics_object
                (h ++ [Heap.OPartial PartialWeights.empty]) response prompt
                (List.length h) PartialWeights.empty)
      as (r & new & E & Hm & Hr).
    { apply holds_ext, Hg. }
    { apply nth_error_fresh. }
    rewrite <- app_assoc in E, Hm.
    exists r, ([Heap.OPartial PartialWeights.empty] ++ new).
    split; [exact E|]. split; [exact Hm|].
    rewrite length_app in Hr.
    apply Nat.le_trans with (2 := Hr), Nat.le_add_r.
Qed.

(** A call that returns was passed no [weights] or an object of weights,
    as the type of the parameter asks. *)
Lemma heap_calculateMetrics_argument h response prompt weights r h' :
  Heap.holds b h g ->
  Heap.calculateMetrics b response prompt weights h = Some (r, h') ->
  exists overrides, Heap.argument h weights overrides.
Proof.
  intros [Hd _] E. destruct weights as [w|]; cbn [Heap.argument].
  - destruct (Heap.readPartial w h) as [[overrides h0]|] eqn:Ew.
    + exists overrides. revert Ew. unfold Heap.readPartial, Heap.bind, Heap.read.
      destruct (nth_error h w) as [o|]; [|discriminate].
      destruct o; cbv [Heap.throw Heap.ret]; congruence.
    + exfalso. revert E. unfold Heap.calculateMetrics.
      rewrite (bind_eq _ _ _ _ _ (eq_refl : Heap.ret w h = Some (_, _))).
      rewrite (bind_eq _ _ _ _ _ (readWeights_eq _ _ _ Hd)).
      rewrite (bind_none _ _ _ Ew). discriminate.
  - exists PartialWeights.empty. reflexivity.
Qed.

End HeapCalls.

Lemma nth_error_update_other h r r' o :
  r <> r' -> nth_error (Heap.update r o h) r' = nth_error h r'.
Proof.
  revert r r'. induction h as [|x h IH]; intros r r' Hne;
    [destruct r; reflexivity|].
  destruct r as [|r], r' as [|r']; cbn [Heap.update nth_error];
    try reflexivity; [congruence|].
  apply IH. congruence.
Qed.

Lemma newSet_stopwords : newSet Heap.stopwordList = Heap.stopwordList.
Proof. vm_compute. reflexivity. Qed.

Lemma load_holds b h0 h :
  Heap.load h0 = Some (b, h) -> Heap.holds b h initialState.
Proof.
  intros E.
  assert (Heap.load h0
          = Some ({| Heap.DEFAULT_WEIGHTS := List.length h0;
                     Heap.STOPWORDS :=
                       List.length (h0 ++ [Heap.OWeights Heap.defaultWeights])
                  |},
                  (h0 ++ [Heap.OWeights Heap.defaultWeights])
                  ++ [Heap.OSet (newSet Heap.stopwordList)])) as E'
    by reflexivity.
  rewrite E' in E. injection E as <- <-.
  split; cbn [Heap.DEFAULT_WEIGHTS Heap.STOPWORDS].
  - apply nth_error_ext, nth_error_fresh.
  - rewrite newSet_stopwords. apply nth_error_fresh.
Qed.

(** The module's two objects are, in every heap the program reaches, as
    the loading of the module made them. *)
Lemma reachable_holds {R : MathRuntime} b h :
  Heap.reachable b h -> Heap.holds b h initialState.
Proof.
  induction 1 as [h0 h E|h h' _ IH Hstep].
  - apply load_holds with (1 := E).
  - destruct Hstep as [response prompt weights r h h' E|o h|r o h Hd Hs].
    + destruct (heap_calculateMetrics_argument b initialState h response
                  prompt weights r h' IH E) as [overrides Hw].
      destruct (heap_calculateMetrics b initialState h response prompt
                  weights overrides IH Hw) as (r' & new & E' & _).
      rewrite E' in E. injection E as _ <-. apply holds_ext, IH.
    + apply holds_ext, IH.
    + destruct IH as [H1 H2].
      split; rewrite nth_error_update_other; assumption.
Qed.

(** The engine on the heap of the module as loaded and the engine on
    values give "Hello." the same result. *)
Example heap_call_after_load :
  match Heap.bind Heap.load (fun b =>
          @Heap.calculateMetrics stubRuntime b hello [] None) [] with
  | Some (r, h) => Heap.metricsAt h r
  | None => None
  end
  = Some (@score stubRuntime hello [] PartialWeights.empty).
Proof. vm_compute. reflexivity. Qed.

(** C3: in a program that has loaded the module, any two calls of
    [calculateMetrics] with the same response, the same prompt and weights
    of the same value return objects of identical value: the five scores,
    the overall score and every field of the details (the same numbers, a
    NaN being the same as a NaN), whatever the program called, made or
    wrote before and between the two.  Each call returns, its result is an
    object it has made, and the heap it leaves is the heap it found
    followed by objects it has made: it writes to none that was there, so
    that the two objects of the module and the [weights] of the caller are
    after a call what they were before it.  The value returned is that of
    [score], the engine as a function of its three arguments. *)
Theorem C3_deterministic {R : MathRuntime} b h1 h2 response prompt
    weights1 weights2 overrides :
  Heap.reachable b h1 ->
  Heap.reachable b h2 ->
  Heap.argument h1 weights1 overrides ->
  Heap.argument h2 weights2 overrides ->
  exists r1 new1 r2 new2 m,
    Heap.calculateMetrics b response prompt weights1 h1
    = Some (r1, h1 ++ new1)
    /\ Heap.calculateMetrics b response prompt weights2 h2
       = Some (r2, h2 ++ new2)
    /\ Heap.metricsAt (h1 ++ new1) r1 = Some m
    /\ Heap.metricsAt (h2 ++ new2) r2 = Some m
    /\ m = score response prompt overrides
    /\ (List.length h1 <= r1)%nat
    /\ (List.length h2 <= r2)%nat.
Proof.
  intros H1 H2 Hw1 Hw2.
  apply reachable_holds in H1, H2.
  destruct (heap_calculateMetrics b initialState h1 response prompt
              weights1 overrides H1 Hw1) as (r1 & new1 & E1 & M1 & L1).
  destruct (heap_calculateMetrics b initialState h2 response prompt
              weights2 overrides H2 Hw2) as (r2 & new2 & E2 & M2 & L2).
  exists r1, new1, r2, new2, (score response prompt overrides).
  repeat split; assumption.
Qed.

(** C3, witness: "Hello." scored without weights when the module has just
    been loaded, and again with an empty object of weights the caller
    made. *)
Lemma C3_deterministic_witness :
  exists r1 new1 r2 new2 m,
    @Heap.calculateMetrics stubRuntime loadedBindings hello [] None
      loadedHeap
    = Some (r1, loadedHeap ++ new1)
    /\ @Heap.calculateMetrics stubRuntime loadedBindings hello []
         (Some 2%nat) (loadedHeap ++ [Heap.OPartial PartialWeights.empty])
       = Some (r2,
               (loadedHeap ++ [Heap.OPartial PartialWeights.empty]) ++ new2)
    /\ Heap.metricsAt (loadedHeap ++ new1) r1 = Some m
    /\ Heap.metricsAt
         ((loadedHeap ++ [Heap.OPartial PartialWeights.empty]) ++ new2) r2
       = Some m
    /\ m = @score stubRuntime hello [] PartialWeights.empty
    /\ (List.length loadedHeap <= r1)%nat
    /\ (List.length (loadedHeap ++ [Heap.OPartial PartialWeights.empty])
        <= r2)%nat.
Proof.
  assert (@Heap.reachable stubRuntime loadedBindings loadedHeap) as H1.
  { apply Heap.reachable_load with (h0 := []). vm_compute. reflexivity. }
  apply (@C3_deterministic stubRuntime loadedBindings loadedHeap
           (loadedHeap ++ [Heap.OPartial PartialWeights.empty])
           hello [] None (Some 2%nat) PartialWeights.empty).
  - exact H1.
  - apply Heap.reachable_step with (1 := H1). apply Heap.step_alloc.
  - reflexivity.
  - reflexivity.
Defined.

(** * Further properties of the engine

    ** Code units *)

Ltac nbool :=
  unfold isTokenChar, isSpace, isLower, isUpper, isDigit, isWordChar,
    isNewline, in_range, chr_hyphen, chr_space in *;
  repeat match goal with
         | H : _ = false |- _ => apply not_true_iff_false in H
         | |- _ = false => apply not_true_iff_false; intro
         end;
  rewrite ?orb_true_iff, ?andb_true_iff, ?N.leb_le, ?N.eqb_eq in *.

Lemma isTokenChar_not_space c : isTokenChar c = true -> isSpace c = false.
Proof. intros H. nbool. lia. Qed.

Lemma isTokenChar_lower c : isTokenChar c = true -> lowerChar c = [c].
Proof.
  intros H. unfold lowerChar.
  destruct (isUpper c) eqn:U; [exfalso; nbool; lia|].
  destruct (N.eqb c 304) eqn:E1; [exfalso; nbool; lia|].
  destruct (N.eqb c 8490) eqn:E2; [exfalso; nbool; lia|].
  reflexivity.
Qed.

Lemma isTokenChar_keep c : isTokenChar c = true -> keepTokenChar c = c.
Proof.
  intros H. unfold keepTokenChar.
  replace (isLower c || isDigit c || isSpace c || N.eqb c chr_hyphen)%bool
    with true; [reflexivity|].
  symmetry. unfold isTokenChar in H.
  rewrite !orb_true_iff in *. tauto.
Qed.

Lemma keepTokenChar_cases c :
  isTokenChar (keepTokenChar c) = true \/ isSpace (keepTokenChar c) = true.
Proof.
  unfold keepTokenChar.
  destruct (isLower c || isDigit c || isSpace c || N.eqb c chr_hyphen)%bool
    eqn:E.
  - unfold isTokenChar. rewrite !orb_true_iff in *. tauto.
  - right. reflexivity.
Qed.

(** ** [split] *)

(** The pieces of a split are made of code units of the subject. *)
Lemma split_go_Forall (P : N -> Prop) sep s :
  forall prev skip cur,
    Forall P s -> Forall P cur ->
    Forall (Forall P) (split_go sep prev skip cur s).
Proof.
  induction s as [|c s IH]; intros prev skip cur Hs Hc; cbn [split_go].
  - constructor; [|constructor]. now apply Forall_rev.
  - inversion Hs as [|? ? Pc Hs']; subst.
    destruct skip as [|k]; [|now apply IH].
    destruct (sep prev (c :: s)) as [[|k]|].
    + apply IH; [assumption | now constructor].
    + constructor; [now apply Forall_rev | now apply IH].
    + apply IH; [assumption | now constructor].
Qed.

Lemma split_Forall (P : N -> Prop) sep s :
  Forall P s -> Forall (Forall P) (split sep s).
Proof. intros H. now apply split_go_Forall. Qed.

Lemma split_go_sep_step sep prev cur c s k :
  sep prev (c :: s) = Some (S k) ->
  split_go sep prev O cur (c :: s) = rev cur :: split_go sep (Some c) k [] s.
Proof. intros H. cbn [split_go]. now rewrite H. Qed.

(** The pieces of a split at [/\s+/] hold no white space. *)
Lemma split_go_spaces_pieces s :
  forall prev skip cur,
    Forall (fun c => isSpace c = false) cur ->
    Forall (Forall (fun c => isSpace c = false))
      (split_go sep_spaces prev skip cur s).
Proof.
  induction s as [|c s IH]; intros prev skip cur Hc; cbn [split_go].
  - constructor; [|constructor]. now apply Forall_rev.
  - destruct skip as [|k]; [|now apply IH].
    unfold sep_spaces. cbn [takeWhile].
    destruct (isSpace c) eqn:E; cbn [List.length some_pos].
    + constructor; [now apply Forall_rev | apply IH; constructor].
    + apply IH. now constructor.
Qed.

Lemma split_go_spaces_prev s :
  forall prev prev' skip cur,
    split_go sep_spaces prev skip cur s = split_go sep_spaces prev' skip cur s.
Proof.
  induction s as [|c s IH]; intros prev prev' skip cur; cbn [split_go].
  - reflexivity.
  - destruct skip as [|k]; [|apply IH].
    unfold sep_spaces. reflexivity.
Qed.

(** Reading through a run without white space. *)
Lemma split_go_spaces_run t :
  forall prev cur rest,
    Forall (fun c => isSpace c = false) t ->
    split_go sep_spaces prev O cur (t ++ rest)
    = split_go sep_spaces prev O (rev t ++ cur) rest.
Proof.
  induction t as [|c t IH]; intros prev cur rest Ht.
  - reflexivity.
  - inversion Ht as [|? ? Hc Ht']; subst.
    cbn [app split_go]. unfold sep_spaces at 1. cbn [takeWhile].
    rewrite Hc. cbn [List.length some_pos].
    rewrite (split_go_spaces_prev _ (Some c) prev).
    rewrite IH by assumption. cbn [rev]. now rewrite <- app_assoc.
Qed.

Lemma isToken_spacefree t :
  isToken t -> Forall (fun c => isSpace c = false) t.
Proof.
  intros [_ H]. eapply Forall_impl; [|exact H].
  intros c. apply isTokenChar_not_space.
Qed.

Lemma join_cons2 sep x y a :
  join sep (x :: y :: a) = x ++ sep ++ join sep (y :: a).
Proof. reflexivity. Qed.

Lemma join_head_token t ts :
  isToken t ->
  exists c m, join [chr_space] (t :: ts) = c :: m /\ isSpace c = false.
Proof.
  intros [Hne Ht]. destruct t as [|c t']; [contradiction|].
  inversion Ht as [|? ? Hc _]; subst.
  exists c. destruct ts as [|y a].
  - exists t'. split; [reflexivity | now apply isTokenChar_not_space].
  - eexists. rewrite join_cons2. split; [reflexivity|].
    now apply isTokenChar_not_space.
Qed.

(** Splitting the tokens joined by single spaces gives the tokens back. *)
Lemma split_go_spaces_join ts :
  forall t prev cur,
    Forall isToken (t :: ts) ->
    split_go sep_spaces prev O cur (join [chr_space] (t :: ts))
    = (rev cur ++ t) :: ts.
Proof.
  induction ts as [|y a IH]; intros t prev cur Hts.
  - inversion Hts as [|? ? Ht _]; subst. cbn [join].
    rewrite <- (app_nil_r t) at 1.
    rewrite split_go_spaces_run by now apply isToken_spacefree.
    cbn [split_go]. now rewrite rev_app_distr, rev_involutive.
  - inversion Hts as [|? ? Ht Hrest]; subst.
    rewrite join_cons2.
    rewrite split_go_spaces_run by now apply isToken_spacefree.
    inversion Hrest as [|? ? Hy _]; subst.
    destruct (join_head_token y a Hy) as (c & m & Ej & Hc).
    cbn [app].
    assert (sep_spaces prev (chr_space :: join [chr_space] (y :: a))
            = Some 1%nat) as Hsep.
    { rewrite Ej. unfold sep_spaces.
      change (takeWhile isSpace (chr_space :: c :: m)) with
        (chr_space :: takeWhile isSpace (c :: m)).
      cbn [takeWhile]. rewrite Hc. reflexivity. }
    rewrite (split_go_sep_step _ _ _ _ _ _ Hsep).
    rewrite (IH y (Some chr_space) [] Hrest).
    now rewrite rev_app_distr, rev_involutive.
Qed.

Lemma flat_map_lower_tokens s :
  Forall (fun c => lowerChar c = [c]) s -> toLowerCase s = s.
Proof.
  unfold toLowerCase. induction 1 as [|c s Hc _ IH]; cbn [flat_map].
  - reflexivity.
  - now rewrite Hc, IH.
Qed.

Lemma map_id_Forall {A} (f : A -> A) l :
  Forall (fun c => f c = c) l -> map f l = l.
Proof.
  induction 1 as [|c s Hc _ IH]; cbn [map]; [reflexivity|].
  now rewrite Hc, IH.
Qed.

(** The code units of tokens joined by spaces are token code units or the
    space. *)
Lemma join_tokens_chars ts :
  Forall isToken ts ->
  Forall (fun c => isTokenChar c = true \/ c = chr_space)
    (join [chr_space] ts).
Proof.
  induction 1 as [|t ts [_ Ht] Hts IH]; [constructor|].
  destruct ts as [|y a].
  - cbn [join]. eapply Forall_impl; [|exact Ht]. now left.
  - rewrite join_cons2. apply Forall_app. split.
    + eapply Forall_impl; [|exact Ht]. now left.
    + constructor; [now right | exact IH].
Qed.

Lemma filterBoolean_tokens ts : Forall isToken ts -> filterBoolean ts = ts.
Proof.
  unfold filterBoolean.
  induction 1 as [|t ts [Hne _] _ IH]; cbn [filter]; [reflexivity|].
  destruct t; [contradiction|]. cbn [nonEmpty]. now rewrite IH.
Qed.

Lemma tokenizeWords_of_tokens ts :
  Forall isToken ts -> tokenizeWords (join [chr_space] ts) = ts.
Proof.
  intros Hts. unfold tokenizeWords, normalizeText.
  pose proof (join_tokens_chars ts Hts) as Hc.
  rewrite flat_map_lower_tokens.
  2:{ eapply Forall_impl; [|exact Hc]. intros c [H | ->].
      - now apply isTokenChar_lower.
      - reflexivity. }
  rewrite map_id_Forall.
  2:{ eapply Forall_impl; [|exact Hc]. intros c [H | ->].
      - now apply isTokenChar_keep.
      - reflexivity. }
  destruct ts as [|t ts]; [reflexivity|].
  unfold split. rewrite split_go_spaces_join by assumption.
  cbn [rev app]. now apply filterBoolean_tokens.
Qed.

Lemma tokenizeWords_isToken text : Forall isToken (tokenizeWords text).
Proof.
  unfold tokenizeWords, filterBoolean.
  set (s := map keepTokenChar (normalizeText text)).
  assert (Forall (fun c => isTokenChar c = true \/ isSpace c = true) s) as Hs.
  { unfold s. apply Forall_forall. intros c Hc.
    apply in_map_iff in Hc. destruct Hc as (c0 & <- & _).
    apply keepTokenChar_cases. }
  pose proof (split_Forall _ sep_spaces s Hs) as H1.
  pose proof (split_go_spaces_pieces s None O [] ltac:(constructor)) as H2.
  fold (split sep_spaces s) in H2.
  apply Forall_forall. intros t Ht. apply filter_In in Ht.
  destruct Ht as [Hin Hne].
  rewrite Forall_forall in H1, H2.
  specialize (H1 t Hin). specialize (H2 t Hin).
  split.
  - destruct t; [discriminate | discriminate].
  - rewrite Forall_forall in *. intros c Hc.
    destruct (H1 c Hc) as [H | H]; [exact H|].
    rewrite (H2 c Hc) in H. discriminate.
Qed.

(** ** [trim] *)

Lemma dropWhile_head {A} (f : A -> bool) l :
  dropWhile f l = [] \/ exists a m, dropWhile f l = a :: m /\ f a = false.
Proof.
  induction l as [|x l IH]; cbn [dropWhile]; [now left|].
  destruct (f x) eqn:E; [exact IH|]. right. now exists x, l.
Qed.

Lemma takeWhile_dropWhile {A} (f : A -> bool) l :
  l = takeWhile f l ++ dropWhile f l.
Proof.
  induction l as [|x l IH]; cbn [takeWhile dropWhile]; [reflexivity|].
  destruct (f x); [cbn [app]; now f_equal | reflexivity].
Qed.

Lemma takeWhile_Forall {A} (f : A -> bool) l :
  Forall (fun x => f x = true) (takeWhile f l).
Proof.
  induction l as [|x l IH]; cbn [takeWhile]; [constructor|].
  destruct (f x) eqn:E; [now constructor | constructor].
Qed.

Lemma dropWhile_nil_iff {A} (f : A -> bool) l :
  dropWhile f l = [] <-> Forall (fun x => f x = true) l.
Proof.
  induction l as [|x l IH]; cbn [dropWhile].
  - split; [constructor | reflexivity].
  - destruct (f x) eqn:E.
    + rewrite IH. split; [now constructor | now inversion 1].
    + split; [discriminate|]. inversion 1; congruence.
Qed.

Lemma dropWhile_fixed {A} (f : A -> bool) a m :
  f a = false -> dropWhile f (a :: m) = a :: m.
Proof. intros H. cbn [dropWhile]. now rewrite H. Qed.

Lemma wellTrimmed_trim s : wellTrimmed s -> trim s = s.
Proof.
  intros [(a & m & -> & Ha) (b & m' & Er & Hb)]. unfold trim.
  rewrite (dropWhile_fixed _ a m Ha), Er, (dropWhile_fixed _ b m' Hb), <- Er.
  apply rev_involutive.
Qed.

Lemma wellTrimmed_nonEmpty s : wellTrimmed s -> s <> [].
Proof. intros [(a & m & -> & _) _]. discriminate. Qed.

(** What is left of a string whose last code unit is not white space, from
    any position on and past the white space there. *)
Lemma dropWhile_suffix_trimmed pre u b m :
  rev (pre ++ u) = b :: m -> isSpace b = false -> u <> [] ->
  wellTrimmed (dropWhile isSpace u).
Proof.
  intros Er Hb Hu.
  assert (exists m1, rev u = b :: m1) as [m1 Eu].
  { rewrite rev_app_distr in Er. destruct (rev u) as [|x r] eqn:E.
    - apply (f_equal (@rev N)) in E. rewrite rev_involutive in E.
      now subst.
    - cbn [app] in Er. injection Er as -> _. now exists r. }
  pose proof (takeWhile_dropWhile isSpace u) as Hsplit.
  assert (exists m2, rev (dropWhile isSpace u) = b :: m2) as [m2 Ed].
  { rewrite Hsplit, rev_app_distr in Eu.
    destruct (rev (dropWhile isSpace u)) as [|x r] eqn:E.
    - cbn [app] in Eu.
      pose proof (takeWhile_Forall isSpace u) as Hall.
      apply Forall_rev in Hall. rewrite Eu in Hall.
      inversion Hall; congruence.
    - cbn [app] in Eu. injection Eu as -> _. now exists r. }
  split.
  - destruct (dropWhile_head isSpace u) as [E | H]; [|exact H].
    rewrite E in Ed. discriminate.
  - now exists b, m2.
Qed.

Lemma trim_wellTrimmed s : trim s <> [] -> wellTrimmed (trim s).
Proof.
  intros Hne. unfold trim in *.
  set (d := dropWhile isSpace s) in *.
  destruct (dropWhile_head isSpace (rev d)) as [E | (b & m & E & Hb)].
  - rewrite E in Hne. now contradiction Hne.
  - rewrite E in *. split; [|exists b, m; now rewrite rev_involutive].
    pose proof (takeWhile_dropWhile isSpace (rev d)) as Hsplit.
    rewrite E in Hsplit. apply (f_equal (@rev N)) in Hsplit.
    rewrite rev_involutive, rev_app_distr in Hsplit.
    destruct (dropWhile_head isSpace s) as [E0 | (a & m0 & E0 & Ha)];
      fold d in E0.
    + rewrite E0 in E. discriminate.
    + rewrite E0 in Hsplit.
      destruct (rev (b :: m)) as [|x r] eqn:Er.
      * apply (f_equal (@rev N)) in Er. rewrite rev_involutive in Er.
        discriminate.
      * cbn [app] in Hsplit. injection Hsplit as <- _. now exists a, r.
Qed.

Lemma trim_idempotent s : trim (trim s) = trim s.
Proof.
  destruct (trim s) as [|c t] eqn:E; [reflexivity|].
  rewrite <- E. apply wellTrimmed_trim, trim_wellTrimmed.
  rewrite E. discriminate.
Qed.

Lemma trim_nil_iff s : trim s = [] <-> Forall (fun c => isSpace c = true) s.
Proof.
  unfold trim. split.
  - intros H. apply (f_equal (@rev N)) in H. rewrite rev_involutive in H.
    cbn [rev] in H. apply dropWhile_nil_iff in H. apply Forall_rev in H.
    rewrite rev_involutive in H.
    rewrite (takeWhile_dropWhile isSpace s). apply Forall_app. split.
    + apply takeWhile_Forall.
    + exact H.
  - intros H. apply dropWhile_nil_iff in H. now rewrite H.
Qed.

(** The non-empty trimmed pieces are well trimmed. *)
Lemma filterBoolean_trim_wellTrimmed pieces :
  Forall wellTrimmed (filterBoolean (map trim pieces)).
Proof.
  apply Forall_forall. intros t Ht. unfold filterBoolean in Ht.
  apply filter_In in Ht. destruct Ht as [Hin Hne].
  apply in_map_iff in Hin. destruct Hin as (p & <- & _).
  apply trim_wellTrimmed. destruct (trim p); [discriminate | discriminate].
Qed.

Lemma filterBoolean_nil pieces :
  Forall (fun p => p = []) pieces -> filterBoolean pieces = [].
Proof.
  unfold filterBoolean. induction 1 as [|p l -> _ IH]; [reflexivity|].
  cbn [filter nonEmpty]. exact IH.
Qed.

Lemma sentences_wellTrimmed text : Forall wellTrimmed (sentences text).
Proof.
  unfold sentences. cbv zeta.
  destruct (nonEmpty _).
  - apply filterBoolean_trim_wellTrimmed.
  - apply (filterBoolean_trim_wellTrimmed [text]).
Qed.

Lemma sentences_nil_iff text : sentences text = [] <-> trim text = [].
Proof.
  unfold sentences. cbv zeta. split.
  - destruct (filterBoolean (map trim (split sep_sentence text))) as [|x l];
      cbn [nonEmpty]; [|discriminate].
    destruct (trim text); [reflexivity | discriminate].
  - intros H. pose proof H as Hall. apply trim_nil_iff in Hall.
    assert (filterBoolean (map trim (split sep_sentence text)) = []) as ->.
    { apply filterBoolean_nil. apply Forall_forall. intros p Hp.
      apply in_map_iff in Hp. destruct Hp as (q & <- & Hq).
      apply trim_nil_iff.
      pose proof (split_Forall _ sep_sentence text Hall) as Hpieces.
      rewrite Forall_forall in Hpieces. now apply Hpieces. }
    cbn [nonEmpty]. rewrite H. reflexivity.
Qed.

(** ** Requirements *)

Lemma promptLines_wellTrimmed prompt : Forall wellTrimmed (promptLines prompt).
Proof. apply filterBoolean_trim_wellTrimmed. Qed.

Lemma skipn_length_takeWhile {A} (f : A -> bool) l :
  skipn (List.length (takeWhile f l)) l = dropWhile f l.
Proof.
  induction l as [|x l IH]; cbn [takeWhile dropWhile]; [reflexivity|].
  destruct (f x); [exact IH | reflexivity].
Qed.

Lemma some_pos_Some n j : some_pos n = Some j -> j = n /\ n <> O.
Proof. destruct n; [discriminate|]. intros [= <-]. now split. Qed.

(** The text of a list item after its marker and the white space. *)
Lemma re_itemPrefix_rest line k :
  wellTrimmed line -> re_itemPrefix line = Some k ->
  wellTrimmed (skipn k line).
Proof.
  intros [_ (b & m & Er & Hb)] Hk.
  unfold re_itemPrefix, andThen in Hk.
  destruct (orElse bulletMarker numberMarker line) as [i|]; [|discriminate].
  unfold spaces1 in Hk.
  destruct (some_pos (List.length (takeWhile isSpace (skipn i line))))
    as [j|] eqn:Ej; [|discriminate].
  injection Hk as <-. apply some_pos_Some in Ej. destruct Ej as [-> Hj].
  rewrite Nat.add_comm, <- skipn_skipn, skipn_length_takeWhile.
  apply (dropWhile_suffix_trimmed (firstn i line) (skipn i line) b m).
  - now rewrite firstn_skipn.
  - exact Hb.
  - intros E. rewrite E in Hj. now apply Hj.
Qed.

Lemma extracted_wellTrimmed lines :
  Forall wellTrimmed lines ->
  Forall wellTrimmed
    (flat_map (fun line =>
       match re_itemPrefix line with
       | Some k => [skipn k line]
       | None => if re_imperative line then [line] else []
       end) lines).
Proof.
  induction 1 as [|line lines Hl _ IH]; cbn [flat_map]; [constructor|].
  apply Forall_app. split; [|exact IH].
  destruct (re_itemPrefix line) as [k|] eqn:E.
  - constructor; [|constructor]. now apply re_itemPrefix_rest.
  - destruct (re_imperative line); [|constructor].
    constructor; [assumption | constructor].
Qed.

(** ** Syllables *)

Lemma vowelGroups_bounds w :
  forall b, (0 <= vowelGroups b w <= size w)%Z.
Proof.
  unfold size. induction w as [|c w IH]; intros b; cbn [vowelGroups List.length].
  - lia.
  - destruct (isVowel c).
    + specialize (IH true). destruct b; lia.
    + specialize (IH false). lia.
Qed.

Lemma dropBoundaryE_length w :
  (List.length (dropBoundaryE w) <= List.length w)%nat.
Proof.
  induction w as [|c w IH]; cbn [dropBoundaryE List.length]; [lia|].
  destruct (N.eqb c chr_e && boundaryAfterWord w)%bool; cbn [List.length]; lia.
Qed.

(** ** Sets of strings *)

Lemma str_eqb_eq a b : str_eqb a b = true <-> a = b.
Proof.
  unfold str_eqb. destruct (list_eq_dec N.eq_dec a b); split; congruence.
Qed.

Lemma str_eqb_refl a : str_eqb a a = true.
Proof. now apply str_eqb_eq. Qed.

Lemma has_In set x : has set x = true <-> In x set.
Proof.
  unfold has. rewrite existsb_exists. split.
  - intros (y & Hy & E). apply str_eqb_eq in E. now subst.
  - intros H. exists x. split; [assumption | apply str_eqb_refl].
Qed.

Lemma has_false set x : has set x = false <-> ~ In x set.
Proof.
  rewrite <- has_In. destruct (has set x); split; congruence.
Qed.

Lemma newSet_go_In xs :
  forall seen x, In x (newSet_go seen xs) <-> In x seen \/ In x xs.
Proof.
  induction xs as [|y xs IH]; intros seen x; cbn [newSet_go].
  - rewrite <- in_rev. cbn [In]. tauto.
  - destruct (has seen y) eqn:E; rewrite IH; cbn [In].
    + apply has_In in E. split; [tauto|].
      intros [H | [<- | H]]; tauto.
    + tauto.
Qed.

Lemma newSet_go_NoDup xs :
  forall seen, NoDup seen -> NoDup (newSet_go seen xs).
Proof.
  induction xs as [|y xs IH]; intros seen Hs; cbn [newSet_go].
  - now apply NoDup_rev.
  - destruct (has seen y) eqn:E; apply IH; [assumption|].
    constructor; [now apply has_false | assumption].
Qed.

Lemma newSet_In xs x : In x (newSet xs) <-> In x xs.
Proof. unfold newSet. rewrite newSet_go_In. cbn [In]. tauto. Qed.

Lemma newSet_NoDup xs : NoDup (newSet xs).
Proof. apply newSet_go_NoDup. constructor. Qed.

Lemma NoDup_same_length {A} (l l' : list A) :
  NoDup l -> NoDup l' -> (forall x, In x l <-> In x l') ->
  List.length l = List.length l'.
Proof.
  intros Hl Hl' H. apply Nat.le_antisymm; apply NoDup_incl_length;
    try assumption; intros x Hx; now apply H.
Qed.

(** The size of a set depends on the elements only. *)
Lemma newSet_size_ext xs ys :
  (forall x, In x xs <-> In x ys) -> size (newSet xs) = size (newSet ys).
Proof.
  intros H. unfold size. f_equal.
  apply NoDup_same_length; try apply newSet_NoDup.
  intros x. now rewrite !newSet_In.
Qed.

Lemma newSet_size_incl xs ys :
  (forall x, In x xs -> In x ys) -> (size (newSet xs) <= size (newSet ys))%Z.
Proof.
  intros H. unfold size. apply inj_le.
  apply NoDup_incl_length; [apply newSet_NoDup|].
  intros x. rewrite !newSet_In. apply H.
Qed.

Lemma newSet_size_NoDup xs : NoDup xs -> size (newSet xs) = size xs.
Proof.
  intros H. unfold size. f_equal.
  apply NoDup_same_length; [apply newSet_NoDup | assumption|].
  apply newSet_In.
Qed.

Lemma newSet_size_le xs : (size (newSet xs) <= size xs)%Z.
Proof.
  unfold size. apply inj_le. apply NoDup_incl_length; [apply newSet_NoDup|].
  intros x. apply newSet_In.
Qed.

Lemma newSet_idempotent_size xs : size (newSet (newSet xs)) = size (newSet xs).
Proof. apply newSet_size_NoDup, newSet_NoDup. Qed.

(** ** Objects as counters *)

(** No property of [Object.prototype] has a space in its name. *)
Lemma prototype_keys_spaceless k :
  In chr_space k -> has objectPrototypeKeys k = false.
Proof.
  intros Hin. apply has_false. intros Hk.
  assert (forallb (fun key => negb (existsb (N.eqb chr_space) key))
            objectPrototypeKeys = true) as H by (vm_compute; reflexivity).
  rewrite forallb_forall in H. specialize (H k Hk).
  apply negb_true_iff in H.
  assert (existsb (N.eqb chr_space) k = true) as H'.
  { apply existsb_exists. exists chr_space. split; [assumption|].
    apply N.eqb_refl. }
  congruence.
Qed.

Lemma bump_own o k :
  has objectPrototypeKeys k = false ->
  bump o k = set o k (bumped (getOwn o k)).
Proof.
  intros H. unfold bump, get, bumped. destruct (getOwn o k); [reflexivity|].
  now rewrite H.
Qed.

Lemma set_bumped_keys o k :
  forall x, In x (map fst (set o k (bumped (getOwn o k))))
            <-> x = k \/ In x (map fst o).
Proof.
  induction o as [|[k' v'] o IH]; intros x; cbn [set getOwn map fst In].
  - split; [intros [<- | []]; now left | intros [-> | []]; now left].
  - destruct (str_eqb k k') eqn:E; cbn [map fst In].
    + apply str_eqb_eq in E. subst. intuition (subst; auto).
    + rewrite IH. intuition (subst; auto).
Qed.

Lemma set_bumped_NoDup o k :
  NoDup (map fst o) -> NoDup (map fst (set o k (bumped (getOwn o k)))).
Proof.
  induction o as [|[k' v'] o IH]; intros H; cbn [set getOwn map fst].
  - constructor; [intros [] | constructor].
  - inversion H as [|? ? Hn Ho]; subst.
    destruct (str_eqb k k') eqn:E; cbn [map fst].
    + now constructor.
    + constructor; [|now apply IH].
      rewrite set_bumped_keys. intros [-> | Hin]; [|contradiction].
      rewrite str_eqb_refl in E. discriminate.
Qed.

Lemma set_bumped_counts o k :
  counts o ->
  counts (set o k (bumped (getOwn o k)))
  /\ counted (set o k (bumped (getOwn o k))) = (counted o + 1)%Z.
Proof.
  unfold counts.
  induction o as [|[k' v'] o IH]; intros H; cbn [set getOwn].
  - split; [|reflexivity]. constructor; [|constructor].
    exists 1%Z. split; [reflexivity | lia].
  - inversion H as [|? ? (n & Hn & Hge) Ho]; subst. cbn [snd] in Hn. subst v'.
    destruct (str_eqb k k') eqn:E.
    + split.
      * constructor; [|assumption]. exists (n + 1)%Z.
        split; [reflexivity | lia].
      * cbn [counted fold_right snd bumped]. fold (counted o). lia.
    + destruct (IH Ho) as [IH1 IH2]. split.
      * constructor; [|assumption]. now exists n.
      * cbn [counted fold_right snd]. fold (counted o).
        fold (counted (set o k (bumped (getOwn o k)))). lia.
Qed.

(** Counting the keys [ks] one after the other into [o]. *)
Lemma fold_bump_spec ks :
  forall o,
    Forall (fun k => has objectPrototypeKeys k = false) ks ->
    counts o -> NoDup (map fst o) ->
    let o' := fold_left bump ks o in
    counts o' /\ NoDup (map fst o')
    /\ counted o' = (counted o + size ks)%Z
    /\ (forall x, In x (map fst o') <-> In x (map fst o) \/ In x ks).
Proof.
  unfold size.
  induction ks as [|k ks IH]; intros o Hks Hc Hn; cbn [fold_left List.length].
  - repeat split; try assumption; try lia; cbn [In]; tauto.
  - inversion Hks as [|? ? Hk Hks']; subst.
    rewrite (bump_own o k Hk).
    destruct (set_bumped_counts o k Hc) as [Hc' Hsum].
    pose proof (set_bumped_NoDup o k Hn) as Hn'.
    destruct (IH _ Hks' Hc' Hn') as (H1 & H2 & H3 & H4).
    repeat split; try assumption.
    + rewrite H3, Hsum. lia.
    + rewrite H4, set_bumped_keys. cbn [In]. intros [[-> | H] | H]; auto.
    + rewrite H4, set_bumped_keys. cbn [In]. intros [H | [<- | H]]; auto.
Qed.

(** The occurrences beyond the first, summed over the counts. *)
Lemma fold_addExtra_counts o :
  forall a,
    counts o ->
    fold_left addExtra (filter isMany (values o)) a
    = (a + counted o - size o)%Z.
Proof.
  unfold counts, values, size.
  induction o as [|[k v] o IH]; intros a H; cbn [map filter fold_left snd].
  - cbn [counted fold_right List.length]. lia.
  - inversion H as [|? ? (n & Hn & Hge) Ho]; subst. cbn [snd] in Hn. subst v.
    cbn [isMany counted fold_right snd List.length]. fold (counted o).
    destruct (1 <? n)%Z eqn:E.
    + cbn [fold_left addExtra]. rewrite IH by assumption. lia.
    + apply Z.ltb_ge in E. rewrite IH by assumption. lia.
Qed.

Lemma fold_bump_size ks :
  Forall (fun k => has objectPrototypeKeys k = false) ks ->
  counts (fold_left bump ks [])
  /\ counted (fold_left bump ks []) = size ks
  /\ size (fold_left bump ks []) = size (newSet ks).
Proof.
  intros Hks.
  destruct (fold_bump_spec ks [] Hks) as (H1 & H2 & H3 & H4);
    [constructor | constructor |].
  split; [assumption|]. split; [exact H3|].
  unfold size. f_equal. rewrite <- (length_map fst).
  apply NoDup_same_length; [assumption | apply newSet_NoDup|].
  intros x. rewrite H4, newSet_In. cbn [map In]. tauto.
Qed.

Lemma bigramsOf_spaced w :
  Forall (fun k => In chr_space k) (bigramsOf w).
Proof.
  induction w as [|a [|b rest] IH]; cbn [bigramsOf]; try constructor.
  - apply in_or_app. right. now left.
  - exact IH.
Qed.

Lemma bigramsOf_size w : size (bigramsOf w) = Z.max 0 (size w - 1).
Proof.
  unfold size. induction w as [|a [|b rest] IH]; [reflexivity | reflexivity |].
  change (bigramsOf (a :: b :: rest))
    with ((a ++ [chr_space] ++ b) :: bigramsOf (b :: rest)).
  cbn [List.length] in *. lia.
Qed.

Lemma repeatsOf_count w :
  repeatsOf w = (size (bigramsOf w) - size (newSet (bigramsOf w)))%Z.
Proof.
  unfold repeatsOf. cbv zeta.
  assert (Forall (fun k => has objectPrototypeKeys k = false) (bigramsOf w))
    as Hks.
  { eapply Forall_impl; [|apply bigramsOf_spaced].
    intros k. apply prototype_keys_spaceless. }
  destruct (fold_bump_size _ Hks) as (Hc & Hsum & Hsize).
  rewrite fold_addExtra_counts by assumption. lia.
Qed.

(** ** Quotients of counts *)

Local Open Scope Z_scope.

Lemma binary_round_exact_value s mx ex :
  fexp prec emax (Zpos (digits2_pos mx) + ex) <= ex ->
  fexp prec emax (Zpos (digits2_pos mx) + ex) <= 971 ->
  exists mz,
    binary_round prec emax s mx ex
    = S754_finite s mz (fexp prec emax (Zpos (digits2_pos mx) + ex))
    /\ Zpos mz
       = Zpos mx * 2 ^ (ex - fexp prec emax (Zpos (digits2_pos mx) + ex)).
Proof.
  intros Hle Hmax. unfold binary_round, shl_align.
  remember (fexp prec emax (Zpos (digits2_pos mx) + ex)) as f eqn:Hf.
  destruct (f - ex) as [|d|d] eqn:E.
  - assert (f = ex) as Hfe by lia. exists mx. split.
    + rewrite Hfe. apply bra_exact; [|lia]. rewrite <- Hf. exact Hfe.
    + rewrite Hfe, Z.sub_diag. change (2 ^ 0) with 1. lia.
  - lia.
  - exists (Pos.iter xO mx d).
    assert (Zpos (digits2_pos (Pos.iter xO mx d)) + f = Zpos (digits2_pos mx) + ex)
      as Hd by (rewrite digits2_iter_xO; lia).
    split.
    + apply bra_exact; [|lia]. rewrite Hd. symmetry. exact Hf.
    + rewrite iter_xO_val. f_equal. f_equal. lia.
Qed.

(** A positive integer below 2^53 as a float: a mantissa of 53 digits with
    the value of the integer. *)
Lemma Z2float_pos_value p :
  Zpos p < 2 ^ 53 ->
  exists mz,
    Prim2SF (Z2float (Zpos p))
    = S754_finite false mz (Zpos (digits2_pos p) - 53)
    /\ Zpos mz = Zpos p * 2 ^ (53 - Zpos (digits2_pos p)).
Proof.
  intros Hp. unfold Z2float. cbn [Z.ltb Z.compare].
  rewrite of_uint63_spec, to_Z_of_Z_small
    by (split; [lia|]; change (2 ^ 63) with (2 ^ 53 * 1024); lia).
  cbn [binary_normalize].
  assert (Zpos (digits2_pos p) <= 53) as Hd by (apply digits_le_of_lt; lia).
  assert (fexp prec emax (Zpos (digits2_pos p) + 0) = Zpos (digits2_pos p) - 53)
    as Hf by (rewrite fexp_eq; lia).
  destruct (binary_round_exact_value false p 0) as (mz & E & Hm);
    rewrite ?Hf; try lia.
  rewrite Hf in E, Hm. exists mz. split; [exact E|].
  rewrite Hm. f_equal. f_equal. lia.
Qed.

(** The quotient [2^K * 2^(-K)] rounds to 1. *)
Lemma bra_pow2_one (n : nat) :
  (n <= 53)%nat ->
  binary_round_aux prec emax false (2 ^ (53 + Z.of_nat n))
    (- (53 + Z.of_nat n)) loc_Exact
  = sf_one.
Proof.
  intros Hn.
  do 54 (destruct n as [|n]; [vm_compute; reflexivity|]).
  lia.
Qed.

(** The quotient of two positive numbers with full mantissas, the first
    not above the second, is at most 1. *)
Lemma SFdiv_le_one mx ex my ey :
  ex <= ey -> ey - ex <= 53 ->
  Zpos (digits2_pos mx) = 53 -> Zpos (digits2_pos my) = 53 ->
  Zpos mx <= Zpos my * 2 ^ (ey - ex) ->
  sf_le_pow2 false 0
    (SFdiv prec emax (S754_finite false mx ex) (S754_finite false my ey)).
Proof.
  intros He He' Hdx Hdy Hle. unfold SFdiv, SFdiv_core_binary.
  change (Zdigits2 (Zpos mx)) with (Zpos (digits2_pos mx)).
  change (Zdigits2 (Zpos my)) with (Zpos (digits2_pos my)).
  rewrite Hdx, Hdy, fexp_eq. cbv zeta.
  replace (Z.min (Z.max (53 + ex - (53 + ey) - 53) (-1074)) (ex - ey))
    with (ex - ey - 53) by lia.
  replace (ex - ey - (ex - ey - 53)) with 53 by lia.
  rewrite Z.shiftl_mul_pow2 by lia.
  pose proof (Z_div_mod (Zpos mx * 2 ^ 53) (Zpos my) ltac:(lia)) as Hdiv.
  destruct (Z.div_eucl (Zpos mx * 2 ^ 53) (Zpos my)) as [q r].
  destruct Hdiv as [Hq Hr]. cbn [xorb].
  remember (53 + (ey - ex)) as K eqn:EK.
  assert (0 < 2 ^ 53) as H53 by reflexivity.
  assert (2 ^ K = 2 ^ (ey - ex) * 2 ^ 53) as HK
    by (rewrite EK, Z.pow_add_r by lia; lia).
  assert (0 < 2 ^ (ey - ex)) as Hpos by (apply Z.pow_pos_nonneg; lia).
  assert (0 <= q) as Hq0 by nia.
  assert (q <= 2 ^ K) as HqK.
  { apply (Z.mul_le_mono_pos_l _ _ (Zpos my)); [lia|].
    rewrite HK. nia. }
  replace (ex - ey - 53) with (- K) by lia.
  destruct (Z.eq_dec q (2 ^ K)) as [Eq | Hne].
  - assert (r = 0) as -> by (rewrite HK in Eq; nia).
    assert (new_location (Zpos my) 0 = loc_Exact) as ->
      by (unfold new_location, new_location_even, new_location_odd;
          destruct (Z.even (Zpos my)); reflexivity).
    rewrite Eq, EK.
    replace (ey - ex) with (Z.of_nat (Z.to_nat (ey - ex))) by lia.
    rewrite bra_pow2_one by lia.
    unfold sf_one. cbn [sf_le_pow2]. split; [reflexivity|].
    right. split; reflexivity.
  - assert (Zdigits2 q <= K) as Hdq by (apply Zdigits2_le; lia).
    apply bra_le_pow2; lia.
Qed.

(** Equal mantissas and exponents: the quotient is 1. *)
Lemma SFdiv_self mx ex :
  Zpos (digits2_pos mx) = 53 ->
  SFdiv prec emax (S754_finite false mx ex) (S754_finite false mx ex) = sf_one.
Proof.
  intros Hdx. unfold SFdiv, SFdiv_core_binary.
  change (Zdigits2 (Zpos mx)) with (Zpos (digits2_pos mx)).
  rewrite Hdx, fexp_eq. cbv zeta.
  replace (Z.min (Z.max (53 + ex - (53 + ex) - 53) (-1074)) (ex - ex))
    with (-53) by lia.
  replace (ex - ex - -53) with 53 by lia.
  rewrite Z.shiftl_mul_pow2 by lia.
  pose proof (Z_div_mod (Zpos mx * 2 ^ 53) (Zpos mx) ltac:(lia)) as Hdiv.
  destruct (Z.div_eucl (Zpos mx * 2 ^ 53) (Zpos mx)) as [q r].
  destruct Hdiv as [Hq Hr]. cbn [xorb].
  assert (q = 2 ^ 53) as ->.
  { rewrite (Z.div_unique _ _ q r (or_introl Hr) Hq).
    rewrite Z.mul_comm. apply Z.div_mul. lia. }
  assert (r = 0) as -> by lia.
  assert (new_location (Zpos mx) 0 = loc_Exact) as ->
    by (unfold new_location, new_location_even, new_location_odd;
        destruct (Z.even (Zpos mx)); reflexivity).
  exact (bra_pow2_one 0 ltac:(lia)).
Qed.

Local Open Scope float_scope.

Lemma num_pos_value z :
  (0 < z)%Z ->
  exists p mz,
    (Zpos p <= z /\ Zpos p < 2 ^ 53)%Z
    /\ (z <= max_safe -> Zpos p = z)
    /\ (max_safe <= z -> Zpos p = max_safe)
    /\ Prim2SF (num z) = S754_finite false mz (Zpos (digits2_pos p) - 53)
    /\ Zpos (digits2_pos mz) = 53%Z
    /\ Zpos mz = (Zpos p * 2 ^ (53 - Zpos (digits2_pos p)))%Z.
Proof.
  intros Hz. unfold num.
  remember (Z.max (- max_safe) (Z.min max_safe z)) as c eqn:E.
  unfold max_safe in *.
  assert (2 ^ 53 = 9007199254740992)%Z as Hpow by reflexivity.
  destruct c as [|p|p]; try lia.
  destruct (Z2float_pos p ltac:(lia)) as (mz0 & E0 & Hd0).
  destruct (Z2float_pos_value p ltac:(lia)) as (mz & Ez & Hm).
  rewrite Ez in E0. injection E0 as <-.
  exists p, mz. repeat split; try assumption; lia.
Qed.

Lemma zero_div_positive y : fpositive y -> 0 / y = 0.
Proof.
  intros Hy. apply Prim2SF_inj. rewrite div_spec, Prim2SF_zero.
  unfold fpositive in Hy. destruct (Prim2SF y) as [s|s| |[|] m e];
    try contradiction. reflexivity.
Qed.

(** A count divided by a count that is at least as large is in [[0, 1]]. *)
Lemma num_div_in01 a b :
  (0 <= a <= b)%Z -> (1 <= b)%Z -> in01 (num a / num b).
Proof.
  intros Hab Hb.
  destruct (Z.eq_dec a 0) as [-> | Ha].
  - change (num 0) with 0. rewrite zero_div_positive; [apply in01_zero|].
    now apply num_fpos.
  - destruct (num_pos_value a ltac:(lia))
      as (pa & ma & (Hpa & Hpa53) & Ha1 & Ha2 & Ea & Hda & Hma).
    destruct (num_pos_value b ltac:(lia))
      as (pb & mb & (Hpb & Hpb53) & Hb1 & Hb2 & Eb & Hdb & Hmb).
    assert (Zpos pa <= Zpos pb)%Z as Hle.
    { unfold max_safe in *.
      destruct (Z_le_gt_dec b 9007199254740991);
        destruct (Z_le_gt_dec a 9007199254740991); lia. }
    pose proof (Zdigits2_mono (Zpos pa) (Zpos pb) ltac:(lia)) as Hdig.
    change (Zdigits2 (Zpos pa)) with (Zpos (digits2_pos pa)) in Hdig.
    change (Zdigits2 (Zpos pb)) with (Zpos (digits2_pos pb)) in Hdig.
    pose proof (digits_le_of_lt pb 53 ltac:(lia) Hpb53) as Hdb53.
    set (da := Zpos (digits2_pos pa)) in *.
    set (db := Zpos (digits2_pos pb)) in *.
    assert (0 < da)%Z by (unfold da; lia).
    assert (sf_le_pow2 false 0 (Prim2SF (num a / num b))) as Hpow.
    { rewrite div_spec, Ea, Eb. apply SFdiv_le_one; try lia.
      rewrite Hma, Hmb.
      replace (db - 53 - (da - 53))%Z with (db - da)%Z by lia.
      rewrite <- Z.mul_assoc, <- Z.pow_add_r by lia.
      replace (53 - db + (db - da))%Z with (53 - da)%Z by lia.
      apply Z.mul_le_mono_nonneg_r; [|assumption].
      apply Z.pow_nonneg. lia. }
    split.
    + apply leb0_fnonneg. unfold fnonneg.
      destruct (Prim2SF (num a / num b)); cbn [sf_le_pow2 sf_nonneg] in *;
        tauto.
    + rewrite leb_spec, Prim2SF_one.
      apply sf_le_pow2_le_one; [apply Prim2SF_valid | assumption].
Qed.

Lemma num_div_self b : (1 <= b)%Z -> num b / num b = 1.
Proof.
  intros Hb.
  destruct (num_pos_value b ltac:(lia))
    as (pb & mb & _ & _ & _ & Eb & Hdb & _).
  apply Prim2SF_inj. rewrite div_spec, Eb, Prim2SF_one.
  now apply SFdiv_self.
Qed.

(** ** [clamp0to100] on every number *)

Lemma clamp0to100_range x :
  fnonnan x ->
  (0 <=? clamp0to100 x) = true /\ (clamp0to100 x <=? 100) = true.
Proof.
  intros Hx. unfold clamp0to100.
  destruct (Math_min_spec 100 x I Hx) as (Hsel & Hle & _).
  assert (fnonnan (Math_min 100 x)) as Hm
    by (destruct Hsel as [-> | ->]; [exact I | assumption]).
  destruct (Math_max_spec 0 (Math_min 100 x) I Hm) as ([E|E] & H1 & H2).
  - rewrite E. split; reflexivity.
  - split; [assumption|]. rewrite E. assumption.
Qed.

(** ** Products with zero *)

Lemma mul_zero_r x :
  fnonneg x -> is_finite x = true -> Prim2SF x <> S754_zero true ->
  x * 0 = 0.
Proof.
  intros Hn Hf Hz. apply Prim2SF_inj. rewrite mul_spec, Prim2SF_zero.
  unfold fnonneg, is_finite in *.
  destruct (Prim2SF x) as [[|]|s| |s m e]; cbn [sf_nonneg] in Hn;
    try discriminate; try contradiction; subst; reflexivity.
Qed.

(** ** Further properties: the text helpers *)

(** X1: every token [tokenizeWords] returns is non-empty and made of the
    code units [[a-z0-9-]] only: no white space, no capital, no
    punctuation. *)
Theorem tokenizeWords_tokens text : Forall isToken (tokenizeWords text).
Proof. apply tokenizeWords_isToken. Qed.

(** X2: tokens joined by single spaces tokenize back to the same list; so
    tokenizing the joined tokens of any text gives its tokens again. *)
Theorem tokenizeWords_roundtrip :
  (forall ts, Forall isToken ts -> tokenizeWords (join [chr_space] ts) = ts)
  /\ (forall text,
        tokenizeWords (join [chr_space] (tokenizeWords text))
        = tokenizeWords text).
Proof.
  split.
  - apply tokenizeWords_of_tokens.
  - intros text. apply tokenizeWords_of_tokens, tokenizeWords_isToken.
Qed.

(** X3: every sentence [sentences] returns is non-empty and has no white
    space at either end; and [sentences] returns no sentence exactly when
    the text is empty or white space only. *)
Theorem sentences_trimmed text :
  Forall (fun s => s <> [] /\ trim s = s /\ wellTrimmed s) (sentences text)
  /\ (sentences text = [] <-> Forall (fun c => isSpace c = true) text).
Proof.
  split.
  - eapply Forall_impl; [|apply sentences_wellTrimmed].
    intros s Hs. split; [now apply wellTrimmed_nonEmpty|].
    split; [now apply wellTrimmed_trim | assumption].
  - rewrite sentences_nil_iff. apply trim_nil_iff.
Qed.

(** ** Further properties: requirements *)

Lemma extractRequirements_cases prompt :
  let reqs :=
    flat_map (fun line =>
      match re_itemPrefix line with
      | Some k => [skipn k line]
      | None => if re_imperative line then [line] else []
      end) (promptLines prompt) in
  (reqs = [] /\ extractRequirements prompt = [prompt])
  \/ (reqs <> [] /\ extractRequirements prompt = reqs).
Proof.
  cbv zeta. unfold extractRequirements, promptLines. cbv zeta.
  destruct (flat_map _ _) as [|r reqs] eqn:E; cbn [nonEmpty].
  - now left.
  - right. split; [discriminate | reflexivity].
Qed.

Lemma requirements_map_filter lines :
  flat_map (fun line =>
    match re_itemPrefix line with
    | Some k => [skipn k line]
    | None => if re_imperative line then [line] else []
    end) lines
  = map requirementOf (filter isRequirementLine lines).
Proof.
  induction lines as [|line lines IH]; [reflexivity|].
  cbn [flat_map filter]. unfold isRequirementLine.
  destruct (re_itemPrefix line) as [k|] eqn:E.
  - cbn [map app]. rewrite IH. f_equal. unfold requirementOf. now rewrite E.
  - destruct (re_imperative line).
    + cbn [map app]. rewrite IH. f_equal. unfold requirementOf. now rewrite E.
    + exact IH.
Qed.

(** X4: what [extractRequirements] returns, and when.  With [hits] the
    lines of the prompt (trimmed, the empty ones left out) that are list
    items or start with an imperative verb, in their order: when there is
    none it returns the prompt itself, as it is, and otherwise one
    requirement for each of them, the text of the item or the whole line,
    all non-empty and without white space at either end.  So it never
    returns an empty list. *)
Theorem extractRequirements_shape prompt :
  let hits := filter isRequirementLine (promptLines prompt) in
  (hits = [] -> extractRequirements prompt = [prompt])
  /\ (hits <> [] ->
      extractRequirements prompt = map requirementOf hits
      /\ Forall (fun r => r <> [] /\ trim r = r) (extractRequirements prompt))
  /\ size (extractRequirements prompt) = Z.max 1 (size hits)
  /\ extractRequirements prompt <> []
  /\ (extractRequirements prompt = [prompt]
      \/ Forall (fun r => r <> [] /\ trim r = r) (extractRequirements prompt)).
Proof.
  cbv zeta.
  pose proof (requirements_map_filter (promptLines prompt)) as Hmap.
  assert (Forall (fun r => r <> [] /\ trim r = r)
            (map requirementOf
               (filter isRequirementLine (promptLines prompt)))) as Htrim.
  { rewrite <- Hmap.
    eapply Forall_impl;
      [|apply extracted_wellTrimmed, promptLines_wellTrimmed].
    intros r Hr. split; [now apply wellTrimmed_nonEmpty|].
    now apply wellTrimmed_trim. }
  destruct (extractRequirements_cases prompt) as [[En E] | [Hne E]];
    cbv zeta in *; rewrite E; rewrite Hmap in *.
  - apply map_eq_nil in En. rewrite En.
    split; [reflexivity|]. split; [intros Hn; now contradiction Hn|].
    split; [reflexivity|]. split; [discriminate | now left].
  - assert (filter isRequirementLine (promptLines prompt) <> []) as Hhits
      by (intros Hn; rewrite Hn in Hne; now contradiction Hne).
    split; [intros Hn; now contradiction Hhits|].
    split; [intros _; now split|].
    split; [|split; [assumption | now right]].
    unfold size. rewrite length_map.
    destruct (filter isRequirementLine (promptLines prompt));
      [now contradiction Hhits|].
    cbn [List.length]. lia.
Qed.

(** X4, witness: two list items around a line that is neither. *)
Lemma extractRequirements_shape_witness :
  extractRequirements (lit "- one" ++ [chr_newline] ++ lit "and" ++ [chr_newline]
                       ++ lit "2. two")
  = [lit "one"; lit "two"].
Proof.
  apply (proj1 (proj2 (extractRequirements_shape
                         (lit "- one" ++ [chr_newline] ++ lit "and"
                          ++ [chr_newline] ++ lit "2. two")))).
  vm_compute. discriminate.
Defined.

(** A subject without a newline is one line. *)
Lemma split_go_line_free s :
  forall prev cur,
    Forall (fun c => isNewline c = false) s ->
    split_go sep_line prev O cur s = [rev cur ++ s].
Proof.
  induction s as [|c s IH]; intros prev cur Hs.
  - cbn [split_go]. now rewrite app_nil_r.
  - inversion Hs as [|? ? Hc Hs']; subst.
    assert (sep_line prev (c :: s) = None) as Hsep.
    { unfold sep_line. unfold isNewline in Hc. apply N.eqb_neq in Hc.
      destruct c as [|p]; [reflexivity|].
      destruct s as [|d s'].
      - do 4 (destruct p as [p|p|]; try reflexivity).
        now contradiction Hc.
      - inversion Hs' as [|? ? Hd _]; subst.
        unfold isNewline in Hd. apply N.eqb_neq in Hd.
        do 4 (destruct p as [p|p|]; try reflexivity);
          try (now contradiction Hc).
        destruct d as [|q]; [reflexivity|].
        do 4 (destruct q as [q|q|]; try reflexivity).
        now contradiction Hd. }
    cbn [split_go]. rewrite Hsep, IH by assumption.
    cbn [rev]. now rewrite <- app_assoc.
Qed.

Lemma single_line_prompt prompt :
  wellTrimmed prompt -> Forall (fun c => isNewline c = false) prompt ->
  promptLines prompt = [prompt].
Proof.
  intros Hw Hn. unfold promptLines, split.
  rewrite split_go_line_free by assumption. cbn [rev app map].
  rewrite (wellTrimmed_trim _ Hw). unfold filterBoolean. cbn [filter].
  destruct prompt; [now apply wellTrimmed_nonEmpty in Hw | reflexivity].
Qed.

Lemma wellTrimmed_marked marker body :
  (exists a m, marker = a :: m /\ isSpace a = false) ->
  wellTrimmed body -> wellTrimmed (marker ++ chr_space :: body).
Proof.
  intros (a & m & -> & Ha) [_ (b & m' & Er & Hb)]. split.
  - exists a. eexists. split; [reflexivity | assumption].
  - exists b. rewrite rev_app_distr. cbn [rev]. rewrite Er.
    eexists. split; [reflexivity | assumption].
Qed.

Lemma spaces1_single body :
  wellTrimmed body -> spaces1 (chr_space :: body) = Some 1%nat.
Proof.
  intros [(a & m & -> & Ha) _]. unfold spaces1.
  change (takeWhile isSpace (chr_space :: a :: m))
    with (chr_space :: takeWhile isSpace (a :: m)).
  cbn [takeWhile]. now rewrite Ha.
Qed.

Lemma takeWhile_app_stop {A} (f : A -> bool) l x r :
  Forall (fun c => f c = true) l -> f x = false ->
  takeWhile f (l ++ x :: r) = l /\ dropWhile f (l ++ x :: r) = x :: r.
Proof.
  induction 1 as [|c l Hc _ IH]; intros Hx; cbn [app takeWhile dropWhile].
  - now rewrite Hx.
  - rewrite Hc. destruct (IH Hx) as [-> ->]. now split.
Qed.

Lemma skipn_app_length {A} (l r : list A) :
  skipn (List.length l) (l ++ r) = r.
Proof. induction l; [reflexivity | assumption]. Qed.

(** X5: a one-line prompt made of a list marker (a bullet [-], [*] or the
    bullet sign, or digits and a dot), one space and a text is one
    requirement: the text without the marker. *)
Theorem extractRequirements_item marker body :
  ((exists c, marker = [c] /\ isBulletChar c = true)
   \/ (exists ds, marker = ds ++ [chr_dot] /\ ds <> []
                  /\ Forall (fun c => isDigit c = true) ds)) ->
  wellTrimmed body ->
  Forall (fun c => isNewline c = false) body ->
  extractRequirements (marker ++ chr_space :: body) = [body].
Proof.
  intros Hm Hb Hn.
  assert (Forall (fun c => isNewline c = false) marker
          /\ (exists a m, marker = a :: m /\ isSpace a = false)
          /\ orElse bulletMarker numberMarker (marker ++ chr_space :: body)
             = Some (List.length marker)) as (Hmn & Hhead & Hmark).
  { destruct Hm as [(c & -> & Hc) | (ds & -> & Hne & Hds)].
    - assert (isNewline c = false /\ isSpace c = false) as [H1 H2].
      { unfold isBulletChar, chr_hyphen, chr_star, chr_bullet in Hc.
        rewrite !orb_true_iff, !N.eqb_eq in Hc.
        destruct Hc as [[-> | ->] | ->]; split; reflexivity. }
      split; [now repeat constructor|].
      split; [now exists c, []|].
      unfold orElse, bulletMarker. cbn [app]. now rewrite Hc.
    - assert (forall c, isDigit c = true ->
                        isNewline c = false /\ isSpace c = false
                        /\ isBulletChar c = false) as Hdig.
      { intros c Hc. unfold isBulletChar, chr_hyphen, chr_star, chr_bullet.
        repeat split; nbool; lia. }
      split.
      { apply Forall_app. split; [|now repeat constructor].
        eapply Forall_impl; [|exact Hds]. intros c Hc. now apply Hdig. }
      split.
      { destruct ds as [|d ds']; [contradiction|].
        inversion Hds; subst. exists d. eexists.
        split; [reflexivity | now apply Hdig]. }
      unfold orElse.
      assert (bulletMarker ((ds ++ [chr_dot]) ++ chr_space :: body) = None)
        as ->.
      { destruct ds as [|d ds']; [contradiction|].
        inversion Hds; subst. unfold bulletMarker. cbn [app].
        now replace (isBulletChar d) with false
          by (symmetry; now apply Hdig). }
      unfold numberMarker. rewrite <- app_assoc. cbn [app].
      destruct (takeWhile_app_stop isDigit ds chr_dot (chr_space :: body) Hds)
        as [-> ->]; [reflexivity|].
      destruct ds as [|d ds']; [contradiction|].
      cbn [List.length]. rewrite N.eqb_refl. f_equal.
      rewrite length_app. cbn [List.length]. lia. }
  set (prompt := marker ++ chr_space :: body).
  assert (re_itemPrefix prompt = Some (List.length marker + 1)%nat) as Hre.
  { unfold re_itemPrefix, andThen. fold prompt in Hmark. rewrite Hmark.
    unfold prompt. rewrite skipn_app_length, (spaces1_single body Hb).
    reflexivity. }
  unfold extractRequirements. fold (promptLines prompt).
  rewrite single_line_prompt.
  - cbn [flat_map]. rewrite Hre, app_nil_r.
    replace (skipn (List.length marker + 1) prompt) with body.
    + reflexivity.
    + unfold prompt.
      replace (marker ++ chr_space :: body)
        with ((marker ++ [chr_space]) ++ body)
        by (rewrite <- app_assoc; reflexivity).
      replace (List.length marker + 1)%nat
        with (List.length (marker ++ [chr_space]))
        by (rewrite length_app; reflexivity).
      now rewrite skipn_app_length.
  - now apply wellTrimmed_marked.
  - apply Forall_app. split; [assumption|]. now constructor.
Qed.

(** X5, witness: the prompt "12. Explain the proof" *)
Lemma extractRequirements_item_witness :
  extractRequirements (lit "12. Explain the proof") = [lit "Explain the proof"].
Proof.
  apply (extractRequirements_item (lit "12.") (lit "Explain the proof")).
  - right. exists (lit "12"). split; [reflexivity|].
    split; [discriminate | now repeat constructor].
  - split; [now exists 69%N; eexists | now exists 102%N; eexists].
  - now repeat constructor.
Defined.

(** ** Further properties: syllables and readability *)

(** X6: [syllableCount] is 0 for a word without a letter of [[a-zA-Z]]
    (after lowering), and otherwise at least 1 and at most the number of
    its letters. *)
Theorem syllableCount_bounds word :
  (lettersOf word = [] -> syllableCount word = 0%Z)
  /\ (lettersOf word <> [] ->
      (1 <= syllableCount word <= size (lettersOf word))%Z).
Proof.
  unfold syllableCount, lettersOf. cbv zeta.
  destruct (filter isLower (toLowerCase word)) as [|c w] eqn:E;
    cbn [nonEmpty].
  - split; [reflexivity | congruence].
  - split; [discriminate|]. intros _.
    pose proof (vowelGroups_bounds (dropBoundaryE (c :: w)) false) as H1.
    pose proof (dropBoundaryE_length (c :: w)) as H2.
    unfold size in *. cbn [List.length] in *. lia.
Qed.

(** X7: the Flesch-Kincaid grade of any text is a finite number (the
    guards [|| 1] keep the two divisions away from 0/0), and
    [readabilityScore] returns that grade with a score in [[0, 1]]. *)
Theorem fkGrade_finite text :
  is_finite (fkGrade text) = true
  /\ snd (readabilityScore text) = fkGrade text
  /\ in01 (fst (readabilityScore text)).
Proof.
  split; [|split; [reflexivity | apply readabilityScore_in01]].
  destruct (fkGrade_fsmall text) as [B HB]. unfold fsmall in HB.
  unfold is_finite. destruct (Prim2SF (fkGrade text));
    cbn [sf_small] in HB; try contradiction; reflexivity.
Qed.

(** ** Further properties: the helpers on numbers and sets *)

(** X8: [clamp01] and [clamp0to100] map every number into their interval
    and NaN to NaN; [clamp01] is idempotent, and leaves a number of
    [[0, 1]] other than [-0] as it is. *)
Theorem clamps_behaviour x :
  (is_nan x = false ->
   in01 (clamp01 x)
   /\ (0 <=? clamp0to100 x) = true /\ (clamp0to100 x <=? 100) = true)
  /\ (is_nan x = true -> clamp01 x = nan /\ clamp0to100 x = nan)
  /\ clamp01 (clamp01 x) = clamp01 x
  /\ (in01 x -> Prim2SF x <> S754_zero true -> clamp01 x = x).
Proof.
  split; [|split; [|split]].
  - intros H. apply is_nan_fnonnan in H.
    split; [now apply clamp01_in01 | now apply clamp0to100_range].
  - intros H. apply is_nan_true in H. subst x. split; reflexivity.
  - apply clamp01_idem.
  - apply clamp01_fixed.
Qed.

Lemma jaccard_inter_le_uni a b :
  (0 <= size (newSet (filter (has b) a))
   <= or1 (size (newSet (a ++ b))))%Z
  /\ (1 <= or1 (size (newSet (a ++ b))))%Z.
Proof.
  pose proof (size_nonneg (newSet (filter (has b) a))) as H0.
  pose proof (size_nonneg (newSet (a ++ b))) as H1.
  assert (size (newSet (filter (has b) a)) <= size (newSet (a ++ b)))%Z.
  { apply newSet_size_incl. intros x Hx. apply filter_In in Hx.
    apply in_or_app. now left. }
  unfold or1. destruct (size (newSet (a ++ b)) =? 0)%Z eqn:E.
  - apply Z.eqb_eq in E. lia.
  - apply Z.eqb_neq in E. lia.
Qed.

(** X9: the Jaccard similarity of any two lists of words is a number of
    [[0, 1]], and it is symmetric. *)
Theorem jaccard_range_symmetric a b :
  in01 (jaccard a b) /\ jaccard a b = jaccard b a.
Proof.
  split.
  - unfold jaccard. cbv zeta.
    destruct (jaccard_inter_le_uni a b) as [H1 H2].
    now apply num_div_in01.
  - unfold jaccard. cbv zeta. f_equal; f_equal.
    + apply newSet_size_ext. intros x. rewrite !filter_In, !has_In. tauto.
    + f_equal. apply newSet_size_ext. intros x. rewrite !in_app_iff. tauto.
Qed.

(** X10: the Jaccard similarity is 1 for two non-empty lists with the same
    words, and 0 for two lists without a common word, the two empty lists
    among them. *)
Theorem jaccard_extremes a b :
  ((forall x, In x a <-> In x b) -> a <> [] -> jaccard a b = 1)
  /\ ((forall x, In x a -> ~ In x b) -> jaccard a b = 0).
Proof.
  split.
  - intros Hab Ha. unfold jaccard. cbv zeta.
    assert (size (newSet (filter (has b) a)) = size (newSet (a ++ b))) as ->.
    { apply newSet_size_ext. intros x.
      rewrite filter_In, has_In, in_app_iff. specialize (Hab x). tauto. }
    assert (1 <= size (newSet (a ++ b)))%Z as Hpos.
    { destruct a as [|x a']; [contradiction|].
      assert (In x (newSet ((x :: a') ++ b))) as Hin
        by (apply newSet_In; now left).
      unfold size. destruct (newSet ((x :: a') ++ b)); [destruct Hin|].
      cbn [List.length]. lia. }
    unfold or1. destruct (size (newSet (a ++ b)) =? 0)%Z eqn:E.
    + apply Z.eqb_eq in E. lia.
    + now apply num_div_self.
  - intros Hab. unfold jaccard. cbv zeta.
    assert (filter (has b) a = []) as ->.
    { destruct (filter (has b) a) as [|x l] eqn:E; [reflexivity|].
      assert (In x (filter (has b) a)) as Hin by (rewrite E; now left).
      apply filter_In in Hin. destruct Hin as [Hin Hb].
      apply has_In in Hb. now destruct (Hab x Hin). }
    change (num (size (newSet []))) with 0.
    apply zero_div_positive. apply num_fpos.
    apply jaccard_inter_le_uni.
Qed.

(** X10, witness: a list against itself, and against the empty list. *)
Lemma jaccard_extremes_witness :
  jaccard [lit "proof"; lit "lemma"] [lit "lemma"; lit "proof"] = 1
  /\ jaccard [lit "proof"] [] = 0.
Proof.
  split.
  - apply (proj1 (jaccard_extremes _ _)); [|discriminate].
    intros x. cbn [In]. tauto.
  - apply (proj2 (jaccard_extremes _ _)). intros x _ [].
Defined.

(** ** Further properties: the scorers at their edges *)

(** X11: the number of requirements counted is the number extracted, capped
    at 10 and never 0, and the target length is 100 words plus 60 for each:
    between 160 and 700, so the clamp of the target to [[60, 1200]] never
    acts. *)
Theorem lengthTarget_range prompt :
  reqCountOf prompt = Z.min 10 (size (extractRequirements prompt))
  /\ (1 <= reqCountOf prompt <= 10)%Z
  /\ lengthTarget prompt = (100 + 60 * reqCountOf prompt)%Z
  /\ (160 <= lengthTarget prompt <= 700)%Z.
Proof.
  assert (1 <= size (extractRequirements prompt))%Z as Hreq.
  { assert (extractRequirements prompt <> []) as Hne.
    { destruct (extractRequirements_cases prompt) as [[_ E] | [Hne E]];
        cbv zeta in *; rewrite E; [discriminate | assumption]. }
    unfold size. destruct (extractRequirements prompt); [contradiction|].
    cbn [List.length]. lia. }
  assert (reqCountOf prompt = Z.min 10 (size (extractRequirements prompt)))
    as E.
  { unfold reqCountOf, or1.
    destruct (size (extractRequirements prompt) =? 0)%Z eqn:E0;
      [apply Z.eqb_eq in E0; lia | reflexivity]. }
  split; [exact E|]. unfold lengthTarget. cbv zeta. rewrite E. lia.
Qed.

(** X12: a response of at most one sentence (the empty response among
    them) has the coherence 0.5, or 0.6 when it has more than 40 tokens,
    whatever its words. *)
Theorem coherence_single_sentence g text :
  (size (sentences text) <= 1)%Z ->
  calculateCoherenceScore g text
  = if (40 <? size (tokenizeWords text))%Z then 0.6 else 0.5.
Proof.
  intros H. unfold calculateCoherenceScore. cbv zeta.
  apply Z.leb_le in H. rewrite H.
  destruct (40 <? size (tokenizeWords text))%Z; reflexivity.
Qed.

(** X12, witness: the response "Hello." *)
Lemma coherence_single_sentence_witness :
  calculateCoherenceScore initialState hello = 0.5.
Proof.
  apply (coherence_single_sentence initialState hello). vm_compute.
  discriminate.
Defined.

(** X13: the repeats [repetitionPenaltyScore] penalizes are the
    occurrences of a two-token sequence beyond its first: the number of
    adjacent pairs less the number of distinct ones.  So a response in
    which no pair of adjacent tokens occurs twice has the score 1. *)
Theorem repetition_counts text :
  let w := tokenizeWords text in
  repeatsOf w = (size (bigramsOf w) - size (newSet (bigramsOf w)))%Z
  /\ (0 <= repeatsOf w <= Z.max 0 (size w - 2))%Z
  /\ (NoDup (bigramsOf w) -> repetitionPenaltyScore text = 1).
Proof.
  cbv zeta. set (w := tokenizeWords text).
  pose proof (repeatsOf_count w) as E.
  split; [exact E|]. split.
  - pose proof (newSet_size_le (bigramsOf w)) as H1.
    pose proof (bigramsOf_size w) as H2.
    pose proof (size_nonneg w) as H3.
    assert (bigramsOf w = [] \/ 1 <= size (newSet (bigramsOf w)))%Z as H4.
    { destruct (bigramsOf w) as [|x l] eqn:Eb; [now left|]. right.
      assert (In x (newSet (x :: l))) as Hin by (apply newSet_In; now left).
      unfold size. destruct (newSet (x :: l)); [destruct Hin|].
      cbn [List.length]. lia. }
    destruct H4 as [H4 | H4].
    + rewrite H4 in *. change (size (newSet [])) with 0%Z in *.
      change (size (@nil jsstring)) with 0%Z in *. lia.
    + lia.
  - intros Hnd. unfold repetitionPenaltyScore. cbv zeta. fold w.
    destruct (size w <? 6)%Z; [reflexivity|].
    rewrite E, (newSet_size_NoDup _ Hnd), Z.sub_diag.
    change (num 0) with 0. rewrite zero_div_positive; [reflexivity|].
    eapply Math_max_1_large. fsm.
Qed.

(** X13, witness: seven different tokens. *)
Lemma repetition_counts_witness :
  repetitionPenaltyScore (lit "one two three four five six seven") = 1.
Proof.
  apply (repetition_counts (lit "one two three four five six seven")).
  vm_compute. repeat constructor; cbn [In]; intuition discriminate.
Defined.

(** X14: a response without a token (empty, white space, punctuation only)
    has the word count 0, the length score 0, the vocabulary score 0 and
    the repetition score 1, for every prompt, weights and host. *)
Theorem tokenless_response {R : MathRuntime} response prompt weights :
  tokenizeWords response = [] ->
  let m := score response prompt weights in
  Details.wordCount (ResponseMetrics.details m) = 0%Z
  /\ ResponseMetrics.lengthScore m = 0
  /\ ResponseMetrics.vocabularyRichnessScore m = 0
  /\ ResponseMetrics.repetitionPenalty m = 1.
Proof.
  intros H. fields.
  unfold calculateLengthScore, calculateVocabularyRichness,
    repetitionPenaltyScore. cbv zeta. rewrite H.
  repeat split; reflexivity.
Qed.

(** X14, witness: the response "?!" *)
Lemma tokenless_response_witness :
  ResponseMetrics.lengthScore
    (@score stubRuntime (lit "?!") (lit "Explain.") PartialWeights.empty) = 0.
Proof.
  apply (@tokenless_response stubRuntime (lit "?!") (lit "Explain.")
           PartialWeights.empty).
  reflexivity.
Defined.

(** X15: a response in which every token is a stop word or shorter than
    three code units has no content word, and its vocabulary score is 0. *)
Theorem vocabulary_needs_content_words {R : MathRuntime} g text :
  Forall (fun t => has (STOPWORDS g) t = true \/ (size t <= 2)%Z)
    (tokenizeWords text) ->
  contentWords g (tokenizeWords text) = []
  /\ calculateVocabularyRichness g text = 0.
Proof.
  intros H.
  assert (contentWords g (tokenizeWords text) = []) as E.
  { unfold contentWords.
    induction H as [|t ts Ht _ IH]; [reflexivity|]. cbn [filter].
    replace (negb (has (STOPWORDS g) t) && (2 <? size t)%Z)%bool with false;
      [exact IH|].
    symmetry. destruct Ht as [-> | Ht]; [reflexivity|].
    apply andb_false_iff. right. apply Z.ltb_ge. exact Ht. }
  split; [exact E|].
  unfold calculateVocabularyRichness. cbv zeta. rewrite E. reflexivity.
Qed.

(** X15, witness: the response "It is on." *)
Lemma vocabulary_needs_content_words_witness :
  @calculateVocabularyRichness stubRuntime initialState (lit "It is on.") = 0.
Proof.
  apply (@vocabulary_needs_content_words stubRuntime initialState
           (lit "It is on.")).
  vm_compute. repeat constructor.
Defined.

(** ** Further properties: the client of the completion API *)

Lemma isRetriableStatus_table :
  forallb (fun n =>
             Bool.eqb (Groq.isRetriableStatus (Some (num (Z.of_nat n))))
               ((Z.of_nat n =? 429)%Z
                || ((500 <=? Z.of_nat n)%Z && (Z.of_nat n <=? 599)%Z)))
    (seq 0 1000) = true.
Proof. vm_compute. reflexivity. Qed.

(** X16: [isRetriableStatus] is false without a status and for the status
    0, and for an HTTP status (an integer below 1000) it is true exactly
    for 429 and for 500 to 599. *)
Theorem isRetriableStatus_spec :
  Groq.isRetriableStatus None = false
  /\ Groq.isRetriableStatus (Some 0) = false
  /\ Groq.isRetriableStatus (Some nan) = false
  /\ forall n : Z,
       (0 <= n < 1000)%Z ->
       (Groq.isRetriableStatus (Some (num n)) = true
        <-> n = 429%Z \/ (500 <= n <= 599)%Z).
Proof.
  repeat split; try reflexivity.
  - intros Hr. pose proof isRetriableStatus_table as T.
    rewrite forallb_forall in T. specialize (T (Z.to_nat n)).
    rewrite Z2Nat.id in T by lia.
    assert (In (Z.to_nat n) (seq 0 1000)) as Hin by (apply in_seq; lia).
    specialize (T Hin). apply eqb_prop in T. rewrite Hr in T.
    symmetry in T. rewrite orb_true_iff, andb_true_iff in T.
    rewrite Z.eqb_eq, !Z.leb_le in T. tauto.
  - intros Hn. pose proof isRetriableStatus_table as T.
    rewrite forallb_forall in T. specialize (T (Z.to_nat n)).
    rewrite Z2Nat.id in T by lia.
    assert (In (Z.to_nat n) (seq 0 1000)) as Hin by (apply in_seq; lia).
    specialize (T Hin). apply eqb_prop in T. rewrite T.
    rewrite orb_true_iff, andb_true_iff, Z.eqb_eq, !Z.leb_le. tauto.
Qed.

Section GroqCall.
Context {R : MathRuntime} {H : Groq.Host}.
Variable env : Groq.Env.
Variable config : Groq.ExperimentConfig.
Variable opts : Groq.GenerateOptions.

Local Abbreviation post := (Groq.post env config opts).
Local Abbreviation retries := (Groq.retries opts).
Local Abbreviation attempts := (Groq.attempts env config opts).
Local Abbreviation gaveUp := (Groq.gaveUp env config opts).

Lemma posts_cons_post body cfg url ev :
  Groq.posts (Groq.Post url body cfg :: ev) = (1 + Groq.posts ev)%Z.
Proof. unfold Groq.posts, size. cbn [filter List.length]. lia. Qed.

Lemma posts_cons_other e ev :
  match e with Groq.Post _ _ _ => False | _ => True end ->
  Groq.posts (e :: ev) = Groq.posts ev.
Proof. destruct e; [contradiction | reflexivity | reflexivity]. Qed.

Lemma sleeps_cons_sleep ms ev :
  Groq.sleeps (Groq.Sleep ms :: ev) = (1 + Groq.sleeps ev)%Z.
Proof. unfold Groq.sleeps, size. cbn [filter List.length]. lia. Qed.

Lemma sleeps_cons_other e ev :
  match e with Groq.Sleep _ => False | _ => True end ->
  Groq.sleeps (e :: ev) = Groq.sleeps ev.
Proof. destruct e; [reflexivity | contradiction | reflexivity]. Qed.

(** The handler tries again. *)
Lemma caught_retry k a e again :
  Groq.isCancel e = false ->
  Groq.isRetriableStatus (option_map num (Groq.statusOf e)) = true ->
  (k + 1 <= retries)%Z ->
  Groq.caught env config opts k a e again
  = let '(c, events) := again (k + 1)%Z in
    (c, post :: Groq.Sleep (Groq.backoff (k + 1) a) :: events).
Proof.
  intros Hc Hs Hk. unfold Groq.caught. cbv zeta. rewrite Hc, Hs.
  replace (retries <? k + 1)%Z with false by (symmetry; apply Z.ltb_ge; lia).
  replace (k + 1 <=? retries)%Z with true by (symmetry; apply Z.leb_le; lia).
  rewrite andb_false_r. reflexivity.
Qed.

Lemma caught_stop k a e again :
  Groq.isCancel e = true
  \/ Groq.isRetriableStatus (option_map num (Groq.statusOf e)) = false
  \/ (retries < k + 1)%Z ->
  Groq.caught env config opts k a e again = gaveUp k e.
Proof.
  intros Hstop. unfold Groq.caught, Groq.gaveUp. cbv zeta.
  destruct (Groq.isCancel e); [reflexivity|].
  destruct (_ && (retries <? k + 1)%Z)%bool; [reflexivity|].
  replace (Groq.isRetriableStatus (option_map num (Groq.statusOf e))
           && (k + 1 <=? retries)%Z)%bool with false; [reflexivity|].
  symmetry. apply andb_false_iff.
  destruct Hstop as [Hc | [Hs | Hk]]; [discriminate | now left |].
  right. apply Z.leb_gt. lia.
Qed.





(** Passing through failures that are tried again. *)
Lemma attempts_through fails :
  forall k rest,
    Forall Groq.retriable fails ->
    (k + size fails <= retries)%Z ->
    attempts k (fails ++ rest)
    = let '(c, ev) := attempts (k + size fails) rest in
      (c, Groq.retryEvents env config opts k fails ++ ev).
Proof.
  induction fails as [|a fails IH]; intros k rest Hf Hk.
  - change (size (@nil Groq.Attempt)) with 0%Z. rewrite Z.add_0_r.
    cbn [app Groq.retryEvents].
    now destruct (Groq.attempts env config opts k rest).
  - inversion Hf as [|? ? (e & Ho & Hc & Hs) Hf']; subst.
    assert (size (a :: fails) = (1 + size fails)%Z) as Hsz
      by (unfold size; cbn [List.length]; lia).
    pose proof (size_nonneg fails) as Hnn.
    rewrite Hsz in *. cbn [app Groq.attempts]. rewrite Ho.
    rewrite caught_retry by (try assumption; lia).
    rewrite IH by (try assumption; lia).
    replace (k + 1 + size fails)%Z with (k + (1 + size fails))%Z by lia.
    destruct (Groq.attempts env config opts (k + (1 + size fails)) rest)
      as [c ev].
    reflexivity.
Qed.

Lemma retryEvents_counts fails :
  forall k,
    Groq.posts (Groq.retryEvents env config opts k fails) = size fails
    /\ Groq.sleeps (Groq.retryEvents env config opts k fails) = size fails.
Proof.
  induction fails as [|a fails IH]; intros k; [now split|].
  cbn [Groq.retryEvents]. destruct (IH (k + 1)%Z) as [I1 I2].
  unfold Groq.post.
  rewrite posts_cons_post, (posts_cons_other (Groq.Sleep _)) by exact I.
  rewrite (sleeps_cons_other (Groq.Post _ _ _)) by exact I.
  rewrite sleeps_cons_sleep, I1, I2.
  unfold size. cbn [List.length]. lia.
Qed.


(** X18: an error that is not a cancellation ends the call at once when
    its status is not one to retry on (a status other than 429 and 5xx, or
    no response at all: a timeout among them), at any attempt, and when
    [maxRetries] failures came before it: the call throws, makes no further
    request and does not pause.  A timeout is reported as "Timeout after
    retries." only when no attempt was left, and as a failure to generate
    otherwise. *)
Theorem generateResponse_gives_up fails a e rest :
  Groq.truthyString (Groq.GROQ_API_KEY env) = true ->
  Forall Groq.retriable fails ->
  (size fails <= retries)%Z ->
  Groq.outcome a = Groq.Rejected e ->
  Groq.isCancel e = false ->
  Groq.isRetriableStatus (option_map num (Groq.statusOf e)) = false
  \/ size fails = retries ->
  let timeout :=
    match Groq.code e with
    | Some c => str_eqb c (lit "ECONNABORTED")
    | None => false
    end in
  Groq.generateResponse env config opts (fails ++ a :: rest)
  = if timeout && (retries <? size fails + 1)%Z
    then (Groq.Thrown (lit "Timeout after retries."),
          Groq.retryEvents env config opts 0 fails ++ [post])
    else (Groq.Thrown
            (lit "Failed to generate response: "
             ++ match Groq.statusOf e with
                | Some n => Groq.decimal n
                | None => []
                end
             ++ lit " " ++ Groq.messageOf e),
          Groq.retryEvents env config opts 0 fails
          ++ [post;
              Groq.ConsoleError
                [lit "Error calling Groq API:"; Groq.messageOf e]]).
Proof.
  intros Hkey Hf Hk Ho Hc Hs. cbv zeta.
  unfold Groq.generateResponse. rewrite Hkey. cbn [negb].
  pose proof (attempts_through fails 0 (a :: rest) Hf ltac:(lia)) as E.
  rewrite E. rewrite Z.add_0_l.
  cbn [Groq.attempts]. rewrite Ho.
  rewrite caught_stop
    by (right; destruct Hs as [Hs | Hs]; [now left | right; lia]).
  unfold Groq.gaveUp. rewrite Hc.
  destruct (_ && (retries <? size fails + 1)%Z)%bool; reflexivity.
Qed.

(** X19: after failures that are tried again, no more of them than
    [maxRetries], an answer whose content is a string ends the call: it
    returns that text with the metrics [calculateMetrics] gives it for the
    prompt under the default weights (the weights of the configuration are
    not read), after one request for each failure and one more. *)
Theorem generateResponse_returns fails a completion text rest :
  Groq.truthyString (Groq.GROQ_API_KEY env) = true ->
  Forall Groq.retriable fails ->
  (size fails <= retries)%Z ->
  Groq.outcome a = Groq.Fulfilled completion ->
  Groq.generatedTextOf completion = Groq.JStr text ->
  exists r,
    Groq.generateResponse env config opts (fails ++ a :: rest)
    = (Groq.Returned r, Groq.retryEvents env config opts 0 fails ++ [post])
    /\ Groq.response r = text
    /\ Groq.res_prompt r = Groq.prompt config
    /\ Groq.metrics r = score text (Groq.prompt config) PartialWeights.empty
    /\ Groq.posts (Groq.retryEvents env config opts 0 fails ++ [post])
       = (size fails + 1)%Z
    /\ Groq.sleeps (Groq.retryEvents env config opts 0 fails ++ [post])
       = size fails.
Proof.
  intros Hkey Hf Hk Ho Ht.
  unfold Groq.generateResponse. rewrite Hkey. cbn [negb].
  pose proof (attempts_through fails 0 (a :: rest) Hf ltac:(lia)) as E.
  rewrite E. rewrite Z.add_0_l.
  cbn [Groq.attempts]. rewrite Ho.
  unfold Groq.fulfilled. cbv zeta. rewrite Ht.
  eexists. split; [reflexivity|]. cbn [Groq.response Groq.res_prompt Groq.metrics].
  repeat split.
  - destruct (retryEvents_counts fails 0) as [Hp _].
    unfold Groq.posts in *. rewrite filter_app. unfold size in *.
    rewrite length_app, Nat2Z.inj_add, Hp. reflexivity.
  - destruct (retryEvents_counts fails 0) as [_ Hsl].
    unfold Groq.sleeps in *. rewrite filter_app. unfold size in *.
    rewrite length_app, Nat2Z.inj_add, Hsl. cbn. lia.
Qed.

(** X20: an answer whose content is there but is not a string makes
    [calculateMetrics] throw inside [try]: the call ends as a failure
    without a status, and is not tried again. *)
Theorem generateResponse_content_not_string a completion rest :
  Groq.truthyString (Groq.GROQ_API_KEY env) = true ->
  Groq.outcome a = Groq.Fulfilled completion ->
  (forall text, Groq.generatedTextOf completion <> Groq.JStr text) ->
  Groq.generateResponse env config opts (a :: rest)
  = (Groq.Thrown
       (lit "Failed to generate response: " ++ lit " "
        ++ Groq.typeErrorMessage (Groq.generatedTextOf completion)),
     [post;
      Groq.ConsoleError
        [lit "Error calling Groq API:";
         Groq.typeErrorMessage (Groq.generatedTextOf completion)]]).
Proof.
  intros Hkey Ho Hns.
  unfold Groq.generateResponse. rewrite Hkey. cbn [negb Groq.attempts].
  rewrite Ho. unfold Groq.fulfilled. cbv zeta.
  destruct (Groq.generatedTextOf completion) as [| b | x | s | items | fields]
    eqn:E; try (now destruct (Hns s));
    (rewrite caught_stop by (right; now left); reflexivity).
Qed.

End GroqCall.

(** X18, witness: a 503, tried again, and then a timeout. *)
Lemma generateResponse_gives_up_witness :
  fst (@Groq.generateResponse stubRuntime Groq.stubHost Groq.keyed
         Groq.askParis Groq.noOptions
         [Groq.pass (Groq.Rejected (Groq.answered 503));
          Groq.pass (Groq.Rejected Groq.timedOut)])
  = Groq.Thrown
      (lit "Failed to generate response:  timeout of 60000ms exceeded").
Proof.
  pose proof (@generateResponse_gives_up stubRuntime Groq.stubHost Groq.keyed
                Groq.askParis Groq.noOptions
                [Groq.pass (Groq.Rejected (Groq.answered 503))]
                (Groq.pass (Groq.Rejected Groq.timedOut)) Groq.timedOut [])
    as W.
  cbn [app] in W. rewrite W; try reflexivity.
  - constructor; [|constructor]. exists (Groq.answered 503).
    repeat split; reflexivity.
  - vm_compute. discriminate.
  - left. reflexivity.
Defined.

(** X19, witness: a 429, tried again, and then an answer. *)
Lemma generateResponse_returns_witness :
  exists r,
    fst (@Groq.generateResponse stubRuntime Groq.stubHost Groq.keyed
           Groq.askParis Groq.noOptions
           [Groq.pass (Groq.Rejected (Groq.answered 429));
            Groq.pass (Groq.Fulfilled (Groq.completionWith (Groq.JStr parisText)))])
    = Groq.Returned r
    /\ Groq.metrics r
       = @score stubRuntime parisText (lit "Explain Paris.")
           PartialWeights.empty.
Proof.
  destruct (@generateResponse_returns stubRuntime Groq.stubHost Groq.keyed
              Groq.askParis Groq.noOptions
              [Groq.pass (Groq.Rejected (Groq.answered 429))]
              (Groq.pass (Groq.Fulfilled (Groq.completionWith (Groq.JStr parisText))))
              (Groq.completionWith (Groq.JStr parisText)) parisText [])
    as (r & E & _ & _ & Hm & _); try reflexivity.
  - constructor; [|constructor]. exists (Groq.answered 429).
    repeat split; reflexivity.
  - vm_compute. discriminate.
  - exists r. cbn [app] in E. rewrite E. split; [reflexivity | exact Hm].
Defined.

(** X20, witness: an answer whose content is the number 5. *)
Lemma generateResponse_content_not_string_witness :
  fst (@Groq.generateResponse stubRuntime Groq.stubHost Groq.keyed
         Groq.askParis Groq.noOptions
         [Groq.pass (Groq.Fulfilled (Groq.completionWith (Groq.JNum 5)))])
  = Groq.Thrown
      (lit "Failed to generate response:  text.split is not a function").
Proof.
  rewrite (@generateResponse_content_not_string stubRuntime Groq.stubHost
             Groq.keyed Groq.askParis Groq.noOptions
             (Groq.pass (Groq.Fulfilled (Groq.completionWith (Groq.JNum 5))))
             (Groq.completionWith (Groq.JNum 5)) []); try reflexivity.
  intros text. vm_compute. discriminate.
Defined.

(** ** Products with 1 and sums with 0 *)

Local Open Scope Z_scope.

Lemma mul_pow52 m :
  (m * 4503599627370496)%positive = Pos.iter xO m 52.
Proof.
  apply Pos2Z.inj. rewrite Pos2Z.inj_mul, iter_xO_val. reflexivity.
Qed.

Lemma shr_52 m :
  iter_pos shr_1 52
    {| shr_m := Zpos (Pos.iter xO m 52); shr_r := false; shr_s := false |}
  = {| shr_m := Zpos m; shr_r := false; shr_s := false |}.
Proof. reflexivity. Qed.

Lemma SFmul_one_r s m e :
  valid_binary (S754_finite s m e) = true ->
  SFmul prec emax (S754_finite s m e) sf_one = S754_finite s m e.
Proof.
  intros V. pose proof V as V'.
  unfold valid_binary, bounded, canonical_mantissa in V'.
  apply andb_prop in V'. destruct V' as [Hc Hb].
  apply Z.eqb_eq in Hc.
  unfold sf_one, SFmul. rewrite xorb_false_r, mul_pow52.
  assert (Zpos (digits2_pos (Pos.iter xO m 52)) + (e + -52)
          = Zpos (digits2_pos m) + e) as Hd
    by (rewrite digits2_iter_xO; lia).
  unfold binary_round_aux, shr_fexp.
  change (Zdigits2 (Zpos (Pos.iter xO m 52)))
    with (Zpos (digits2_pos (Pos.iter xO m 52))).
  rewrite Hd, Hc.
  replace (e - (e + -52)) with 52 by lia.
  cbn [shr_record_of_loc shr]. rewrite shr_52.
  cbn [shr_m loc_of_shr_record round_nearest_even].
  replace (e + -52 + 52) with e by lia.
  change (Zdigits2 (Zpos m)) with (Zpos (digits2_pos m)).
  rewrite Hc, Z.sub_diag. cbn [shr shr_record_of_loc shr_m].
  now rewrite Hb.
Qed.

Local Open Scope float_scope.

Lemma mul_one_r x : is_finite x = true -> x * 1 = x.
Proof.
  intros Hf. apply Prim2SF_inj. rewrite mul_spec, Prim2SF_one.
  pose proof (Prim2SF_valid x) as V. unfold is_finite in Hf.
  destruct (Prim2SF x) as [s|s| |s m e]; try discriminate.
  - destruct s; reflexivity.
  - now apply SFmul_one_r.
Qed.

Lemma add_zero_r x : regular x -> x + 0 = x.
Proof.
  intros (Hf & Hn & Hz). apply Prim2SF_inj. rewrite add_spec, Prim2SF_zero.
  unfold is_finite, fnonneg in *.
  destruct (Prim2SF x) as [[|]|s| |s m e]; try discriminate; try reflexivity.
  now contradiction Hz.
Qed.

Lemma add_zero_l x : regular x -> 0 + x = x.
Proof.
  intros (Hf & Hn & Hz). apply Prim2SF_inj. rewrite add_spec, Prim2SF_zero.
  unfold is_finite, fnonneg in *.
  destruct (Prim2SF x) as [[|]|s| |s m e]; try discriminate; try reflexivity.
  now contradiction Hz.
Qed.

Lemma regular_mul_zero x : regular x -> x * 0 = 0.
Proof. intros (Hf & Hn & Hz). now apply mul_zero_r. Qed.

Lemma regular_mul_one x : regular x -> x * 1 = x.
Proof. intros (Hf & _). now apply mul_one_r. Qed.

(** A number that [clamp01] leaves as it is is regular, NaN apart. *)
Lemma regular_of_clamped x : fnonnan x -> clamp01 x = x -> regular x.
Proof.
  intros Hn E. pose proof (clamp01_in01 x Hn) as Hin. rewrite E in Hin.
  destruct (in01_facts x Hin) as (Hs & Hnn & _).
  split; [|split; [assumption|]].
  - unfold fsmall in Hs. unfold is_finite.
    destruct (Prim2SF x); cbn [sf_small] in Hs; try contradiction; reflexivity.
  - rewrite <- E. apply clamp01_not_neg_zero.
Qed.

Section Selection.
Context {R : MathRuntime} {L : MathRuntimeLaws R}.

Lemma scorers_regular response prompt :
  regular (calculateCoherenceScore initialState response)
  /\ regular (calculateLengthScore response prompt)
  /\ regular (calculateVocabularyRichness initialState response)
  /\ regular (repetitionPenaltyScore response)
  /\ regular (fst (readabilityScore response)).
Proof.
  repeat split.
  all: try (apply regular_of_clamped;
            [ first [ apply in01_fnonnan;
                      first [ apply calculateCoherenceScore_in01
                            | apply calculateLengthScore_in01
                            | apply calculateVocabularyRichness_in01
                            | apply readabilityScore_in01 ]
                    | apply repetitionPenaltyScore_fnonnan ]
            | first [ apply calculateCoherenceScore_clamped
                    | apply calculateLengthScore_clamped
                    | apply calculateVocabularyRichness_clamped
                    | apply repetitionPenaltyScore_clamped
                    | apply readabilityScore_clamped ] ]).
Qed.

End Selection.

(** X21: on a host that obeys the laws, the overall score under weights
    that are all 0 is 0, and under the weight 1 on one sub-score and 0 on
    the others it is that sub-score as a percentage, rounded and clamped:
    no sub-score leaks into the overall score through a zero weight. *)
Theorem weights_select {R : MathRuntime} (L : MathRuntimeLaws R)
    response prompt :
  let m := score response prompt in
  ResponseMetrics.overallScore (m (weightsOf 0 0 0 0 0)) = 0
  /\ ResponseMetrics.overallScore (m (weightsOf 1 0 0 0 0))
     = percent (ResponseMetrics.coherenceScore (m (weightsOf 1 0 0 0 0)))
  /\ ResponseMetrics.overallScore (m (weightsOf 0 1 0 0 0))
     = percent (ResponseMetrics.lengthScore (m (weightsOf 0 1 0 0 0)))
  /\ ResponseMetrics.overallScore (m (weightsOf 0 0 1 0 0))
     = percent
         (ResponseMetrics.vocabularyRichnessScore (m (weightsOf 0 0 1 0 0)))
  /\ ResponseMetrics.overallScore (m (weightsOf 0 0 0 1 0))
     = percent (ResponseMetrics.repetitionPenalty (m (weightsOf 0 0 0 1 0)))
  /\ ResponseMetrics.overallScore (m (weightsOf 0 0 0 0 1))
     = percent (ResponseMetrics.readabilityScore (m (weightsOf 0 0 0 0 1))).
Proof.
  destruct (scorers_regular response prompt) as (Hc & Hl & Hv & Hr & Hd).
  fields. unfold weightedSum, percent, spread, weightsOf.
  cbn [Weights.coherence Weights.length Weights.vocab Weights.repetition
       Weights.readability PartialWeights.coherence PartialWeights.length
       PartialWeights.vocab PartialWeights.repetition
       PartialWeights.readability].
  rewrite calculateCoherenceScore_clamped, calculateLengthScore_clamped,
    calculateVocabularyRichness_clamped, repetitionPenaltyScore_clamped,
    readabilityScore_clamped.
  rewrite !(regular_mul_zero _ Hc), !(regular_mul_zero _ Hl),
    !(regular_mul_zero _ Hv), !(regular_mul_zero _ Hr),
    !(regular_mul_zero _ Hd).
  rewrite (regular_mul_one _ Hc), (regular_mul_one _ Hl),
    (regular_mul_one _ Hv), (regular_mul_one _ Hr), (regular_mul_one _ Hd).
  repeat change (0 + 0) with 0.
  rewrite ?(add_zero_l _ Hl), ?(add_zero_l _ Hv), ?(add_zero_l _ Hr),
    ?(add_zero_l _ Hd).
  rewrite ?(add_zero_r _ Hc), ?(add_zero_r _ Hl), ?(add_zero_r _ Hv),
    ?(add_zero_r _ Hr).
  repeat split; reflexivity.
Qed.

(** X21, witness: the response "Hello." on the stand-in host. *)
Lemma weights_select_witness :
  ResponseMetrics.overallScore
    (@score stubRuntime hello [] (weightsOf 0 0 0 0 0)) = 0.
Proof.
  exact (proj1 (weights_select stubRuntime_laws hello [])).
Defined.
